(** * TDS: a shallow embedding of the tower-defence simulation core

    The development follows the Python sources:
    - [src/waves/wave_manager.py]   (module [Waves])
    - [src/enemies/base_enemy.py]   (module [Enemies])
    - [src/towers/projectile.py]    (module [Towers])
    - [src/ui/build_manager.py]     (module [Build])
    - [tds/game.py], [tds/models.py] (module [Scaler])

    Python [int] is [Z].  Python [float] arithmetic is a parameter of the
    development (class [Arith]): every definition is written over an
    arbitrary carrier with the operations the sources use, and each theorem
    names the arithmetic laws it relies on.  Where a float operation can
    raise ([**], [math.ceil], [int], the conversion of a large int) the
    exception is a parameter too (class [FloatErrors]).  The canonical
    rationals [Qc] are an executable instance that satisfies all of the
    laws. *)

From Stdlib Require Import ZArith QArith Qcanon Qround Qpower Lia Lqa.
From stdpp Require Import base tactics option list sorting strings pretty gmap.

Close Scope Q_scope.
Close Scope Qc_scope.
Open Scope Z_scope.

(** ** Exceptions *)

Inductive exn : Set :=
  | ValueError
  | IndexError
  | ZeroDivisionError
  | OverflowError.

Inductive outcome (A : Type) : Type :=
  | Returned (a : A)
  | Raised (e : exn).
Arguments Returned {A} a.
Arguments Raised {A} e.

Global Instance outcome_ret : MRet outcome := fun A a => Returned a.
Global Instance outcome_bind : MBind outcome := fun A B k x =>
  match x with
  | Returned a => k a
  | Raised e => Raised e
  end.

(** ** Float arithmetic as an interface *)

Class Arith (F : Type) : Type := {
  zero : F;
  one : F;
  of_int : Z → F;          (* float(n); also the int operand of int * float *)
  add : F → F → F;
  sub : F → F → F;
  mul : F → F → F;
  div : F → F → F;
  pow_int : F → Z → F;     (* x ** n with n an int *)
  pow_half : F → F;        (* x ** 0.5 *)
  leb : F → F → bool;      (* x <= y *)
  ltb : F → F → bool;      (* x < y *)
  eqb : F → F → bool;      (* x == y *)
  ceil : F → Z;            (* math.ceil(x) *)
  trunc : F → Z;           (* int(x) *)
  round2 : F → F;          (* round(x, 2) *)
}.

(** A decimal literal [n/d], e.g. [0.1] is [lit 1 10]. *)
Definition lit `{Arith F} (n d : Z) : F := div (of_int n) (of_int d).

(** Where float operations raise.  [x ** n] raises [OverflowError] when
    the result is out of range and [ZeroDivisionError] for [0.0] to a
    negative power; [math.ceil(x)] and [int(x)] raise [OverflowError] on an
    infinity and [ValueError] on a NaN; an int operand too large for a
    float raises [OverflowError].  Each field gives the exception, if
    any; the field of [Arith] gives the value when there is none. *)
Class FloatErrors (F : Type) : Type := {
  pow_int_raises : F → Z → option exn;
  ceil_raises : F → option exn;
  trunc_raises : F → option exn;
  of_int_raises : Z → option exn;
}.

Definition checked {A} (raises : option exn) (value : A) : outcome A :=
  match raises with
  | Some e => Raised e
  | None => Returned value
  end.

(** [x ** n], [math.ceil(x)], [int(x)] and the [float(n)] of [n * x]. *)
Definition float_pow `{Arith F} `{FloatErrors F} (x : F) (n : Z) : outcome F :=
  checked (pow_int_raises x n) (pow_int x n).

Definition math_ceil `{Arith F} `{FloatErrors F} (x : F) : outcome Z :=
  checked (ceil_raises x) (ceil x).

Definition int_of_float `{Arith F} `{FloatErrors F} (x : F) : outcome Z :=
  checked (trunc_raises x) (trunc x).

Definition float_of_int `{Arith F} `{FloatErrors F} (n : Z) : outcome F :=
  checked (of_int_raises n) (of_int n).

(** Python sequence indexing [l[i]] with negative indices. *)
Definition getitem {A} (l : list A) (i : Z) : outcome A :=
  let n := Z.of_nat (length l) in
  let j := if i <? 0 then i + n else i in
  if (j <? 0) || (n <=? j) then Raised IndexError
  else match l !! Z.to_nat j with
       | Some x => Returned x
       | None => Raised IndexError
       end.

(** Python [a // b] and [a % b] on ints: floor division, the remainder
    takes the sign of the divisor, and a zero divisor raises. *)
Definition floordiv (a b : Z) : outcome Z :=
  if b =? 0 then Raised ZeroDivisionError else Returned (a `div` b).

Definition pymod (a b : Z) : outcome Z :=
  if b =? 0 then Raised ZeroDivisionError else Returned (a `mod` b).

(** ** waves/wave_manager.py *)

Module Waves.
Section WaveManager.
Context {F : Type} `{Arith F}.
(** The spawn callback acts on the caller's world. *)
Context {World : Type} (spawn_callback : string → World → World).

Definition EnemySpawn : Type := string * F.
Definition WaveDefinition : Type := list EnemySpawn.

Record WaveState : Type := mkWaveState {
  spawns : list EnemySpawn;
  elapsed : F;
}.

Record WaveManager : Type := mkWaveManager {
  _waves : list (list EnemySpawn);
  _loop_waves : bool;
  _current_index : Z;
  _state : option WaveState;
}.

(** [sorted(wave, key=lambda item: item[1])]: a stable sort that only
    uses [<] on the keys. *)
Fixpoint insert_by_time (x : EnemySpawn) (l : list EnemySpawn) : list EnemySpawn :=
  match l with
  | [] => [x]
  | y :: l' => if ltb (snd y) (snd x) then y :: insert_by_time x l' else x :: y :: l'
  end.

Definition sorted_by_time (wave : WaveDefinition) : list EnemySpawn :=
  foldr insert_by_time [] wave.

Definition init (waves : list WaveDefinition) (loop_waves : bool) : WaveManager :=
  {| _waves := map sorted_by_time waves;
     _loop_waves := loop_waves;
     _current_index := -1;
     _state := None |}.

Definition current_wave_index (m : WaveManager) : Z := _current_index m.

Definition wave_in_progress (m : WaveManager) : bool :=
  match _state m with Some _ => true | None => false end.

Definition current_wave_number (m : WaveManager) : Z :=
  if wave_in_progress m then _current_index m + 1 else 0.

Definition total_waves (m : WaveManager) : Z := Z.of_nat (length (_waves m)).

Definition start_at (m : WaveManager) (next_index : Z) : outcome bool * WaveManager :=
  match getitem (_waves m) next_index with
  | Raised e => (Raised e, mkWaveManager (_waves m) (_loop_waves m) next_index (_state m))
  | Returned wave =>
      (Returned true,
       mkWaveManager (_waves m) (_loop_waves m) next_index
         (Some (mkWaveState wave zero)))
  end.

Definition start_next_wave (m : WaveManager) : outcome bool * WaveManager :=
  match _state m with
  | Some _ => (Returned false, m)
  | None =>
      let next_index := _current_index m + 1 in
      if total_waves m <=? next_index then
        if _loop_waves m && negb (bool_decide (_waves m = []))
        then start_at m 0
        else (Returned false, m)
      else start_at m next_index
  end.

Definition reset (m : WaveManager) : WaveManager :=
  mkWaveManager (_waves m) (_loop_waves m) (-1) None.

(** The [while] loop of [update]: pop the head while it is due. *)
Fixpoint fire_due (now : F) (queue : list EnemySpawn) (w : World)
  : list EnemySpawn * World :=
  match queue with
  | [] => ([], w)
  | s :: queue' =>
      if leb (snd s) now then fire_due now queue' (spawn_callback (fst s) w)
      else (queue, w)
  end.

Definition update (delta_time : F) (m : WaveManager) (w : World)
  : WaveManager * World :=
  match _state m with
  | None => (m, w)
  | Some st =>
      let now := add (elapsed st) delta_time in
      let '(queue, w') := fire_due now (spawns st) w in
      let st' := match queue with
                 | [] => None
                 | _ :: _ => Some (mkWaveState queue now)
                 end in
      (mkWaveManager (_waves m) (_loop_waves m) (_current_index m) st', w')
  end.

Definition is_finished (m : WaveManager) : bool :=
  negb (_loop_waves m)
  && (total_waves m - 1 <=? _current_index m)
  && negb (wave_in_progress m).

(** [remaining_waves] returns [float("inf")] when looping. *)
Inductive wave_count : Set :=
  | Unbounded
  | Bounded (n : Z).

Definition remaining_waves (m : WaveManager) : wave_count :=
  if _loop_waves m then Unbounded
  else
    match _state m with
    | None => Bounded (Z.max 0 (total_waves m - (_current_index m + 1)))
    | Some _ => Bounded (Z.max 0 (total_waves m - _current_index m))
    end.

(** The progress snapshot is a [dict]; [load_progress] reads it with
    [data.get], so every key may be missing. *)
Record Snapshot : Type := mkSnapshot {
  current_index : option Z;
  snap_wave_in_progress : option bool;
  remaining_spawns : option (list EnemySpawn);
  snap_elapsed : option F;
}.

Definition serialize_progress (m : WaveManager) : Snapshot :=
  {| current_index := Some (_current_index m);
     snap_wave_in_progress := Some (wave_in_progress m);
     remaining_spawns :=
       Some (match _state m with Some st => spawns st | None => [] end);
     snap_elapsed :=
       Some (match _state m with Some st => elapsed st | None => zero end) |}.

Definition load_progress (m : WaveManager) (data : Snapshot)
  : outcome unit * WaveManager :=
  let index := default (-1) (current_index data) in
  if (index <? -1) || (total_waves m <=? index) then (Raised ValueError, m)
  else
    let st :=
      if default false (snap_wave_in_progress data)
         && (0 <=? index) && (index <? total_waves m)
      then Some (mkWaveState (default [] (remaining_spawns data))
                             (default zero (snap_elapsed data)))
      else None in
    (Returned tt, mkWaveManager (_waves m) (_loop_waves m) index st).

(** States reachable through the public API from the manager built by
    [WaveManager(waves, spawn_callback, loop_waves=loop_waves)]; snapshots
    are loaded as the docstring of [load_progress] has it, from
    [serialize_progress] output. *)
Inductive reachable (waves : list WaveDefinition) (loop_waves : bool)
  : WaveManager → Prop :=
  | reach_init : reachable waves loop_waves (init waves loop_waves)
  | reach_start_next_wave m :
      reachable waves loop_waves m →
      reachable waves loop_waves (snd (start_next_wave m))
  | reach_update m dt w :
      reachable waves loop_waves m →
      reachable waves loop_waves (fst (update dt m w))
  | reach_reset m :
      reachable waves loop_waves m →
      reachable waves loop_waves (reset m)
  | reach_load_progress m m' :
      reachable waves loop_waves m →
      reachable waves loop_waves m' →
      reachable waves loop_waves (snd (load_progress m (serialize_progress m'))).

(** A queued spawn is due at [now] when [spawn_time <= now]. *)
Definition due (now : F) (s : EnemySpawn) : bool := leb (snd s) now.

(** Spawns stamped with the time [t] (up to the order's equivalence). *)
Definition same_time (t : F) (s : EnemySpawn) : bool :=
  leb t (snd s) && leb (snd s) t.

Definition ascending (l : list EnemySpawn) : Prop :=
  StronglySorted (fun a b => leb (snd a) (snd b) = true) l.

(** The callback invocations made for a list of spawns, in list order. *)
Definition fire_all (l : list EnemySpawn) (w : World) : World :=
  foldl (fun w s => spawn_callback (fst s) w) w l.

(** What every reachable state satisfies: the wave table is the sorted
    input, the index is in range, and an active queue is a suffix of the
    current wave. *)
Definition invariant (waves : list WaveDefinition) (m : WaveManager) : Prop :=
  _waves m = map sorted_by_time waves
  ∧ -1 ≤ _current_index m < total_waves m
  ∧ ∀ st, _state m = Some st →
      0 ≤ _current_index m
      ∧ ∃ wave pre, waves !! Z.to_nat (_current_index m) = Some wave
                    ∧ sorted_by_time wave = pre ++ spawns st.

End WaveManager.
End Waves.

(** ** enemies/base_enemy.py *)

Module Enemies.
Section BaseEnemy.
Context {F : Type} `{Arith F} `{FloatErrors F}.

Definition Vector : Type := F * F.

Record AnimationState : Type := mkAnimationState {
  frames : list string;
  frame_time : F;
  current_time : F;
  current_frame_index : Z;
}.

(** The [while self.current_time >= self.frame_time] loop; [None] when the
    fuel runs out before the loop exits. *)
Fixpoint animation_loop (fuel : nat) (a : AnimationState) : option AnimationState :=
  match fuel with
  | O => None
  | S fuel' =>
      if leb (frame_time a) (current_time a) then
        animation_loop fuel'
          (mkAnimationState (frames a) (frame_time a)
             (sub (current_time a) (frame_time a))
             ((current_frame_index a + 1) `mod` Z.of_nat (length (frames a))))
      else Some a
  end.

Definition AnimationState_update (fuel : nat) (dt : F) (a : AnimationState)
  : option AnimationState :=
  match frames a with
  | [] => Some a
  | _ :: _ =>
      animation_loop fuel
        (mkAnimationState (frames a) (frame_time a)
           (add (current_time a) dt) (current_frame_index a))
  end.

Definition current_frame (a : AnimationState) : outcome (option string) :=
  match frames a with
  | [] => Returned None
  | _ :: _ => x ← getitem (frames a) (current_frame_index a); Returned (Some x)
  end.

Record BaseEnemy : Type := mkBaseEnemy {
  _waypoints : list Vector;
  _waypoint_index : Z;
  position : Vector;
  speed : F;
  health : Z;
  alive : bool;
  arrival_tolerance : F;
  animation : AnimationState;
  reached_goal : bool;
}.

Record Player : Type := mkPlayer { lives : Z }.

Definition Player_init (lives : Z) : outcome Player :=
  if lives <=? 0 then Raised ValueError else Returned (mkPlayer lives).

Definition lose_life (p : Player) : Player :=
  if 0 <? lives p then mkPlayer (lives p - 1) else p.

Definition is_alive (p : Player) : bool := 0 <? lives p.

(** [BaseEnemy.__init__]; [arrival_tolerance] defaults to [1.0] and
    [animation_frames] to [None]. *)
Definition init (waypoints : list Vector) (speed : F) (health : Z)
    (animation_frames : option (list string)) (arrival_tolerance : F)
  : outcome BaseEnemy :=
  match waypoints with
  | [] => Raised ValueError
  | first :: _ =>
      Returned
        {| _waypoints := waypoints;
           _waypoint_index := 0;
           position := first;
           speed := speed;
           health := health;
           alive := true;
           arrival_tolerance := arrival_tolerance;
           animation := mkAnimationState (default [] animation_frames) (lit 1 10) zero 0;
           reached_goal := false |}
  end.

Definition target_waypoint (e : BaseEnemy) : outcome Vector :=
  getitem (_waypoints e) (_waypoint_index e).

Definition take_damage (amount : Z) (e : BaseEnemy) : BaseEnemy :=
  if negb (alive e) then e
  else
    let h := health e - amount in
    mkBaseEnemy (_waypoints e) (_waypoint_index e) (position e) (speed e) h
      (if h <=? 0 then false else alive e)
      (arrival_tolerance e) (animation e) (reached_goal e).

Definition with_position (p : Vector) (e : BaseEnemy) : BaseEnemy :=
  mkBaseEnemy (_waypoints e) (_waypoint_index e) p (speed e) (health e) (alive e)
    (arrival_tolerance e) (animation e) (reached_goal e).

Definition with_waypoint_index (i : Z) (e : BaseEnemy) : BaseEnemy :=
  mkBaseEnemy (_waypoints e) i (position e) (speed e) (health e) (alive e)
    (arrival_tolerance e) (animation e) (reached_goal e).

Definition with_animation (a : AnimationState) (e : BaseEnemy) : BaseEnemy :=
  mkBaseEnemy (_waypoints e) (_waypoint_index e) (position e) (speed e) (health e)
    (alive e) (arrival_tolerance e) a (reached_goal e).

Definition _on_goal_reached (e : BaseEnemy) (player : option Player)
  : BaseEnemy * option Player :=
  (mkBaseEnemy (_waypoints e) (_waypoint_index e) (position e) (speed e) (health e)
     (alive e) (arrival_tolerance e) (animation e) true,
   lose_life <$> player).

Definition at_last_waypoint (e : BaseEnemy) : bool :=
  Z.of_nat (length (_waypoints e)) <=? _waypoint_index e + 1.

(** [(diff_x**2 + diff_y**2) ** 0.5]; the squares may overflow. *)
Definition distance (diff_x diff_y : F) : outcome F :=
  square_x ← float_pow diff_x 2;
  square_y ← float_pow diff_y 2;
  Returned (pow_half (add square_x square_y)).

(** The [while remaining_distance > 0 and not self.reached_goal] loop of
    [update].  The outer [option] is [None] when the fuel runs out. *)
Fixpoint move_loop (fuel : nat) (remaining_distance : F) (e : BaseEnemy)
    (player : option Player) : option (outcome (BaseEnemy * option Player)) :=
  match fuel with
  | O => None
  | S fuel' =>
      if ltb zero remaining_distance && negb (reached_goal e) then
        match target_waypoint e with
        | Raised ex => Some (Raised ex)
        | Returned (target_x, target_y) =>
            let '(current_x, current_y) := position e in
            let diff_x := sub target_x current_x in
            let diff_y := sub target_y current_y in
            match distance diff_x diff_y with
            | Raised ex => Some (Raised ex)
            | Returned distance_to_target =>
                if leb distance_to_target (arrival_tolerance e) then
                  let e1 := with_position (target_x, target_y) e in
                  if at_last_waypoint e1
                  then Some (Returned (_on_goal_reached e1 player))
                  else move_loop fuel' remaining_distance
                         (with_waypoint_index (_waypoint_index e1 + 1) e1) player
                else if leb distance_to_target remaining_distance then
                  let e1 := with_position (target_x, target_y) e in
                  let remaining' := sub remaining_distance distance_to_target in
                  if at_last_waypoint e1
                  then Some (Returned (_on_goal_reached e1 player))
                  else move_loop fuel' remaining'
                         (with_waypoint_index (_waypoint_index e1 + 1) e1) player
                else
                  let ratio := div remaining_distance distance_to_target in
                  let new_x := add current_x (mul diff_x ratio) in
                  let new_y := add current_y (mul diff_y ratio) in
                  move_loop fuel' zero (with_position (new_x, new_y) e) player
            end
        end
      else Some (Returned (e, player))
  end.

Definition update (fuel : nat) (dt : F) (e : BaseEnemy) (player : option Player)
  : option (outcome (BaseEnemy * option Player)) :=
  if negb (alive e) || reached_goal e then Some (Returned (e, player))
  else
    match AnimationState_update fuel dt (animation e) with
    | None => None
    | Some a =>
        move_loop fuel (mul (speed e) dt) (with_animation a e) player
    end.


(** [x - x == 0.0]: true of every finite float, false of the infinities
    and of NaN. *)
Definition finite (x : F) : Prop := sub x x = zero.

(** The animation clock, advanced by [dt], falls below [frame_time] after
    finitely many subtractions of [frame_time]: the exit condition of the
    loop in [AnimationState.update].  It fails when [frame_time] is not
    positive, and in binary64 also when [dt] is so large that subtracting
    [frame_time] no longer changes the clock.  Without frames the loop is
    not entered. *)
Definition clock_runs_down (dt : F) (a : AnimationState) : Prop :=
  frames a = []
  ∨ ∃ n : nat,
      leb (frame_time a)
        (Nat.iter n (fun t => sub t (frame_time a)) (add (current_time a) dt))
      = false.

End BaseEnemy.
End Enemies.

(** ** towers/projectile.py *)

Module Towers.

(** The [TargetLike] protocol.  The target is an object shared with the
    rest of the game; the projectile reads and mutates it through these
    three members only. *)
Class TargetLike (F : Type) (T : Type) : Type := {
  target_position : T → F * F;
  target_is_alive : T → bool;
  target_take_damage : F → T → T;
}.

Section Projectile.
Context {F : Type} `{Arith F} {T : Type} `{TargetLike F T}.

Record Projectile : Type := mkProjectile {
  position : F * F;
  speed : F;
  damage : F;
  finished : bool;
}.

Definition with_finished (p : Projectile) : Projectile :=
  mkProjectile (position p) (speed p) (damage p) true.

Definition with_position (xy : F * F) (p : Projectile) : Projectile :=
  mkProjectile xy (speed p) (damage p) (finished p).

Definition _hit_target (p : Projectile) (target : T) : Projectile * T :=
  if negb (target_is_alive target) then (with_finished p, target)
  else (with_finished p, target_take_damage (damage p) target).

Definition update (dt : F) (p : Projectile) (target : T) : Projectile * T :=
  if finished p then (p, target)
  else if negb (target_is_alive target) then (with_finished p, target)
  else
    let '(tx, ty) := target_position target in
    let '(x, y) := position p in
    let dx := sub tx x in
    let dy := sub ty y in
    let distance := pow_half (add (pow_int dx 2) (pow_int dy 2)) in
    if eqb distance zero then _hit_target p target
    else
      let travel_distance := mul (speed p) dt in
      if leb distance travel_distance
      then _hit_target (with_position (tx, ty) p) target
      else
        let ratio := div travel_distance distance in
        (with_position (add x (mul dx ratio), add y (mul dy ratio)) p, target).

(** [distance] as [update] computes it from the projectile to the target. *)
Definition distance_to (p : Projectile) (target : T) : F :=
  let '(tx, ty) := target_position target in
  let '(x, y) := position p in
  pow_half (add (pow_int (sub tx x) 2) (pow_int (sub ty y) 2)).

End Projectile.
End Towers.

(** ** ui/build_manager.py *)

Module Build.

Definition GridPosition : Type := Z * Z.
Definition Color : Type := Z * Z * Z.

(** [hud_overlay.TowerButton]; the [icon] surface and the derived [rect]
    belong to the renderer. *)
Record TowerButton : Type := mkTowerButton {
  name : string;
  cost : Z;
  button_position : Z * Z;
  size : Z * Z;
}.

Definition BLOCKED_TILES : list GridPosition :=
  [(5, 0); (5, 1); (5, 2); (5, 3); (5, 4); (6, 4); (7, 4); (8, 4); (9, 4);
   (10, 4); (11, 4); (12, 4); (12, 5); (12, 6); (12, 7); (12, 8)].

Definition PREVIEW_OK_COLOR : Color := (80, 200, 120).
Definition PREVIEW_FORBIDDEN_COLOR : Color := (210, 80, 80).

Record BuildPreview : Type := mkBuildPreview {
  grid_position : GridPosition;
  pixel_position : Z * Z;
  color : Color;
  can_build : bool;
}.

Record BuildManager : Type := mkBuildManager {
  tile_size : Z;
  blocked_tiles : gset GridPosition;
  _selected_button : option TowerButton;
  preview : option BuildPreview;
}.

(** [set(blocked_tiles or BLOCKED_TILES)]: [None] and the empty iterable
    both select the default. *)
Definition init (tile_size : Z) (blocked : option (list GridPosition)) : BuildManager :=
  let tiles := match blocked with
               | None | Some [] => BLOCKED_TILES
               | Some l => l
               end in
  mkBuildManager tile_size (list_to_set tiles) None None.

Definition is_building (bm : BuildManager) : bool :=
  match _selected_button bm with Some _ => true | None => false end.

Definition begin_build (bm : BuildManager) (button : TowerButton) (money : Z)
  : bool * BuildManager :=
  if money <? cost button then (false, bm)
  else (true, mkBuildManager (tile_size bm) (blocked_tiles bm) (Some button) None).

Definition cancel (bm : BuildManager) : BuildManager :=
  mkBuildManager (tile_size bm) (blocked_tiles bm) None None.

Definition _snap_to_grid (bm : BuildManager) (position : Z * Z) : outcome GridPosition :=
  gx ← floordiv (fst position) (tile_size bm);
  gy ← floordiv (snd position) (tile_size bm);
  Returned (gx, gy).

Definition _can_place (bm : BuildManager) (grid_position : GridPosition)
    (occupied : gset GridPosition) (money : Z) : bool :=
  match _selected_button bm with
  | None => false
  | Some button =>
      if money <? cost button then false
      else if bool_decide (grid_position ∈ blocked_tiles bm) then false
      else negb (bool_decide (grid_position ∈ occupied))
  end.

Definition update_preview (bm : BuildManager) (mouse_position : Z * Z)
    (occupied_tiles : gset GridPosition) (money : Z)
  : outcome (option BuildPreview) * BuildManager :=
  match _selected_button bm with
  | None =>
      (Returned None,
       mkBuildManager (tile_size bm) (blocked_tiles bm) (_selected_button bm) None)
  | Some _ =>
      match _snap_to_grid bm mouse_position with
      | Raised e => (Raised e, bm)
      | Returned grid_position =>
          let can_place := _can_place bm grid_position occupied_tiles money in
          let color := if can_place then PREVIEW_OK_COLOR else PREVIEW_FORBIDDEN_COLOR in
          let pixel_position :=
            (fst grid_position * tile_size bm, snd grid_position * tile_size bm) in
          let pv := mkBuildPreview grid_position pixel_position color can_place in
          (Returned (Some pv),
           mkBuildManager (tile_size bm) (blocked_tiles bm) (_selected_button bm) (Some pv))
      end
  end.

(** [confirm_build] mutates both the manager and the caller's
    [occupied_tiles] set; both are threaded through. *)
Definition confirm_build (bm : BuildManager) (occupied_tiles : gset GridPosition)
    (money : Z) : option TowerButton * BuildManager * gset GridPosition :=
  match preview bm, _selected_button bm with
  | None, _ | _, None => (None, bm, occupied_tiles)
  | Some pv, Some button =>
      if negb (can_build pv) then (None, bm, occupied_tiles)
      else if money <? cost button then (None, bm, occupied_tiles)
      else (Some button, cancel bm, {[ grid_position pv ]} ∪ occupied_tiles)
  end.

(** The success condition of [confirm_build], stated on its own: a button
    is selected, a preview exists with [can_build] set, and the money
    covers the cost. *)
Definition can_confirm (bm : BuildManager) (money : Z) : Prop :=
  ∃ button pv,
    _selected_button bm = Some button ∧ preview bm = Some pv
    ∧ can_build pv = true ∧ cost button ≤ money.

End Build.

(** ** tds/models.py and tds/game.py *)

Module WaveBlueprint.
Record t (F : Type) : Type := mk {
  wave : Z;
  enemy_type : string;
  count : Z;
  base_health : F;
  base_speed : F;
  special : option string;
}.
Arguments mk {F}.
Arguments wave {F}.
Arguments enemy_type {F}.
Arguments count {F}.
Arguments base_health {F}.
Arguments base_speed {F}.
Arguments special {F}.
End WaveBlueprint.

Module WaveConfig.
Record t (F : Type) : Type := mk {
  wave : Z;
  enemy_type : string;
  count : Z;
  health : F;
  speed : F;
  special : option string;
  difficulty_tags : list string;
}.
Arguments mk {F}.
Arguments wave {F}.
Arguments enemy_type {F}.
Arguments count {F}.
Arguments health {F}.
Arguments speed {F}.
Arguments special {F}.
Arguments difficulty_tags {F}.
End WaveConfig.

Module Scaler.
Section Game.
Context {F : Type} `{Arith F} `{FloatErrors F}.

Record DifficultyCurve : Type := mkDifficultyCurve {
  health_growth : F;
  speed_growth : F;
  count_growth : F;
  special_frequency : Z;
  extra_specials : list string;
}.

(** [DifficultyCurve()] with the dataclass defaults. *)
Definition default_curve : DifficultyCurve :=
  {| health_growth := lit 22 100;
     speed_growth := lit 5 100;
     count_growth := lit 8 100;
     special_frequency := 3;
     extra_specials := ["élite"; "acorazado"; "etéreo"] |}.

(** [(1 + growth) ** (wave_index - 1)]; the power raises when it
    overflows. *)
Definition health_multiplier (c : DifficultyCurve) (wave_index : Z) : outcome F :=
  float_pow (add one (health_growth c)) (wave_index - 1).

Definition speed_multiplier (c : DifficultyCurve) (wave_index : Z) : outcome F :=
  float_pow (add one (speed_growth c)) (wave_index - 1).

Definition count_multiplier (c : DifficultyCurve) (wave_index : Z) : outcome F :=
  float_pow (add one (count_growth c)) (wave_index - 1).

Definition pick_special (c : DifficultyCurve) (wave_index : Z) : outcome string :=
  q ← floordiv wave_index (special_frequency c);
  let idx := q - 1 in
  i ← pymod idx (Z.of_nat (length (extra_specials c)));
  getitem (extra_specials c) i.

(** Truth value of an [Optional[str]]: [None] and [""] are false. *)
Definition truthy (s : option string) : bool :=
  match s with
  | None => false
  | Some s => negb (String.eqb s "")
  end.

(** [f"+vida {int((health_multiplier - 1) * 100)}%"]; [int] raises on an
    infinity or a NaN. *)
Definition health_tag (health_multiplier : F) : outcome string :=
  percent ← int_of_float (mul (sub health_multiplier one) (of_int 100));
  Returned ("+vida " +:+ pretty percent +:+ "%").

Definition speed_tag (speed_multiplier : F) : outcome string :=
  percent ← int_of_float (mul (sub speed_multiplier one) (of_int 100));
  Returned ("+velocidad " +:+ pretty percent +:+ "%").

Definition count_tag (extra : Z) : string := "+cantidad " +:+ pretty extra.

Definition special_tag (special : string) : string := "especial " +:+ special.

(** The three stat tags, appended in source order. *)
Definition stat_tags (health_multiplier speed_multiplier : F) (scaled_count count : Z)
  : outcome (list string) :=
  let tags := [] in
  tags ← (if ltb one health_multiplier
          then tag ← health_tag health_multiplier; Returned (tags ++ [tag])
          else Returned tags);
  tags ← (if ltb one speed_multiplier
          then tag ← speed_tag speed_multiplier; Returned (tags ++ [tag])
          else Returned tags);
  let tags := if count <? scaled_count
              then tags ++ [count_tag (scaled_count - count)] else tags in
  Returned tags.

(** The arithmetic of the loop body of [apply_difficulty], up to the
    stat tags: scaled health, scaled speed, scaled count and the tags. *)
Definition scale_stats (curve : DifficultyCurve) (bp : WaveBlueprint.t F)
  : outcome (F * F * Z * list string) :=
  health_multiplier ← health_multiplier curve (WaveBlueprint.wave bp);
  speed_multiplier ← speed_multiplier curve (WaveBlueprint.wave bp);
  count_multiplier ← count_multiplier curve (WaveBlueprint.wave bp);
  let scaled_health := round2 (mul (WaveBlueprint.base_health bp) health_multiplier) in
  let scaled_speed := round2 (mul (WaveBlueprint.base_speed bp) speed_multiplier) in
  count ← float_of_int (WaveBlueprint.count bp);
  ceiling ← math_ceil (mul count count_multiplier);
  let scaled_count := Z.max 1 ceiling in
  tags ← stat_tags health_multiplier speed_multiplier scaled_count
           (WaveBlueprint.count bp);
  Returned (scaled_health, scaled_speed, scaled_count, tags).

(** The body of the [for bp in sorted(...)] loop of [apply_difficulty]. *)
Definition scale_blueprint (curve : DifficultyCurve) (bp : WaveBlueprint.t F)
  : outcome (WaveConfig.t F) :=
  '(scaled_health, scaled_speed, scaled_count, tags) ← scale_stats curve bp;
  let special := WaveBlueprint.special bp in
  due ← (if negb (truthy special)
            && (special_frequency curve <=? WaveBlueprint.wave bp)
         then r ← pymod (WaveBlueprint.wave bp) (special_frequency curve);
              Returned (r =? 0)
         else Returned false);
  '(special, tags) ←
    (if due : bool then
       s ← pick_special curve (WaveBlueprint.wave bp);
       Returned (Some s, tags ++ [special_tag s])
     else if truthy special then
       Returned (special, tags ++ [special_tag (default "" special)])
     else Returned (special, tags));
  Returned
    (WaveConfig.mk (WaveBlueprint.wave bp) (WaveBlueprint.enemy_type bp)
       scaled_count scaled_health scaled_speed special tags).

(** [sorted(blueprints, key=lambda item: item.wave)], stable. *)
Fixpoint insert_by_wave (x : WaveBlueprint.t F) (l : list (WaveBlueprint.t F))
  : list (WaveBlueprint.t F) :=
  match l with
  | [] => [x]
  | y :: l' =>
      if WaveBlueprint.wave y <? WaveBlueprint.wave x
      then y :: insert_by_wave x l' else x :: y :: l'
  end.

Definition sorted_by_wave (l : list (WaveBlueprint.t F)) : list (WaveBlueprint.t F) :=
  foldr insert_by_wave [] l.

Fixpoint scale_all (curve : DifficultyCurve) (l : list (WaveBlueprint.t F))
  : outcome (list (WaveConfig.t F)) :=
  match l with
  | [] => Returned []
  | bp :: l' =>
      cfg ← scale_blueprint curve bp;
      waves ← scale_all curve l';
      Returned (cfg :: waves)
  end.

Definition apply_difficulty (blueprints : list (WaveBlueprint.t F))
    (curve : option DifficultyCurve) : outcome (list (WaveConfig.t F)) :=
  let curve := default default_curve curve in
  scale_all curve (sorted_by_wave blueprints).

(** The cadence condition: [wave >= special_frequency] and
    [wave % special_frequency == 0]. *)
Definition special_due (curve : DifficultyCurve) (wave : Z) : bool :=
  (special_frequency curve <=? wave) && (wave `mod` special_frequency curve =? 0).

(** A tag announces a special enemy when it starts with ["especial "]. *)
Definition is_special_tag (tag : string) : bool := String.prefix "especial " tag.

End Game.
Arguments DifficultyCurve : clear implicits.
End Scaler.

(** ** Arithmetic laws used by the proofs

    Each class lists the facts about float arithmetic that one component's
    proofs rely on.  They hold of exact arithmetic; binary64 satisfies the
    order laws on numbers other than NaN.  Facts that binary64 does not
    have (a product of positive numbers may underflow to zero, a clock may
    be too large for a subtraction to change it) are no laws: the theorems
    that need them state them of their inputs. *)

(** The spawn times are compared with [<] (by [sorted]) and [<=] (by
    [update]); both must describe one total preorder. *)
Class TimeOrder (F : Type) `{Arith F} : Prop := {
  leb_trans : ∀ a b c : F, leb a b = true → leb b c = true → leb a c = true;
  leb_total : ∀ a b : F, leb a b = false → leb b a = true;
  ltb_leb : ∀ a b : F, ltb a b = negb (leb b a);
}.

(** What the movement code needs of zero, of the order and of the
    literal [0.1]; every law holds of binary64, at every value. *)
Class MotionLaws (F : Type) `{Arith F} `{FloatErrors F} : Prop := {
  sub_zero_r : ∀ x : F, sub x zero = x;
  add_zero_zero : add zero zero = (zero : F);
  sqr_zero : pow_int (zero : F) 2 = zero;
  sqr_zero_returns : pow_int_raises (zero : F) 2 = None;
  pow_half_zero : pow_half (zero : F) = zero;
  mul_zero_not_pos : ∀ x : F, ltb zero (mul x zero) = false;
  ltb_irrefl : ∀ x : F, ltb x x = false;
  ltb_le_incl : ∀ x y : F, ltb x y = true → leb x y = true;
  ltb_not_leb : ∀ x y : F, ltb x y = true → leb y x = false;
  tenth_pos : ltb (zero : F) (lit 1 10) = true;
}.

(** Monotonicity of the operations the Scaler composes, on the values
    they take when they do not raise. *)
Class ScalingLaws (F : Type) `{Arith F} : Prop := {
  one_le_add : ∀ g : F, leb zero g = true → leb one (add one g) = true;
  pow_int_ge_one : ∀ (b : F) (n : Z),
    leb one b = true → 0 ≤ n → leb one (pow_int b n) = true;
  pow_int_mono : ∀ (b : F) (m n : Z),
    leb one b = true → 0 ≤ m → m ≤ n → leb (pow_int b m) (pow_int b n) = true;
  mul_mono_r : ∀ a x y : F,
    ltb zero a = true → leb one x = true → leb x y = true →
    leb (mul a x) (mul a y) = true;
  round2_mono : ∀ x y : F, leb x y = true → leb (round2 x) (round2 y) = true;
  ceil_mono : ∀ x y : F, leb x y = true → ceil x ≤ ceil y;
  of_int_pos : ∀ n : Z, 0 < n → ltb (zero : F) (of_int n) = true;
}.

(** ** Exact rational arithmetic *)

Module Exact.

(** Round to the nearest integer, ties to even (Python's [round]). *)
Definition round_half_even (q : Q) : Z :=
  let f := Qfloor q in
  match Qcompare (Qminus q (inject_Z f)) (1 # 2) with
  | Lt => f
  | Gt => f + 1
  | Eq => if Z.even f then f else f + 1
  end.

(** Square root rounded down to a multiple of [1 / Qden q]; exact on the
    squares of rationals written in lowest terms. *)
Definition Qsqrt_floor (q : Q) : Q :=
  Qmake (Z.sqrt (Qnum q * Zpos (Qden q))) (Qden q).

Definition Qtrunc (q : Q) : Z := Z.quot (Qnum q) (Zpos (Qden q)).

Global Instance Qc_arith : Arith Qc := {|
  zero := Q2Qc 0;
  one := Q2Qc 1;
  of_int := fun n => Q2Qc (inject_Z n);
  add := Qcplus;
  sub := Qcminus;
  mul := Qcmult;
  div := Qcdiv;
  pow_int := fun x n => Q2Qc (Qpower (this x) n);
  pow_half := fun x => Q2Qc (Qsqrt_floor (this x));
  leb := fun x y => Qle_bool (this x) (this y);
  ltb := fun x y => negb (Qle_bool (this y) (this x));
  eqb := fun x y => Qeq_bool (this x) (this y);
  ceil := fun x => Qceiling (this x);
  trunc := fun x => Qtrunc (this x);
  round2 := fun x => Q2Qc (Qmake (round_half_even (Qmult (this x) (inject_Z 100))) 100);
|}.

(** Exact rationals do not overflow and have neither infinities nor NaN:
    only [0 ** n] with [n < 0] raises. *)
Global Instance Qc_errors : FloatErrors Qc := {|
  pow_int_raises := fun x n =>
    if Qeq_bool (this x) 0 && (n <? 0) then Some ZeroDivisionError else None;
  ceil_raises := fun _ => None;
  trunc_raises := fun _ => None;
  of_int_raises := fun _ => None;
|}.

(** Following the spec's words for the health tag: the percentage is
    [round((healthMul - 1) * 100)]. *)
Definition rounded_health_tag (health_multiplier : Qc) : string :=
  "+vida "
  +:+ pretty (round_half_even (this (mul (sub health_multiplier one) (of_int 100))))
  +:+ "%".

(** Concrete inputs used to exercise the theorems. *)

(** A spawn callback that records the enemy types it is called with. *)
Definition record_spawn (enemy_type : string) (log : list string) : list string :=
  log ++ [enemy_type].

Definition demo_waves : list (list (string * Qc)) :=
  [[("brute", of_int 2); ("grunt", of_int 1); ("scout", of_int 1)]].

(** The manager right after its first [start_next_wave]. *)
Definition demo_manager : Waves.WaveManager :=
  snd (Waves.start_next_wave (Waves.init demo_waves false)).

Definition demo_snapshot : Waves.Snapshot :=
  Waves.mkSnapshot (F:=Qc) (Some 5) (Some false) (Some []) (Some zero).

(** A curve whose health grows by 1/64 per wave, and a wave-2 blueprint. *)
Definition demo_curve : Scaler.DifficultyCurve Qc :=
  Scaler.mkDifficultyCurve (lit 1 64) zero zero 3 ["jefe"].

Definition demo_blueprint (wave : Z) : WaveBlueprint.t Qc :=
  WaveBlueprint.mk wave "grunt" 5 (of_int 100) (of_int 60) None.

(** A target that logs the damage it takes. *)
Record LoggedTarget : Type := mkLoggedTarget {
  logged_position : Qc * Qc;
  logged_alive : bool;
  logged_hits : list Qc;
}.

Global Instance LoggedTarget_target : Towers.TargetLike Qc LoggedTarget := {|
  Towers.target_position := logged_position;
  Towers.target_is_alive := logged_alive;
  Towers.target_take_damage := fun amount t =>
    mkLoggedTarget (logged_position t) (logged_alive t) (logged_hits t ++ [amount]);
|}.

Definition demo_projectile : Towers.Projectile :=
  Towers.mkProjectile (of_int 0, of_int 0) (of_int 10) (of_int 7) false.

Definition demo_button : Build.TowerButton :=
  Build.mkTowerButton "arrow" 50 (0, 0) (64, 32).

(** A manager in the middle of a build, previewing cell (2, 3). *)
Definition demo_build : Build.BuildManager :=
  snd (Build.update_preview
         (snd (Build.begin_build (Build.init 32 None) demo_button 80))
         (70, 100) ∅ 80).

End Exact.

(** * Properties *)

Section GetItem.
Context {A : Type}.

Lemma getitem_in_range (l : list A) (i : Z) :
  0 ≤ i < Z.of_nat (length l) →
  ∃ x, getitem l i = Returned x ∧ l !! Z.to_nat i = Some x.
Proof.
  intros Hi. unfold getitem.
  destruct (Z.ltb_spec i 0) as [?|_]; [lia|].
  destruct (Z.ltb_spec i 0) as [?|_]; [lia|].
  destruct (Z.leb_spec (Z.of_nat (length l)) i) as [?|_]; [lia|]. simpl.
  destruct (lookup_lt_is_Some_2 l (Z.to_nat i)) as [x Hx]; [lia|].
  exists x. by rewrite Hx.
Qed.

End GetItem.

Section FilterBool.
Context {A : Type} (P : A → bool).

Lemma filter_bool_none (l : list A) :
  Forall (fun x => P x = false) l → filter P l = [].
Proof.
  induction 1 as [|x l Hx _ IH]; [done|].
  rewrite filter_cons_False; [done|]. rewrite Hx. exact id.
Qed.

Lemma filter_bool_all (l : list A) :
  Forall (fun x => P x = true) l → filter P l = l.
Proof.
  induction 1 as [|x l Hx _ IH]; [done|].
  rewrite filter_cons_True; [by rewrite IH|]. by apply Is_true_true.
Qed.

End FilterBool.

(** ** The wave scheduler *)

Module WavesFacts.
Import Waves.
Section Facts.
Context {F : Type} `{TimeOrder F}.
Context {World : Type} (spawn_callback : string → World → World).

Lemma insert_by_time_ascending (x : EnemySpawn) (l : list EnemySpawn) :
  ascending l → ascending (insert_by_time x l).
Proof using Type*.
  unfold ascending. induction 1 as [|y l Hl IH Hy]; simpl.
  - repeat constructor.
  - destruct (ltb (snd y) (snd x)) eqn:Hlt.
    + assert (Hyx : leb (snd y) (snd x) = true).
      { rewrite ltb_leb in Hlt. apply leb_total.
        by destruct (leb (snd x) (snd y)). }
      constructor; [done|].
      clear IH Hl Hlt. induction l as [|z l IHl]; simpl.
      * by constructor.
      * inversion Hy; subst.
        destruct (ltb (snd z) (snd x)); repeat constructor; auto.
    + assert (Hxy : leb (snd x) (snd y) = true).
      { rewrite ltb_leb in Hlt. by destruct (leb (snd x) (snd y)). }
      constructor; [by constructor|].
      constructor; [done|].
      eapply Forall_impl; [exact Hy|].
      intros z Hz. simpl in *. eapply leb_trans; eauto.
Qed.

Lemma sorted_by_time_ascending (wave : WaveDefinition) :
  ascending (sorted_by_time wave).
Proof using Type*.
  induction wave as [|x wave IH]; simpl.
  - constructor.
  - by apply insert_by_time_ascending.
Qed.

(** [sorted] is stable: spawns with the same time keep their order. *)
Lemma insert_by_time_stable (t : F) (x : EnemySpawn) (l : list EnemySpawn) :
  filter (same_time t) (insert_by_time x l) = filter (same_time t) (x :: l).
Proof using Type*.
  induction l as [|y l IH]; simpl; [done|].
  destruct (ltb (snd y) (snd x)) eqn:Hlt; [|done].
  rewrite (filter_cons _ y), IH, !filter_cons.
  destruct (decide (same_time t y)) as [Hy|Hy];
    destruct (decide (same_time t x)) as [Hx|Hx]; try done.
  exfalso. unfold same_time in Hx, Hy.
  apply andb_prop_elim in Hx as [Hx1 Hx2], Hy as [Hy1 Hy2].
  apply Is_true_eq_true in Hx1, Hx2, Hy1, Hy2.
  rewrite ltb_leb in Hlt.
  rewrite (leb_trans _ _ _ Hx2 Hy1) in Hlt. done.
Qed.

Lemma sorted_by_time_stable (t : F) (wave : WaveDefinition) :
  filter (same_time t) (sorted_by_time wave) = filter (same_time t) wave.
Proof using Type*.
  induction wave as [|x wave IH]; simpl; [done|].
  by rewrite insert_by_time_stable, !filter_cons, IH.
Qed.

(** On a queue in ascending order the pop-while-due loop fires exactly
    the due spawns and keeps exactly the others. *)
Lemma fire_due_ascending (now : F) (queue : list EnemySpawn) (w : World) :
  ascending queue →
  fire_due spawn_callback now queue w =
    (filter (fun s => negb (due now s)) queue,
     fire_all spawn_callback (filter (due now) queue) w)
  ∧ queue = filter (due now) queue ++ filter (fun s => negb (due now s)) queue.
Proof using Type*.
  unfold ascending. intros Hq. revert w.
  induction Hq as [|s queue Hq IH Hs]; intros w; simpl; [done|].
  rewrite !filter_cons. change (leb (snd s) now) with (due now s).
  destruct (due now s) eqn:Hdue; simpl.
  - destruct (IH (spawn_callback (fst s) w)) as [-> Heq].
    split; [done|]. by rewrite <-Heq.
  - assert (Hnone : Forall (fun s' => due now s' = false) queue).
    { eapply Forall_impl; [exact Hs|]. intros s' Hle. unfold due.
      destruct (leb (snd s') now) eqn:Hs'; [|done].
      unfold due in Hdue. by rewrite (leb_trans _ _ _ Hle Hs') in Hdue. }
    rewrite (filter_bool_none (due now) queue Hnone).
    rewrite (filter_bool_all (fun s => negb (due now s)) queue); [done|].
    eapply Forall_impl; [exact Hnone|]. by intros s' ->.
Qed.

Lemma ascending_app_r (l1 l2 : list EnemySpawn) :
  ascending (l1 ++ l2) → ascending l2.
Proof.
  unfold ascending. induction l1 as [|x l1 IH]; simpl; [done|].
  inversion 1; auto.
Qed.

Lemma ascending_filter (P : EnemySpawn → bool) (l : list EnemySpawn) :
  ascending l → ascending (filter P l).
Proof.
  unfold ascending. induction 1 as [|x l Hl IH Hx]; [constructor|].
  rewrite filter_cons. destruct (decide (P x)); [|done].
  constructor; [done|]. apply Forall_forall.
  intros y [_ Hy]%list_elem_of_filter. revert y Hy. by apply Forall_forall.
Qed.

Lemma start_at_invariant (waves : list WaveDefinition) (m : WaveManager) (i : Z) :
  _waves m = map sorted_by_time waves →
  0 ≤ i < total_waves m →
  invariant waves (snd (start_at m i)).
Proof.
  intros Hw Hi. unfold start_at.
  destruct (getitem_in_range (_waves m) i Hi) as (wave & -> & Hwave). simpl.
  refine (conj Hw (conj _ _)); simpl; [unfold total_waves in *; simpl; lia|].
  intros st [= <-]. simpl. split; [lia|].
  rewrite Hw, list_lookup_fmap in Hwave.
  destruct (waves !! Z.to_nat i) as [wave0|] eqn:Hwave0; [|done].
  injection Hwave as <-. by exists wave0, [].
Qed.

Lemma reachable_invariant (waves : list WaveDefinition) (loop_waves : bool)
    (m : WaveManager) :
  reachable spawn_callback waves loop_waves m → invariant waves m.
Proof using Type*.
  induction 1 as [|m _ IH|m dt w _ IH|m _ IH|m m' _ IH _ IH'].
  - refine (conj eq_refl (conj _ _)); simpl; [|done].
    unfold total_waves; simpl; lia.
  - destruct IH as (Hw & Hi & Hst). unfold start_next_wave.
    destruct (_state m) as [st|] eqn:Hm; [by rewrite <-Hm in Hst|].
    simpl. destruct (Z.leb_spec (total_waves m) (_current_index m + 1)).
    + destruct (_loop_waves m); simpl; [|by rewrite <-Hm in Hst].
      case_bool_decide as Hnil; simpl; [by rewrite <-Hm in Hst|].
      apply start_at_invariant; [done|].
      unfold total_waves. destruct (_waves m); [done|]. simpl. lia.
    + apply start_at_invariant; [done|lia].
  - destruct IH as (Hw & Hi & Hst). unfold update.
    destruct (_state m) as [st|] eqn:Hm; [|by rewrite <-Hm in Hst].
    destruct (Hst st eq_refl) as (Hidx & wave & pre & Hwave & Hsorted).
    assert (Hq : ascending (spawns st)).
    { eapply ascending_app_r. rewrite <-Hsorted.
      apply sorted_by_time_ascending. }
    destruct (fire_due_ascending (add (elapsed st) dt) (spawns st) w Hq)
      as [-> Hsplit]. simpl.
    refine (conj Hw (conj Hi _)). simpl.
    intros st'.
    destruct (filter (fun s => negb (due (add (elapsed st) dt) s)) (spawns st))
      as [|s q] eqn:Hkept; [done|].
    intros [= <-]. simpl. split; [done|].
    exists wave, (pre ++ filter (due (add (elapsed st) dt)) (spawns st)).
    split; [done|]. by rewrite <-(assoc (++)), <-Hsplit.
  - destruct IH as (Hw & Hi & Hst).
    refine (conj Hw (conj _ _)); simpl; [|done].
    unfold total_waves in *; simpl; lia.
  - destruct IH as (Hw & Hi & Hst), IH' as (Hw' & Hi' & Hst').
    assert (Htotal : total_waves m = total_waves m').
    { unfold total_waves. by rewrite Hw, Hw'. }
    unfold load_progress, serialize_progress, wave_in_progress. simpl.
    rewrite Htotal.
    destruct (Z.ltb_spec (_current_index m') (-1)); [lia|].
    destruct (Z.leb_spec (total_waves m') (_current_index m')); [lia|]. simpl.
    refine (conj Hw (conj _ _)); simpl; [unfold total_waves in *; simpl; lia|].
    destruct (_state m') as [st'|] eqn:Hm'; simpl; [|done].
    destruct (Hst' st' eq_refl) as (Hidx' & Hwave').
    destruct (Z.leb_spec 0 (_current_index m')); [|lia].
    destruct (Z.ltb_spec (_current_index m') (total_waves m')); [|lia]. simpl.
    by intros st [= <-].
Qed.

(** C1.  For a manager reached through the public API, [update(dt)] with
    no active wave is a no-op.  With an active wave it adds [dt] to
    [elapsed] and then calls the spawn callback, with the enemy type
    alone, for exactly the queued spawns whose time is [<=] the new
    [elapsed] ([fired]); they are fired in ascending time order, spawns
    with equal times in the order of the wave definition passed to the
    constructor; the other spawns ([kept]) stay queued, and when none is
    left the runtime state is cleared by the same call. *)
Theorem update_fires_due_spawns (waves : list WaveDefinition) (loop_waves : bool)
    (m : WaveManager) (dt : F) (w : World) :
  reachable spawn_callback waves loop_waves m →
  match _state m with
  | None => update spawn_callback dt m w = (m, w)
  | Some st =>
      let now := add (elapsed st) dt in
      let fired := filter (due now) (spawns st) in
      let kept := filter (fun s => negb (due now s)) (spawns st) in
      update spawn_callback dt m w =
        (mkWaveManager (_waves m) (_loop_waves m) (_current_index m)
           (match kept with
            | [] => None
            | _ :: _ => Some (mkWaveState kept now)
            end),
         foldl (fun w enemy_type => spawn_callback enemy_type w) w (map fst fired))
      ∧ spawns st = fired ++ kept
      ∧ ascending fired
      ∧ ∃ wave pre,
          waves !! Z.to_nat (_current_index m) = Some wave
          ∧ ∀ t, filter (same_time t) wave =
                 filter (same_time t) pre ++ filter (same_time t) fired
                 ++ filter (same_time t) kept
  end.
Proof using Type*.
  intros Hreach. apply reachable_invariant in Hreach as (Hw & Hi & Hst).
  unfold update. destruct (_state m) as [st|] eqn:Hm; [|done].
  destruct (Hst st eq_refl) as (Hidx & wave & pre & Hwave & Hsorted).
  assert (Hq : ascending (spawns st)).
  { eapply ascending_app_r. rewrite <-Hsorted. apply sorted_by_time_ascending. }
  destruct (fire_due_ascending (add (elapsed st) dt) (spawns st) w Hq)
    as [-> Hsplit].
  cbv zeta. split; [|split; [done|split]].
  - f_equal. unfold fire_all. generalize (filter (due (add (elapsed st) dt)) (spawns st)).
    intros l. revert w. induction l as [|s l IH]; intros w; simpl; [done|]. apply IH.
  - by apply ascending_filter.
  - exists wave, pre. split; [done|]. intros t.
    etrans; [symmetry; apply sorted_by_time_stable|].
    rewrite Hsorted, filter_app. f_equal.
    by rewrite <-filter_app, <-Hsplit.
Qed.

(** C7.  For a snapshot that carries an integer wave index,
    [load_progress] raises [ValueError] iff the index lies outside
    [-1 .. total_waves - 1]; when it raises, the manager is unchanged. *)
Theorem load_progress_rejects_out_of_range (m : WaveManager) (data : Snapshot)
    (index : Z) :
  current_index data = Some index →
  (fst (load_progress m data) = Raised ValueError
   ↔ ¬ (-1 ≤ index ≤ total_waves m - 1))
  ∧ (fst (load_progress m data) = Raised ValueError → snd (load_progress m data) = m)
  ∧ (-1 ≤ index ≤ total_waves m - 1 →
     fst (load_progress m data) = Returned ()
     ∧ _current_index (snd (load_progress m data)) = index).
Proof.
  intros Hidx. unfold load_progress. rewrite Hidx. simpl.
  destruct (Z.ltb_spec index (-1)), (Z.leb_spec (total_waves m) index); simpl;
    repeat split; try done; try lia; intros; lia.
Qed.

(** C10.  For every state reachable through construction,
    [start_next_wave], [update] and [reset], loading the snapshot that
    [serialize_progress] produces succeeds and restores the very same
    state: index, wave-in-progress flag, remaining queue and elapsed. *)
Theorem load_serialize_roundtrip (waves : list WaveDefinition) (loop_waves : bool)
    (m : WaveManager) :
  reachable spawn_callback waves loop_waves m →
  load_progress m (serialize_progress m) = (Returned (), m)
  ∧ serialize_progress (snd (load_progress m (serialize_progress m)))
    = serialize_progress m.
Proof using Type*.
  intros Hreach. apply reachable_invariant in Hreach as (Hw & Hi & Hst).
  assert (Hload : load_progress m (serialize_progress m) = (Returned (), m)).
  { unfold load_progress, serialize_progress, wave_in_progress. simpl.
    destruct (Z.ltb_spec (_current_index m) (-1)); [lia|].
    destruct (Z.leb_spec (total_waves m) (_current_index m)); [lia|]. simpl.
    destruct m as [ws lp idx [[q e]|]]; simpl in *; [|done].
    destruct (Hst _ eq_refl) as [Hidx _].
    destruct (Z.leb_spec 0 idx); [|lia].
    destruct (Z.ltb_spec idx (total_waves (mkWaveManager ws lp idx (Some (mkWaveState q e)))));
      [done|]. unfold total_waves in *; simpl in *; lia. }
  by rewrite Hload.
Qed.

End Facts.
End WavesFacts.

(** ** Enemy movement *)

Module EnemiesFacts.
Import Enemies.
Section Facts.
Context {F : Type} `{MotionLaws F}.

(** An enemy standing on its target measures the distance zero, provided
    its coordinates are finite. *)
Lemma distance_self (x y : F) :
  finite x → finite y → distance (sub x x) (sub y y) = Returned zero.
Proof using Type*.
  unfold finite, distance, float_pow. intros -> ->.
  rewrite sqr_zero_returns. simpl.
  by rewrite sqr_zero, add_zero_zero, pow_half_zero.
Qed.

Lemma lose_life_decrements (p : Player) :
  0 < lives p → lives (lose_life p) = lives p - 1.
Proof.
  intros Hp. unfold lose_life.
  by destruct (Z.ltb_spec 0 (lives p)); [|lia].
Qed.

(** The animation loop exits once the clock is below [frame_time]. *)
Lemma animation_loop_terminates (n : nat) (a : AnimationState) :
  leb (frame_time a) (Nat.iter n (fun z => sub z (frame_time a)) (current_time a)) = false →
  ∀ fuel, (n < fuel)%nat →
    ∃ a', animation_loop fuel a = Some a' ∧ frames a' = frames a.
Proof.
  revert a. induction n as [|n IH]; intros a Hn fuel Hfuel;
    (destruct fuel as [|fuel]; [lia|]); simpl.
  - simpl in Hn. rewrite Hn. by exists a.
  - destruct (leb (frame_time a) (current_time a)) eqn:Hle; [|by exists a].
    rewrite Nat.iter_succ_r in Hn.
    destruct (IH (mkAnimationState (frames a) (frame_time a)
                    (sub (current_time a) (frame_time a))
                    ((current_frame_index a + 1) `mod` Z.of_nat (length (frames a))))
                 Hn fuel) as (a' & Ha' & Hfr); [lia|].
    by exists a'.
Qed.

Lemma AnimationState_update_terminates (dt : F) (a : AnimationState) :
  clock_runs_down dt a →
  ∃ fuel0, ∀ fuel, (fuel0 ≤ fuel)%nat →
    ∃ a', AnimationState_update fuel dt a = Some a'.
Proof.
  intros Hclock. unfold AnimationState_update.
  destruct (frames a) as [|f fs] eqn:Hfr; [by exists O; intros; exists a|].
  destruct Hclock as [Hnone|[n Hn]]; [congruence|].
  exists (S n). intros fuel Hfuel.
  destruct (animation_loop_terminates n
              (mkAnimationState (f :: fs) (frame_time a)
                 (add (current_time a) dt) (current_frame_index a))
              Hn fuel) as (a' & Ha' & _); [lia|].
  by exists a'.
Qed.

(** With [dt = 0] on a fresh clock the animation does not advance. *)
Lemma AnimationState_update_zero (fuel : nat) (frames : list string) :
  (1 ≤ fuel)%nat →
  AnimationState_update fuel zero (mkAnimationState frames (lit 1 10) zero 0)
  = Some (mkAnimationState frames (lit 1 10) zero 0).
Proof using Type*.
  intros Hfuel. unfold AnimationState_update. simpl.
  destruct frames as [|f fs]; [done|].
  destruct fuel as [|fuel]; [lia|]. simpl.
  by rewrite add_zero_zero, (ltb_not_leb _ _ tenth_pos).
Qed.

(** Without a positive travel budget the movement loop is not entered. *)
Lemma move_loop_skipped (fuel : nat) (remaining : F) (e : BaseEnemy)
    (player : option Player) :
  ltb zero remaining = false →
  move_loop (S fuel) remaining e player = Some (Returned (e, player)).
Proof. intros Hrem. simpl. by rewrite Hrem. Qed.

(** One pass of the loop body on an enemy standing on its target
    waypoint: the waypoint is taken whatever the tolerance is, at no
    cost. *)
Lemma move_loop_on_waypoint (fuel : nat) (remaining : F) (e : BaseEnemy)
    (player : option Player) :
  ltb zero remaining = true →
  reached_goal e = false →
  target_waypoint e = Returned (position e) →
  finite (fst (position e)) → finite (snd (position e)) →
  move_loop (S fuel) remaining e player =
    if at_last_waypoint e then Some (Returned (_on_goal_reached e player))
    else move_loop fuel remaining
           (with_waypoint_index (_waypoint_index e + 1) e) player.
Proof using Type*.
  intros Hrem Hgoal Htarget Hx Hy.
  simpl. rewrite Hrem, Hgoal, Htarget. simpl.
  destruct e as [wps idx [x y] sp hp al tol an rg]. simpl in *.
  rewrite distance_self by done.
  unfold with_position, at_last_waypoint, with_waypoint_index. simpl.
  destruct (leb zero tol); [done|].
  by rewrite (ltb_le_incl _ _ Hrem), sub_zero_r.
Qed.


(** C9, as the code has it.  An enemy built on a single waypoint of
    finite coordinates, and a [dt] for which the animation clock runs
    down.  When the travel budget [speed * dt] is positive, the first
    [update] returns with position and waypoint index unchanged and
    [reached_goal] set, and the supplied player has lost a life (exactly
    one when it had lives left).  When the budget is not positive (a speed
    of zero or less, [dt = 0], or a product that underflows) the
    enemy does not leak: position, index, goal flag and player are as
    before.  With [dt = 0] the first [update] changes nothing at all. *)
Theorem single_waypoint_leaks_on_first_update (wp : Vector) (speed : F)
    (health : Z) (frames : option (list string)) (tol dt : F)
    (player : option Player) (e : BaseEnemy) :
  init [wp] speed health frames tol = Returned e →
  finite (fst wp) → finite (snd wp) →
  (ltb zero (mul speed dt) = true → clock_runs_down dt (animation e) →
   ∃ fuel0, ∀ fuel, (fuel0 ≤ fuel)%nat →
     ∃ e', update fuel dt e player = Some (Returned (e', lose_life <$> player))
           ∧ position e' = position e
           ∧ _waypoint_index e' = _waypoint_index e
           ∧ reached_goal e' = true)
  ∧ (ltb zero (mul speed dt) = false → clock_runs_down dt (animation e) →
     ∃ fuel0, ∀ fuel, (fuel0 ≤ fuel)%nat →
       ∃ e', update fuel dt e player = Some (Returned (e', player))
             ∧ position e' = position e
             ∧ _waypoint_index e' = _waypoint_index e
             ∧ reached_goal e' = false)
  ∧ (∀ p : Player, 0 < lives p → lives (lose_life p) = lives p - 1)
  ∧ (∀ fuel, (1 ≤ fuel)%nat →
     update fuel zero e player = Some (Returned (e, player))).
Proof using Type*.
  intros [= <-] Hx Hy.
  split; [|split; [|split; [apply lose_life_decrements|]]].
  - intros Hbudget Hclock.
    destruct (AnimationState_update_terminates dt _ Hclock) as [fuel0 Hanim].
    exists (S fuel0). intros [|fuel] Hfuel; [lia|].
    destruct (Hanim (S fuel)) as [a Ha]; [lia|].
    unfold update. cbn [alive reached_goal animation Enemies.speed negb orb] in *.
    rewrite Ha, move_loop_on_waypoint by done.
    change (at_last_waypoint _) with true. cbv iota.
    eexists. split; [reflexivity|]. by repeat split.
  - intros Hbudget Hclock.
    destruct (AnimationState_update_terminates dt _ Hclock) as [fuel0 Hanim].
    exists (S fuel0). intros [|fuel] Hfuel; [lia|].
    destruct (Hanim (S fuel)) as [a Ha]; [lia|].
    unfold update. cbn [alive reached_goal animation Enemies.speed negb orb] in *.
    rewrite Ha, move_loop_skipped by done.
    eexists. split; [reflexivity|]. by repeat split.
  - intros [|fuel] Hfuel; [lia|]. unfold update.
    cbn [alive reached_goal animation Enemies.speed negb orb].
    rewrite AnimationState_update_zero by lia.
    rewrite move_loop_skipped; [done|apply mul_zero_not_pos].
Qed.


End Facts.
End EnemiesFacts.

(** ** Projectiles *)

Module TowersFacts.
Import Towers.
Section Facts.
Context {F : Type} `{Arith F} {T : Type} `{TargetLike F T}.

Lemma hit_target_dead (p : Projectile) (target : T) :
  target_is_alive target = false →
  _hit_target p target = (with_finished p, target).
Proof. intros Hdead. unfold _hit_target. by rewrite Hdead. Qed.

Lemma hit_target_alive (p : Projectile) (target : T) :
  target_is_alive target = true →
  _hit_target p target = (with_finished p, target_take_damage (damage p) target).
Proof. intros Hlive. unfold _hit_target. by rewrite Hlive. Qed.

Lemma update_arrives (dt : F) (p : Projectile) (target : T) :
  finished p = false →
  target_is_alive target = true →
  eqb (distance_to p target) zero = false →
  leb (distance_to p target) (mul (speed p) dt) = true →
  update dt p target = _hit_target (with_position (target_position target) p) target.
Proof.
  intros Hfin Hlive Hne Hle. unfold update, distance_to in *.
  rewrite Hfin, Hlive. simpl.
  destruct (target_position target) as [tx ty], (position p) as [x y].
  by rewrite Hne, Hle.
Qed.

(** C6.  [Projectile.update] on any target implementing the protocol:
    (1) a target that is dead when the update begins makes the projectile
    finished and is left untouched; (2) on arrival the update goes through
    [_hit_target], which tests liveness again and leaves a dead target
    untouched; (3) a finished projectile is a no-op; (4) in every case the
    target is either untouched or was alive and took the projectile's damage
    exactly once, the projectile ending finished. *)
Theorem update_never_damages_dead_target (dt : F) (p : Projectile) (target : T) :
  (finished p = false → target_is_alive target = false →
   update dt p target = (with_finished p, target))
  ∧ (finished p = false → target_is_alive target = true →
     eqb (distance_to p target) zero = false →
     leb (distance_to p target) (mul (speed p) dt) = true →
     update dt p target
     = _hit_target (with_position (target_position target) p) target)
  ∧ (∀ (q : Projectile) (t : T),
       target_is_alive t = false → _hit_target q t = (with_finished q, t))
  ∧ (finished p = true → update dt p target = (p, target))
  ∧ (snd (update dt p target) = target
     ∨ (target_is_alive target = true
        ∧ finished p = false
        ∧ snd (update dt p target) = target_take_damage (damage p) target
        ∧ finished (fst (update dt p target)) = true)).
Proof.
  split; [|split; [apply update_arrives|split; [apply hit_target_dead|split]]].
  - intros Hfin Hdead. unfold update. by rewrite Hfin, Hdead.
  - intros Hfin. unfold update. by rewrite Hfin.
  - unfold update.
    destruct (finished p) eqn:Hfin; [by left|].
    destruct (target_is_alive target) eqn:Hlive; [|by left]. simpl.
    destruct (target_position target) as [tx ty], (position p) as [x y].
    destruct (eqb _ zero).
    { right. by rewrite hit_target_alive. }
    destruct (leb _ (mul (speed p) dt)); [|by left].
    right. by rewrite hit_target_alive.
Qed.

End Facts.
End TowersFacts.

(** ** The build manager *)

Module BuildFacts.
Import Build.

Lemma can_confirm_dec (bm : BuildManager) (money : Z) :
  can_confirm bm money ∨ ¬ can_confirm bm money.
Proof.
  unfold can_confirm.
  destruct (_selected_button bm) as [button|] eqn:Hb; cycle 1.
  { right. intros (b & p & Hb' & Hp & Hc & Hm). simplify_eq. }
  destruct (preview bm) as [pv|] eqn:Hp; cycle 1.
  { right. intros (b & p & Hb' & Hp' & Hc & Hm). simplify_eq. }
  destruct (can_build pv) eqn:Hcan; cycle 1.
  { right. intros (b & p & Hb' & Hp' & Hc & Hm). simplify_eq. congruence. }
  destruct (Z.le_gt_cases (cost button) money) as [Hle|Hgt].
  - left. by exists button, pv.
  - right. intros (b & p & Hb' & Hp' & Hc & Hm). simplify_eq. lia.
Qed.

Lemma confirm_build_success (bm : BuildManager) (occupied_tiles : gset GridPosition)
    (money : Z) (button : TowerButton) (pv : BuildPreview) :
  _selected_button bm = Some button → preview bm = Some pv →
  can_build pv = true → cost button ≤ money →
  confirm_build bm occupied_tiles money
  = (Some button, cancel bm, {[ grid_position pv ]} ∪ occupied_tiles).
Proof.
  intros Hb Hp Hc Hm. unfold confirm_build. rewrite Hb, Hp, Hc. simpl.
  by destruct (Z.ltb_spec money (cost button)); [lia|].
Qed.

Lemma confirm_build_failure (bm : BuildManager) (occupied_tiles : gset GridPosition)
    (money : Z) :
  ¬ can_confirm bm money →
  confirm_build bm occupied_tiles money = (None, bm, occupied_tiles).
Proof.
  intros Hno. unfold confirm_build.
  destruct (preview bm) as [pv|] eqn:Hp; [|done].
  destruct (_selected_button bm) as [button|] eqn:Hb; [|done].
  destruct (can_build pv) eqn:Hc; [|done]. simpl.
  destruct (Z.ltb_spec money (cost button)); [done|].
  destruct Hno. by exists button, pv.
Qed.

(** C8.  [confirm_build] returns a button iff a button is selected, a
    preview exists with [can_build] set and [money >= cost].  In that case
    the button is the selected one, the returned set is the old one with
    exactly the previewed cell inserted, and the manager is idle, so that a
    second [confirm_build] returns [None].  Otherwise it returns [None]
    and leaves the set (and the manager) unchanged. *)
Theorem confirm_build_iff (bm : BuildManager) (occupied_tiles : gset GridPosition)
    (money : Z) :
  let '(result, bm', occupied') := confirm_build bm occupied_tiles money in
  (is_Some result ↔ can_confirm bm money)
  ∧ (can_confirm bm money →
     ∃ button pv,
       _selected_button bm = Some button ∧ preview bm = Some pv
       ∧ result = Some button
       ∧ occupied' = {[ grid_position pv ]} ∪ occupied_tiles
       ∧ (∀ cell, cell ∈ occupied' ↔ cell = grid_position pv ∨ cell ∈ occupied_tiles)
       ∧ _selected_button bm' = None ∧ preview bm' = None
       ∧ is_building bm' = false
       ∧ ∀ money', confirm_build bm' occupied' money' = (None, bm', occupied'))
  ∧ (¬ can_confirm bm money →
     result = None ∧ occupied' = occupied_tiles ∧ bm' = bm).
Proof.
  destruct (can_confirm_dec bm money) as [Hyes|Hno].
  - destruct Hyes as (button & pv & Hb & Hp & Hc & Hm).
    rewrite (confirm_build_success bm occupied_tiles money button pv) by done.
    assert (Hyes : can_confirm bm money) by by exists button, pv.
    split; [by split|]. split; [|done].
    intros _. exists button, pv.
    split; [done|]. split; [done|]. split; [done|]. split; [done|].
    split; [set_solver|]. by repeat split.
  - rewrite confirm_build_failure by done.
    split; [split; [by intros [? [=]]|done]|]. by split.
Qed.

End BuildFacts.

(** ** Difficulty scaling *)

Module ScalerFacts.
Import Scaler.
Section Facts.
Context {F : Type} `{Arith F} `{FloatErrors F}.

(** The stat tags of a loop body that got that far. *)
Lemma stat_tags_inv (hm sm : F) (scaled count : Z) (tags : list string) :
  stat_tags hm sm scaled count = Returned tags →
  tags =
    (if ltb one hm
     then ["+vida " +:+ pretty (trunc (mul (sub hm one) (of_int 100))) +:+ "%"]
     else [])
    ++ (if ltb one sm
        then ["+velocidad " +:+ pretty (trunc (mul (sub sm one) (of_int 100))) +:+ "%"]
        else [])
    ++ (if count <? scaled then [count_tag (scaled - count)] else []).
Proof.
  unfold stat_tags, health_tag, speed_tag, int_of_float, checked.
  destruct (ltb one hm), (ltb one sm), (count <? scaled);
    repeat match goal with
           | |- context [trunc_raises ?x] => destruct (trunc_raises x)
           end; simpl; try done; by intros [= <-].
Qed.

Lemma special_tag_is_special (s : string) : is_special_tag (special_tag s) = true.
Proof.
  unfold is_special_tag, special_tag. by destruct s.
Qed.

Lemma stat_tags_not_special (hm sm : F) (scaled count : Z) (tags : list string) :
  stat_tags hm sm scaled count = Returned tags →
  Forall (fun tag => is_special_tag tag = false) tags.
Proof.
  intros ->%stat_tags_inv.
  destruct (ltb one hm), (ltb one sm), (count <? scaled);
    repeat constructor.
Qed.

Lemma pick_special_in_range (curve : DifficultyCurve F) (wave : Z) :
  special_frequency curve ≠ 0 → extra_specials curve ≠ [] →
  ∃ s, pick_special curve wave = Returned s
       ∧ extra_specials curve
           !! Z.to_nat ((wave `div` special_frequency curve - 1)
                          `mod` Z.of_nat (length (extra_specials curve)))
         = Some s.
Proof.
  intros Hfreq Hextra. unfold pick_special, floordiv, pymod.
  destruct (Z.eqb_spec (special_frequency curve) 0) as [?|_]; [done|]. simpl.
  assert (Hlen : 0 < Z.of_nat (length (extra_specials curve))).
  { destruct (extra_specials curve); [done|]. simpl. lia. }
  destruct (Z.eqb_spec (Z.of_nat (length (extra_specials curve))) 0) as [?|_];
    [lia|]. simpl.
  apply getitem_in_range. by apply Z.mod_pos_bound.
Qed.

(** What the arithmetic of a loop body that returned is made of. *)
Lemma scale_stats_inv (curve : DifficultyCurve F) (bp : WaveBlueprint.t F)
    (h s : F) (n : Z) (tags : list string) :
  scale_stats curve bp = Returned (h, s, n, tags) →
  ∃ hm sm cm,
    health_multiplier curve (WaveBlueprint.wave bp) = Returned hm
    ∧ speed_multiplier curve (WaveBlueprint.wave bp) = Returned sm
    ∧ count_multiplier curve (WaveBlueprint.wave bp) = Returned cm
    ∧ h = round2 (mul (WaveBlueprint.base_health bp) hm)
    ∧ s = round2 (mul (WaveBlueprint.base_speed bp) sm)
    ∧ n = Z.max 1 (ceil (mul (of_int (WaveBlueprint.count bp)) cm))
    ∧ stat_tags hm sm n (WaveBlueprint.count bp) = Returned tags.
Proof.
  unfold scale_stats.
  destruct (health_multiplier curve _) as [hm|e]; simpl; [|done].
  destruct (speed_multiplier curve _) as [sm|e]; simpl; [|done].
  destruct (count_multiplier curve _) as [cm|e]; simpl; [|done].
  unfold float_of_int, math_ceil, checked.
  destruct (of_int_raises _); simpl; [done|].
  destruct (ceil_raises _); simpl; [done|].
  destruct (stat_tags hm sm _ _) as [tags'|e] eqn:Htags; simpl; [|done].
  intros [= <- <- <- <-]. by exists hm, sm, cm.
Qed.

(** What a returned configuration is made of. *)
Lemma scale_blueprint_inv (curve : DifficultyCurve F) (bp : WaveBlueprint.t F)
    (cfg : WaveConfig.t F) :
  scale_blueprint curve bp = Returned cfg →
  ∃ tags,
    scale_stats curve bp
    = Returned (WaveConfig.health cfg, WaveConfig.speed cfg, WaveConfig.count cfg, tags)
    ∧ WaveConfig.wave cfg = WaveBlueprint.wave bp
    ∧ WaveConfig.enemy_type cfg = WaveBlueprint.enemy_type bp
    ∧ ((truthy (WaveBlueprint.special bp) = false
        ∧ WaveConfig.special cfg = WaveBlueprint.special bp
        ∧ WaveConfig.difficulty_tags cfg = tags)
       ∨ ∃ s, WaveConfig.special cfg = Some s
              ∧ WaveConfig.difficulty_tags cfg = tags ++ [special_tag s]).
Proof.
  unfold scale_blueprint.
  destruct (scale_stats curve bp) as [[[[h s] n] tags]|e]; simpl; [|done].
  set (due := if _ : bool then _ else Returned false).
  destruct due as [[|]|e]; simpl; [| |done].
  - destruct (pick_special curve (WaveBlueprint.wave bp)) as [sp|e]; simpl; [|done].
    intros [= <-]. simpl. exists tags. repeat split; eauto.
  - destruct (truthy (WaveBlueprint.special bp)) eqn:Htruthy; simpl.
    + intros [= <-]. simpl. exists tags. repeat split.
      destruct (WaveBlueprint.special bp) as [sp|]; [|done]. eauto.
    + intros [= <-]. simpl. exists tags. repeat split; eauto.
Qed.

(** Once its arithmetic has returned, the loop body with a positive
    cadence and a non-empty list of specials returns, and the special slot
    follows the cadence. *)
Lemma scale_blueprint_returns (curve : DifficultyCurve F) (bp : WaveBlueprint.t F)
    (h s : F) (n : Z) (tags : list string) :
  0 < special_frequency curve → extra_specials curve ≠ [] →
  scale_stats curve bp = Returned (h, s, n, tags) →
  ∃ cfg, scale_blueprint curve bp = Returned cfg
    ∧ (truthy (WaveBlueprint.special bp) = false →
       if special_due curve (WaveBlueprint.wave bp) then
         ∃ sp, extra_specials curve
                !! Z.to_nat ((WaveBlueprint.wave bp `div` special_frequency curve - 1)
                               `mod` Z.of_nat (length (extra_specials curve)))
              = Some sp
              ∧ WaveConfig.special cfg = Some sp
              ∧ WaveConfig.difficulty_tags cfg = tags ++ [special_tag sp]
       else WaveConfig.special cfg = WaveBlueprint.special bp
            ∧ WaveConfig.difficulty_tags cfg = tags).
Proof.
  intros Hfreq Hextra Hstats. unfold scale_blueprint, special_due, pymod.
  rewrite Hstats. simpl.
  destruct (Z.eqb_spec (special_frequency curve) 0) as [?|_]; [lia|].
  destruct (truthy (WaveBlueprint.special bp)) eqn:Htruthy; simpl.
  { eexists. split; [done|]. done. }
  destruct (Z.leb_spec (special_frequency curve) (WaveBlueprint.wave bp)); simpl;
    [|eexists; split; [done|]; by intros _].
  destruct (Z.eqb_spec (WaveBlueprint.wave bp `mod` special_frequency curve) 0);
    simpl; [|eexists; split; [done|]; by intros _].
  destruct (pick_special_in_range curve (WaveBlueprint.wave bp)) as (sp & -> & Hsp);
    [lia|done|]. simpl.
  eexists. split; [done|]. intros _. by exists sp.
Qed.

Lemma insert_by_wave_perm (x : WaveBlueprint.t F) (l : list (WaveBlueprint.t F)) :
  insert_by_wave x l ≡ₚ x :: l.
Proof.
  induction l as [|y l IH]; simpl; [done|].
  destruct (WaveBlueprint.wave y <? WaveBlueprint.wave x); [|done].
  rewrite IH. apply Permutation_swap.
Qed.

Lemma sorted_by_wave_perm (l : list (WaveBlueprint.t F)) : sorted_by_wave l ≡ₚ l.
Proof.
  induction l as [|x l IH]; simpl; [done|].
  rewrite insert_by_wave_perm. by rewrite IH.
Qed.

(** The loop of [apply_difficulty] returns exactly when its body returns
    for every blueprint, with one configuration per blueprint, in
    order. *)
Lemma scale_all_returns (curve : DifficultyCurve F) (l : list (WaveBlueprint.t F))
    (cfgs : list (WaveConfig.t F)) :
  scale_all curve l = Returned cfgs
  ↔ Forall2 (λ bp cfg, scale_blueprint curve bp = Returned cfg) l cfgs.
Proof.
  revert cfgs. induction l as [|bp l IH]; intros cfgs; simpl.
  - split.
    + by intros [= <-].
    + by intros ->%Forall2_nil_inv_l.
  - split.
    + destruct (scale_blueprint curve bp) as [cfg|e] eqn:Hbp; simpl; [|done].
      destruct (scale_all curve l) as [rest|e] eqn:Hl; simpl; [|done].
      intros [= <-]. constructor; [done|]. by apply IH.
    + intros (cfg & rest & Hbp & Hrest & ->)%Forall2_cons_inv_l.
      rewrite Hbp. simpl. apply IH in Hrest. by rewrite Hrest.
Qed.

(** C5.  A positive cadence and a non-empty list of specials.  The
    Scaler returns as soon as the arithmetic of every blueprint does, and
    whenever it returns its configurations are those of the blueprints in
    wave order, where each blueprint without an explicit special has got a
    special tag iff [wave >= special_frequency] and
    [wave % special_frequency == 0]; in that case the special is
    [extra_specials[((wave // special_frequency) - 1) % len(extra_specials)]]
    and its tag is appended last, otherwise the special is left as it was.
    With [special_frequency = 3] waves 3, 6, 9 get a special tag and waves
    1, 2, 4, 5, 7, 8 get none. *)
Theorem special_cadence (curve : DifficultyCurve F)
    (blueprints : list (WaveBlueprint.t F)) :
  0 < special_frequency curve →
  extra_specials curve ≠ [] →
  let freq := special_frequency curve in
  (Forall (λ bp, ∃ stats, scale_stats curve bp = Returned stats) blueprints →
   ∃ waves, apply_difficulty blueprints (Some curve) = Returned waves)
  ∧ ∀ waves,
      apply_difficulty blueprints (Some curve) = Returned waves →
      Forall2
        (λ bp cfg,
           let wave := WaveBlueprint.wave bp in
           WaveConfig.wave cfg = wave
           ∧ (truthy (WaveBlueprint.special bp) = false →
              ((∃ tag, tag ∈ WaveConfig.difficulty_tags cfg
                       ∧ is_special_tag tag = true)
               ↔ freq ≤ wave ∧ wave `mod` freq = 0)
              ∧ (freq ≤ wave ∧ wave `mod` freq = 0 →
                 ∃ s, extra_specials curve
                        !! Z.to_nat ((wave `div` freq - 1)
                                       `mod` Z.of_nat (length (extra_specials curve)))
                      = Some s
                      ∧ WaveConfig.special cfg = Some s
                      ∧ last (WaveConfig.difficulty_tags cfg) = Some (special_tag s))
              ∧ (¬ (freq ≤ wave ∧ wave `mod` freq = 0) →
                 WaveConfig.special cfg = WaveBlueprint.special bp)
              ∧ (freq = 3 →
                 (wave ∈ [3; 6; 9] →
                  ∃ tag, tag ∈ WaveConfig.difficulty_tags cfg
                         ∧ is_special_tag tag = true)
                 ∧ (wave ∈ [1; 2; 4; 5; 7; 8] →
                    Forall (fun tag => is_special_tag tag = false)
                      (WaveConfig.difficulty_tags cfg)))))
        (sorted_by_wave blueprints) waves.
Proof.
  intros Hfreq Hextra freq. unfold apply_difficulty. simpl. split.
  { intros Hstats. rewrite <-sorted_by_wave_perm in Hstats.
    induction Hstats as [|bp l [[[[h s] n] tags] Hbp] _ [rest IH]]; simpl;
      [by eexists|].
    destruct (scale_blueprint_returns curve bp h s n tags Hfreq Hextra Hbp)
      as (cfg & -> & _).
    simpl. rewrite IH. simpl. by eexists. }
  intros waves Hall%scale_all_returns.
  eapply Forall2_impl; [exact Hall|]. clear Hall.
  intros bp cfg Hcfg. cbv zeta.
  destruct (scale_blueprint_inv curve bp cfg Hcfg) as (tags & Hstats & Hwave & _).
  split; [done|]. intros Hfalsy.
  destruct (scale_blueprint_returns curve bp _ _ _ tags Hfreq Hextra Hstats)
    as (cfg' & Hcfg' & Hspec).
  rewrite Hcfg in Hcfg'. injection Hcfg' as <-.
  specialize (Hspec Hfalsy).
  destruct (scale_stats_inv curve bp _ _ _ tags Hstats)
    as (hm & sm & cm & _ & _ & _ & _ & _ & _ & Htags).
  pose proof (stat_tags_not_special _ _ _ _ _ Htags) as Hstat.
  set (wave := WaveBlueprint.wave bp) in *.
  unfold special_due in Hspec. fold wave freq in Hspec.
  assert (Hcases :
    (freq ≤ wave ∧ wave `mod` freq = 0
     ∧ ∃ tag, tag ∈ WaveConfig.difficulty_tags cfg ∧ is_special_tag tag = true)
    ∨ (¬ (freq ≤ wave ∧ wave `mod` freq = 0)
       ∧ Forall (fun tag => is_special_tag tag = false)
           (WaveConfig.difficulty_tags cfg))).
  { destruct (Z.leb_spec freq wave), (Z.eqb_spec (wave `mod` freq) 0);
      simpl in Hspec.
    - left. destruct Hspec as (s & _ & _ & ->). repeat split; try done.
      exists (special_tag s). split; [set_solver|apply special_tag_is_special].
    - right. destruct Hspec as [_ ->]. split; [tauto|done].
    - right. destruct Hspec as [_ ->]. split; [lia|done].
    - right. destruct Hspec as [_ ->]. split; [lia|done]. }
  assert (Hexcl : ∀ tag,
    Forall (fun tag => is_special_tag tag = false) (WaveConfig.difficulty_tags cfg) →
    tag ∈ WaveConfig.difficulty_tags cfg → is_special_tag tag = true → False).
  { intros tag Hall Hin Htag. rewrite Forall_forall in Hall.
    specialize (Hall tag Hin). congruence. }
  split; [|split; [|split; [|intros Hthree; split]]].
  - split.
    + intros (tag & Hin & Htag). destruct Hcases as [(?&?&_)|[_ Hall]]; [done|].
      destruct (Hexcl tag Hall Hin Htag).
    + intros Hdue. destruct Hcases as [(_&_&?)|[? _]]; done.
  - intros [Hge Hmod].
    destruct (Z.leb_spec freq wave); [|lia].
    destruct (Z.eqb_spec (wave `mod` freq) 0); [|lia]. simpl in Hspec.
    destruct Hspec as (s & Hs & Hsp & ->). exists s.
    by rewrite last_snoc.
  - intros Hno.
    destruct (Z.leb_spec freq wave), (Z.eqb_spec (wave `mod` freq) 0);
      simpl in Hspec; try tauto.
  - intros Hin. destruct Hcases as [(_&_&?)|[Hno _]]; [done|].
    destruct Hno. rewrite Hthree.
    set_unfold in Hin. destruct Hin as [->|[->|[->|[]]]]; by compute.
  - intros Hin. destruct Hcases as [(_&Hmod&_)|[_ ?]]; [|done].
    rewrite Hthree in Hmod.
    set_unfold in Hin.
    destruct Hin as [->|[->|[->|[->|[->|[->|[]]]]]]]; by compute in Hmod.
Qed.

(** C4, as the code has it.  The tags of a produced configuration are, in
    this order: the health tag when the health multiplier exceeds 1, the
    speed tag when the speed multiplier exceeds 1, the count tag iff the
    scaled count exceeds the base count, and then at most one special tag.
    The percentage in the health and speed tags is
    [int((multiplier - 1) * 100)], truncated, not rounded. *)
Theorem difficulty_tags_order (curve : DifficultyCurve F) (bp : WaveBlueprint.t F)
    (cfg : WaveConfig.t F) :
  scale_blueprint curve bp = Returned cfg →
  ∃ hm sm special_part,
    health_multiplier curve (WaveBlueprint.wave bp) = Returned hm
    ∧ speed_multiplier curve (WaveBlueprint.wave bp) = Returned sm
    ∧ WaveConfig.difficulty_tags cfg =
        (if ltb one hm
         then ["+vida " +:+ pretty (trunc (mul (sub hm one) (of_int 100))) +:+ "%"]
         else [])
        ++ (if ltb one sm
            then ["+velocidad " +:+ pretty (trunc (mul (sub sm one) (of_int 100))) +:+ "%"]
            else [])
        ++ (if WaveBlueprint.count bp <? WaveConfig.count cfg
            then ["+cantidad " +:+ pretty (WaveConfig.count cfg - WaveBlueprint.count bp)]
            else [])
        ++ special_part
    ∧ (special_part = []
       ∨ ∃ s, WaveConfig.special cfg = Some s ∧ special_part = ["especial " +:+ s]).
Proof.
  intros Hcfg.
  destruct (scale_blueprint_inv curve bp cfg Hcfg) as (tags & Hstats & _ & _ & Htags).
  destruct (scale_stats_inv curve bp _ _ _ tags Hstats)
    as (hm & sm & cm & Hhm & Hsm & _ & _ & _ & _ & Hstat).
  apply stat_tags_inv in Hstat. subst tags.
  exists hm, sm.
  destruct Htags as [(_ & _ & ->)|(s & Hs & ->)].
  - exists []. split; [done|]. split; [done|]. split; [|by left].
    by rewrite !app_nil_r.
  - exists [special_tag s]. split; [done|]. split; [done|].
    split; [|right; by exists s].
    by rewrite <-!(assoc (++)).
Qed.

End Facts.

Section Monotone.
Context {F : Type} `{ScalingLaws F} `{!FloatErrors F}.

Lemma multiplier_mono (g : F) (wave1 wave2 : Z) :
  leb zero g = true → 1 ≤ wave1 → wave1 ≤ wave2 →
  leb one (pow_int (add one g) (wave1 - 1)) = true
  ∧ leb (pow_int (add one g) (wave1 - 1)) (pow_int (add one g) (wave2 - 1)) = true.
Proof using Type*.
  intros Hg H1 H12. split.
  - apply pow_int_ge_one; [by apply one_le_add|lia].
  - apply pow_int_mono; [by apply one_le_add|lia|lia].
Qed.

(** C3.  Growth rates [>= 0]; base values [base_health > 0],
    [base_speed > 0], [count >= 1]; waves [1 <= wave1 < wave2].  Whenever
    the Scaler returns for the two blueprints, it returns their two
    configurations in wave order, and health, speed and count of the later
    wave are at least those of the earlier one, the rounding to two
    decimals and the ceiling notwithstanding. *)
Theorem scaling_is_monotone (curve : DifficultyCurve F) (enemy_type : string)
    (count : Z) (base_health base_speed : F) (special : option string)
    (wave1 wave2 : Z) (waves : list (WaveConfig.t F)) :
  leb zero (health_growth curve) = true →
  leb zero (speed_growth curve) = true →
  leb zero (count_growth curve) = true →
  ltb zero base_health = true →
  ltb zero base_speed = true →
  1 ≤ count →
  1 ≤ wave1 < wave2 →
  let blueprint wave :=
    WaveBlueprint.mk wave enemy_type count base_health base_speed special in
  apply_difficulty [blueprint wave2; blueprint wave1] (Some curve) = Returned waves →
  ∃ cfg1 cfg2,
    waves = [cfg1; cfg2]
    ∧ WaveConfig.wave cfg1 = wave1 ∧ WaveConfig.wave cfg2 = wave2
    ∧ leb (WaveConfig.health cfg1) (WaveConfig.health cfg2) = true
    ∧ leb (WaveConfig.speed cfg1) (WaveConfig.speed cfg2) = true
    ∧ WaveConfig.count cfg1 ≤ WaveConfig.count cfg2.
Proof using Type*.
  intros Hhg Hsg Hcg Hbh Hbs Hcount Hwaves blueprint.
  unfold apply_difficulty, sorted_by_wave. simpl.
  destruct (Z.ltb_spec wave1 wave2); [|lia].
  intros Hall%scale_all_returns.
  apply Forall2_cons_inv_l in Hall as (cfg1 & rest & Hcfg1 & Hall & ->).
  apply Forall2_cons_inv_l in Hall as (cfg2 & rest' & Hcfg2 & Hall & ->).
  apply Forall2_nil_inv_l in Hall as ->.
  exists cfg1, cfg2. split; [done|].
  destruct (scale_blueprint_inv curve _ _ Hcfg1) as (tags1 & Hstats1 & -> & _).
  destruct (scale_blueprint_inv curve _ _ Hcfg2) as (tags2 & Hstats2 & -> & _).
  destruct (scale_stats_inv curve _ _ _ _ _ Hstats1)
    as (hm1 & sm1 & cm1 & Hhm1 & Hsm1 & Hcm1 & -> & -> & -> & _).
  destruct (scale_stats_inv curve _ _ _ _ _ Hstats2)
    as (hm2 & sm2 & cm2 & Hhm2 & Hsm2 & Hcm2 & -> & -> & -> & _).
  assert (Hvalue : ∀ x n v, float_pow x n = Returned v → v = pow_int x n).
  { intros x n v. unfold float_pow, checked.
    destruct (pow_int_raises x n); [done|]. by intros [= <-]. }
  unfold health_multiplier, speed_multiplier, count_multiplier in *. simpl in *.
  apply Hvalue in Hhm1, Hhm2, Hsm1, Hsm2, Hcm1, Hcm2. subst.
  destruct (multiplier_mono (health_growth curve) wave1 wave2) as [? ?];
    [done|lia|lia|].
  destruct (multiplier_mono (speed_growth curve) wave1 wave2) as [? ?];
    [done|lia|lia|].
  destruct (multiplier_mono (count_growth curve) wave1 wave2) as [? ?];
    [done|lia|lia|].
  split; [done|]. split; [done|]. repeat split.
  - by apply round2_mono, mul_mono_r.
  - by apply round2_mono, mul_mono_r.
  - apply Z.max_le_compat_l, ceil_mono, mul_mono_r; [apply of_int_pos; lia|done..].
Qed.

End Monotone.
End ScalerFacts.

(** ** Exact rationals satisfy the laws *)

Module ExactFacts.
Import Exact.
Local Open Scope Q_scope.

Lemma leb_Qle (x y : Qc) : leb x y = true ↔ this x <= this y.
Proof. apply Qle_bool_iff. Qed.

Lemma ltb_Qlt (x y : Qc) : ltb x y = true ↔ this x < this y.
Proof.
  unfold ltb; simpl. rewrite negb_true_iff, <-not_true_iff_false, Qle_bool_iff.
  split; [apply Qnot_le_lt|apply Qlt_not_le].
Qed.

Lemma leb_false_Qlt (x y : Qc) : leb x y = false ↔ this y < this x.
Proof.
  unfold leb; simpl. rewrite <-not_true_iff_false, Qle_bool_iff.
  split; [apply Qnot_le_lt|apply Qlt_not_le].
Qed.

Lemma this_Q2Qc (q : Q) : this (Q2Qc q) == q.
Proof. apply Qred_correct. Qed.

Lemma this_sub (x y : Qc) : this (sub x y) == this x - this y.
Proof.
  change (this (sub x y)) with (Qred (this x + Qred (- this y))).
  by rewrite !Qred_correct.
Qed.

Lemma this_mul (x y : Qc) : this (mul x y) == this x * this y.
Proof.
  change (this (mul x y)) with (Qred (this x * this y)). apply Qred_correct.
Qed.

Lemma this_add (x y : Qc) : this (add x y) == this x + this y.
Proof.
  change (this (add x y)) with (Qred (this x + this y)). apply Qred_correct.
Qed.

Global Instance Qc_time_order : TimeOrder Qc.
Proof.
  split.
  - intros a b c. rewrite !leb_Qle. apply Qle_trans.
  - intros a b. rewrite leb_false_Qlt, leb_Qle. apply Qlt_le_weak.
  - done.
Qed.

Global Instance Qc_motion_laws : MotionLaws Qc.
Proof.
  split.
  - intros x. simpl. unfold Qcminus. apply Qc_is_canon. simpl.
    rewrite !Qred_correct. ring.
  - by apply Qc_is_canon.
  - by apply Qc_is_canon.
  - done.
  - by apply Qc_is_canon.
  - intros x. apply not_true_iff_false. rewrite ltb_Qlt, this_mul.
    change (this zero) with 0. intros Hlt. lra.
  - intros x. apply not_true_iff_false. rewrite ltb_Qlt. apply Qlt_irrefl.
  - intros x y. rewrite ltb_Qlt, leb_Qle. apply Qlt_le_weak.
  - intros x y. by rewrite ltb_Qlt, leb_false_Qlt.
  - done.
Qed.

(** Every rational is finite. *)
Lemma Qc_finite (x : Qc) : Enemies.finite x.
Proof. unfold Enemies.finite. simpl. unfold Qcminus. apply Qcplus_opp_r. Qed.

Lemma round_half_even_mono (x y : Q) :
  x <= y → (round_half_even x <= round_half_even y)%Z.
Proof.
  intros Hxy. unfold round_half_even.
  pose proof (Qfloor_resp_le x y Hxy) as Hfloor.
  pose proof (Qlt_floor x) as Hx1. pose proof (Qfloor_le y) as Hy0.
  destruct (Z.eq_dec (Qfloor x) (Qfloor y)) as [Heq|Hne].
  - rewrite Heq in *.
    destruct (Qcompare_spec (x - inject_Z (Qfloor y)) (1 # 2)) as [Hcx|Hcx|Hcx];
      destruct (Qcompare_spec (y - inject_Z (Qfloor y)) (1 # 2)) as [Hcy|Hcy|Hcy];
      try (destruct (Z.even (Qfloor y))); try lia; exfalso; lra.
  - assert (Hlt : (Qfloor x + 1 <= Qfloor y)%Z) by lia.
    destruct (x - inject_Z (Qfloor x) ?= 1 # 2);
      destruct (y - inject_Z (Qfloor y) ?= 1 # 2);
      try (destruct (Z.even (Qfloor x))); try (destruct (Z.even (Qfloor y))); lia.
Qed.

Lemma round2_Qle (x y : Qc) : leb x y = true → leb (round2 x) (round2 y) = true.
Proof.
  rewrite !leb_Qle. intros Hxy. simpl. rewrite !Qred_correct.
  unfold Qle. simpl. apply Z.mul_le_mono_nonneg_r; [lia|].
  apply round_half_even_mono. apply Qmult_le_compat_r; [done|]. by compute.
Qed.

Global Instance Qc_scaling_laws : ScalingLaws Qc.
Proof.
  split.
  - intros g. rewrite !leb_Qle, this_add. change (this zero) with 0.
    change (this one) with 1. intros Hg. lra.
  - intros b n. rewrite !leb_Qle. change (this one) with 1. intros Hb Hn.
    simpl. rewrite Qred_correct.
    change 1 with (this b ^ 0). by apply Qpower_le_compat_l.
  - intros b m n. rewrite !leb_Qle. change (this one) with 1. intros Hb Hm Hmn.
    simpl. rewrite !Qred_correct. by apply Qpower_le_compat_l.
  - intros a x y. rewrite ltb_Qlt, !leb_Qle, !this_mul. intros Ha _ Hxy.
    by apply Qmult_le_l.
  - apply round2_Qle.
  - intros x y. rewrite leb_Qle. apply Qceiling_resp_le.
  - intros n Hn. rewrite ltb_Qlt. change (this zero) with 0.
    simpl. rewrite Qred_correct. change 0 with (inject_Z 0). by rewrite <-Zlt_Qlt.
Qed.

End ExactFacts.

(** ** The theorems at concrete inputs *)

Module Witnesses.
Import Exact ExactFacts.

Lemma demo_manager_reachable :
  Waves.reachable record_spawn demo_waves false demo_manager.
Proof. apply Waves.reach_start_next_wave, Waves.reach_init. Qed.

(** One [update(2.0)] on the demo wave fires all three spawns, the two
    spawns at time 1 in their original order, and ends the wave. *)
Lemma update_fires_due_spawns_witness :
  Waves.reachable record_spawn demo_waves false demo_manager
  ∧ snd (Waves.update record_spawn (of_int 2) demo_manager [])
    = ["grunt"; "scout"; "brute"]
  ∧ Waves._state (fst (Waves.update record_spawn (of_int 2) demo_manager [])) = None.
Proof.
  split; [exact demo_manager_reachable|].
  pose proof (WavesFacts.update_fires_due_spawns record_spawn demo_waves false
                demo_manager (of_int 2) [] demo_manager_reachable) as Hupdate.
  change (Waves._state demo_manager)
    with (Some (Waves.mkWaveState
                  [("grunt", of_int 1); ("scout", of_int 1); ("brute", of_int 2)]
                  (zero : Qc))) in Hupdate.
  destruct Hupdate as [-> _]. by vm_compute.
Defined.

Lemma load_progress_rejects_out_of_range_witness :
  Waves.current_index demo_snapshot = Some 5
  ∧ fst (Waves.load_progress demo_manager demo_snapshot) = Raised ValueError
  ∧ snd (Waves.load_progress demo_manager demo_snapshot) = demo_manager.
Proof.
  split; [reflexivity|].
  destruct (WavesFacts.load_progress_rejects_out_of_range demo_manager
              demo_snapshot 5 eq_refl) as (Hiff & Hsame & _).
  assert (Hraise : fst (Waves.load_progress demo_manager demo_snapshot)
                   = Raised ValueError).
  { apply Hiff. unfold Waves.total_waves. simpl. lia. }
  split; [exact Hraise|exact (Hsame Hraise)].
Defined.

Lemma load_serialize_roundtrip_witness :
  Waves.reachable record_spawn demo_waves false demo_manager
  ∧ Waves.load_progress demo_manager (Waves.serialize_progress demo_manager)
    = (Returned (), demo_manager).
Proof.
  split; [exact demo_manager_reachable|].
  exact (proj1 (WavesFacts.load_serialize_roundtrip record_spawn demo_waves false
                  demo_manager demo_manager_reachable)).
Defined.


Lemma single_waypoint_leaks_on_first_update_witness :
  let wp : Enemies.Vector := (of_int 1, of_int 2) in
  let e := Enemies.mkBaseEnemy [wp] 0 wp (of_int 3) 10 true one
             (Enemies.mkAnimationState ["walk0"; "walk1"] (lit 1 10) zero 0) false in
  let player := Some (Enemies.mkPlayer 3) in
  Enemies.init [wp] (of_int 3) 10 (Some ["walk0"; "walk1"]) one = Returned e
  ∧ Enemies.finite (fst wp) ∧ Enemies.finite (snd wp)
  ∧ ltb (zero : Qc) (mul (of_int 3) (lit 1 2)) = true
  ∧ Enemies.clock_runs_down (lit 1 2) (Enemies.animation e)
  ∧ (∃ fuel0, ∀ fuel, (fuel0 ≤ fuel)%nat →
       ∃ e', Enemies.update fuel (lit 1 2) e player
             = Some (Returned (e', Some (Enemies.mkPlayer 2)))
             ∧ Enemies.position e' = wp
             ∧ Enemies._waypoint_index e' = 0
             ∧ Enemies.reached_goal e' = true)
  ∧ Enemies.update 1 zero e player = Some (Returned (e, player)).
Proof.
  intros wp e player.
  assert (Hinit : Enemies.init [wp] (of_int 3) 10 (Some ["walk0"; "walk1"]) one
                  = Returned e) by reflexivity.
  assert (Hbudget : ltb (zero : Qc) (mul (of_int 3) (lit 1 2)) = true) by reflexivity.
  assert (Hclock : Enemies.clock_runs_down (lit 1 2) (Enemies.animation e)).
  { right. exists 5%nat. by vm_compute. }
  split; [exact Hinit|].
  split; [apply Qc_finite|]. split; [apply Qc_finite|].
  split; [exact Hbudget|]. split; [exact Hclock|].
  destruct (EnemiesFacts.single_waypoint_leaks_on_first_update wp (of_int 3) 10
              (Some ["walk0"; "walk1"]) one (lit 1 2) player e Hinit
              (Qc_finite _) (Qc_finite _))
    as (Hmove & _ & _ & _).
  destruct (EnemiesFacts.single_waypoint_leaks_on_first_update wp (of_int 3) 10
              (Some ["walk0"; "walk1"]) one zero player e Hinit
              (Qc_finite _) (Qc_finite _))
    as (_ & _ & _ & Hstill).
  split; [exact (Hmove Hbudget Hclock)|exact (Hstill 1%nat (le_n 1))].
Defined.

(** C9 as stated fails: it asks for [dt > 0] only.  An enemy with speed
    0 on a single waypoint has no travel budget, so its first
    [update(1.0)] does not enter the movement loop: [reached_goal] stays
    false and the player keeps its three lives. *)
Lemma zero_speed_enemy_does_not_leak :
  let wp : Enemies.Vector := (of_int 1, of_int 2) in
  let e := Enemies.mkBaseEnemy [wp] 0 wp (zero : Qc) 10 true one
             (Enemies.mkAnimationState [] (lit 1 10) zero 0) false in
  let player := Some (Enemies.mkPlayer 3) in
  Enemies.init [wp] zero 10 None one = Returned e
  ∧ ltb (zero : Qc) one = true
  ∧ Enemies.update 1 one e player = Some (Returned (e, player))
  ∧ Enemies.reached_goal e = false
  ∧ Enemies.lose_life <$> player ≠ player.
Proof.
  intros wp e player.
  split; [reflexivity|]. split; [reflexivity|]. split; [reflexivity|].
  split; [reflexivity|]. discriminate.
Qed.

Lemma special_cadence_witness :
  let curve := Scaler.default_curve (F:=Qc) in
  0 < Scaler.special_frequency curve
  ∧ Scaler.extra_specials curve ≠ []
  ∧ ∃ cfg4 cfg6,
      Scaler.apply_difficulty [demo_blueprint 6; demo_blueprint 4] (Some curve)
      = Returned [cfg4; cfg6]
      ∧ WaveConfig.wave cfg4 = 4 ∧ WaveConfig.special cfg4 = None
      ∧ WaveConfig.wave cfg6 = 6 ∧ WaveConfig.special cfg6 = Some "acorazado"
      ∧ last (WaveConfig.difficulty_tags cfg6) = Some "especial acorazado".
Proof.
  intros curve.
  assert (Hfreq : 0 < Scaler.special_frequency curve) by reflexivity.
  assert (Hextra : Scaler.extra_specials curve ≠ []) by done.
  split; [exact Hfreq|]. split; [exact Hextra|].
  pose proof (ScalerFacts.special_cadence curve [demo_blueprint 6; demo_blueprint 4]
                Hfreq Hextra) as Hcadence.
  cbv zeta in Hcadence. destruct Hcadence as [_ Hall].
  destruct (Scaler.apply_difficulty [demo_blueprint 6; demo_blueprint 4] (Some curve))
    as [waves|ex] eqn:Hwaves; [|by vm_compute in Hwaves].
  specialize (Hall waves eq_refl).
  change (Scaler.sorted_by_wave [demo_blueprint 6; demo_blueprint 4])
    with [demo_blueprint 4; demo_blueprint 6] in Hall.
  apply Forall2_cons_inv_l in Hall as (cfg4 & rest & [Hw4 H4] & Hall & ->).
  apply Forall2_cons_inv_l in Hall as (cfg6 & rest' & [Hw6 H6] & Hall & ->).
  apply Forall2_nil_inv_l in Hall as ->.
  exists cfg4, cfg6. split; [reflexivity|].
  destruct (H4 eq_refl) as (_ & _ & Hoff & _).
  destruct (H6 eq_refl) as (_ & Hon & _).
  destruct Hon as (s & Hs & Hspecial & Hlast); [by compute|].
  injection Hs as <-.
  split; [exact Hw4|].
  split; [apply Hoff; intros [_ Hmod]; by compute in Hmod|].
  split; [exact Hw6|]. by split.
Defined.

Lemma difficulty_tags_order_witness :
  ∃ cfg, Scaler.scale_blueprint demo_curve (demo_blueprint 2) = Returned cfg
         ∧ WaveConfig.difficulty_tags cfg = ["+vida 1%"].
Proof.
  destruct (Scaler.scale_blueprint demo_curve (demo_blueprint 2)) as [cfg|e] eqn:Hcfg;
    [|by vm_compute in Hcfg].
  exists cfg. split; [reflexivity|].
  destruct (ScalerFacts.difficulty_tags_order demo_curve (demo_blueprint 2) cfg Hcfg)
    as (hm & sm & special_part & Hhm & Hsm & -> & Hspecial).
  assert (Hnone : WaveConfig.special cfg = None).
  { vm_compute in Hcfg. by injection Hcfg as <-. }
  assert (Hcount : WaveConfig.count cfg = 5).
  { vm_compute in Hcfg. by injection Hcfg as <-. }
  destruct Hspecial as [->|(s & Hs & _)]; [|congruence].
  rewrite Hcount.
  vm_compute in Hhm. injection Hhm as <-.
  vm_compute in Hsm. injection Hsm as <-.
  by vm_compute.
Defined.

Lemma scaling_is_monotone_witness :
  let curve := Scaler.default_curve (F:=Qc) in
  leb zero (Scaler.health_growth curve) = true
  ∧ leb zero (Scaler.speed_growth curve) = true
  ∧ leb zero (Scaler.count_growth curve) = true
  ∧ ltb (zero : Qc) (of_int 100) = true
  ∧ ltb (zero : Qc) (of_int 60) = true
  ∧ 1 ≤ 5
  ∧ 1 ≤ 1 < 4
  ∧ ∃ waves,
      Scaler.apply_difficulty [demo_blueprint 4; demo_blueprint 1] (Some curve)
      = Returned waves
      ∧ ∃ cfg1 cfg2,
          waves = [cfg1; cfg2]
          ∧ WaveConfig.wave cfg1 = 1 ∧ WaveConfig.wave cfg2 = 4
          ∧ leb (WaveConfig.health cfg1) (WaveConfig.health cfg2) = true
          ∧ leb (WaveConfig.speed cfg1) (WaveConfig.speed cfg2) = true
          ∧ WaveConfig.count cfg1 ≤ WaveConfig.count cfg2.
Proof.
  intros curve.
  repeat (split; [first [reflexivity|done|lia]|]).
  destruct (Scaler.apply_difficulty [demo_blueprint 4; demo_blueprint 1] (Some curve))
    as [waves|ex] eqn:Hwaves; [|by vm_compute in Hwaves].
  exists waves. split; [reflexivity|].
  apply (ScalerFacts.scaling_is_monotone curve "grunt" 5 (of_int 100) (of_int 60)
           None 1 4 waves); first [reflexivity|done|lia|exact Hwaves].
Defined.

(** C4 as stated fails: with a health growth of 1/64 the wave-2
    multiplier is 1.015625, so [(healthMul - 1) * 100 = 1.5625]; the code
    writes [int(1.5625) = 1] into the tag where rounding gives
    [round(1.5625) = 2]. *)
Lemma health_tag_is_truncated_not_rounded :
  ∃ cfg hm,
    Scaler.scale_blueprint demo_curve (demo_blueprint 2) = Returned cfg
    ∧ Scaler.health_multiplier demo_curve 2 = Returned hm
    ∧ ltb one hm = true
    ∧ WaveConfig.difficulty_tags cfg = ["+vida 1%"]
    ∧ rounded_health_tag hm = "+vida 2%"
    ∧ rounded_health_tag hm ∉ WaveConfig.difficulty_tags cfg.
Proof.
  eexists _, _. split; [reflexivity|]. split; [reflexivity|].
  split; [reflexivity|].
  match goal with
  | |- WaveConfig.difficulty_tags ?cfg = _ ∧ rounded_health_tag ?hm = _ ∧ _ =>
      assert (Htags : WaveConfig.difficulty_tags cfg = ["+vida 1%"])
        by (by vm_compute);
      assert (Hrounded : rounded_health_tag hm = "+vida 2%") by (by vm_compute)
  end.
  split; [exact Htags|]. split; [exact Hrounded|].
  rewrite Hrounded, Htags.
  rewrite list_elem_of_singleton. discriminate.
Qed.

(** A projectile within reach of its target: a live target takes the
    damage once, a dead one is left alone; either way the projectile is
    finished and further updates do nothing. *)
Example projectile_hits_live_target :
  let target := mkLoggedTarget (of_int 3, of_int 4) true [] in
  Towers.update one demo_projectile target
  = (Towers.mkProjectile (of_int 3, of_int 4) (of_int 10) (of_int 7) true,
     mkLoggedTarget (of_int 3, of_int 4) true [of_int 7]).
Proof. reflexivity. Qed.

Example projectile_spares_dead_target :
  let target := mkLoggedTarget (of_int 3, of_int 4) false [] in
  Towers.update one demo_projectile target
  = (Towers.mkProjectile (of_int 0, of_int 0) (of_int 10) (of_int 7) true, target)
  ∧ Towers.update one (Towers.with_finished demo_projectile) target
    = (Towers.with_finished demo_projectile, target).
Proof. split; reflexivity. Qed.

(** Confirming the demo build with enough money inserts cell (2, 3) and
    returns to idle; a second confirmation returns [None]. *)
Example confirm_build_then_idle :
  Build.preview demo_build
  = Some (Build.mkBuildPreview (2, 3) (64, 96) Build.PREVIEW_OK_COLOR true)
  ∧ Build.confirm_build demo_build ∅ 80
    = (Some demo_button, Build.cancel demo_build, {[ (2, 3) ]} ∪ ∅)
  ∧ Build.confirm_build (Build.cancel demo_build) {[ (2, 3) ]} 80
    = (None, Build.cancel demo_build, {[ (2, 3) ]})
  ∧ Build.confirm_build demo_build ∅ 49 = (None, demo_build, ∅).
Proof. repeat split; by vm_compute. Qed.

(** With two waves, [start_next_wave] returns [True] twice (each wave
    being played out in between) and then [False]. *)
Example start_next_wave_twice :
  let waves : list (list (string * Qc)) :=
    [[("grunt", of_int 0)]; [("brute", of_int 1)]] in
  let play m := fst (Waves.update record_spawn (of_int 5) m []) in
  let '(r1, m1) := Waves.start_next_wave (Waves.init waves false) in
  let '(r2, m2) := Waves.start_next_wave (play m1) in
  let '(r3, m3) := Waves.start_next_wave (play m2) in
  (r1, r2, r3) = (Returned true, Returned true, Returned false)
  ∧ Waves.is_finished m3 = true.
Proof. by vm_compute. Qed.

(** The spec's end-to-end example: wave 1 under the default curve is left
    unscaled and untagged. *)
Example wave_one_is_unscaled :
  Scaler.apply_difficulty [demo_blueprint 1] None
  = Returned [WaveConfig.mk 1 "grunt" 5 (round2 (of_int 100)) (round2 (of_int 60))
                None []].
Proof. by vm_compute. Qed.

End Witnesses.

(** * Further properties of the scheduler *)

Module WavesMore.
Import Waves WavesFacts.
Section Facts.
Context {F : Type} `{TimeOrder F}.
Context {World : Type} (spawn_callback : string → World → World).

(** X1.  On a reachable manager [start_next_wave] never raises.  It
    returns [True] iff no wave is active and either a further wave exists
    or the manager loops over a non-empty table; it then makes the next
    index current (0 when wrapping around) and queues that wave's spawns
    in ascending time order with the clock at zero.  When it returns
    [False] the manager is unchanged. *)
Theorem start_next_wave_starts_next (waves : list WaveDefinition) (loop_waves : bool)
    (m : WaveManager) :
  reachable spawn_callback waves loop_waves m →
  let can_start :=
    _state m = None
    ∧ (_current_index m + 1 < total_waves m
       ∨ (_loop_waves m = true ∧ _waves m ≠ [])) in
  let next :=
    if total_waves m <=? _current_index m + 1 then 0 else _current_index m + 1 in
  (can_start →
   ∃ wave,
     waves !! Z.to_nat next = Some wave
     ∧ start_next_wave m =
         (Returned true,
          mkWaveManager (_waves m) (_loop_waves m) next
            (Some (mkWaveState (sorted_by_time wave) zero)))
     ∧ ascending (sorted_by_time wave)
     ∧ sorted_by_time wave ≡ₚ wave)
  ∧ (¬ can_start → start_next_wave m = (Returned false, m)).
Proof using Type*.
  intros Hreach can_start next.
  apply reachable_invariant in Hreach as (Hw & Hi & Hst).
  assert (Hperm : ∀ wave : WaveDefinition, sorted_by_time wave ≡ₚ wave).
  { induction wave as [|x wave IH]; simpl; [done|].
    rewrite <-IH at 2. generalize (sorted_by_time wave). intros l.
    induction l as [|y l IHl]; simpl; [done|].
    destruct (ltb (snd y) (snd x)); [|done].
    rewrite IHl. apply Permutation_swap. }
  assert (Hstart : ∀ i, 0 ≤ i < total_waves m →
            ∃ wave, waves !! Z.to_nat i = Some wave
                    ∧ start_at m i =
                        (Returned true,
                         mkWaveManager (_waves m) (_loop_waves m) i
                           (Some (mkWaveState (sorted_by_time wave) zero)))).
  { intros i Hrange. unfold start_at.
    destruct (getitem_in_range (_waves m) i Hrange) as (wave & -> & Hwave).
    rewrite Hw, list_lookup_fmap in Hwave.
    destruct (waves !! Z.to_nat i) as [wave0|]; [|done].
    injection Hwave as <-. by exists wave0. }
  unfold start_next_wave. subst can_start next. cbv zeta. split.
  - intros [Hidle Hnext]. rewrite Hidle.
    destruct (Z.leb_spec (total_waves m) (_current_index m + 1)) as [Hlast|Hmore].
    + destruct Hnext as [?|[Hloop Hne]]; [lia|]. rewrite Hloop. simpl.
      rewrite bool_decide_eq_false_2 by done. simpl.
      destruct (Hstart 0) as (wave & Hwave & Heq).
      { unfold total_waves. destruct (_waves m); [done|]. simpl. lia. }
      rewrite Heq, Hloop.
      exists wave. split; [done|]. split; [done|].
      split; [apply sorted_by_time_ascending|apply Hperm].
    + destruct (Hstart (_current_index m + 1)) as (wave & Hwave & Heq); [lia|].
      rewrite Heq.
      exists wave. split; [done|]. split; [done|].
      split; [apply sorted_by_time_ascending|apply Hperm].
  - intros Hno. destruct (_state m) as [st|] eqn:Hm; [done|].
    destruct (Z.leb_spec (total_waves m) (_current_index m + 1)) as [Hlast|Hmore].
    + destruct (_loop_waves m); simpl; [|done].
      case_bool_decide as Hnil; [done|]. destruct Hno. split; [done|]. by right.
    + destruct Hno. split; [done|]. by left.
Qed.

(** X2.  On a reachable manager that does not loop, [remaining_waves] is
    the number of waves not yet completed, the active one included:
    between 0 and [total_waves], at least 1 while a wave is active; the
    1-based [current_wave_number] of an active wave lies in
    [1 .. total_waves] and is 0 when idle; and [is_finished] holds exactly
    when no wave remains. *)
Theorem remaining_waves_counts_down (waves : list WaveDefinition) (m : WaveManager) :
  reachable spawn_callback waves false m →
  ∃ n, remaining_waves m = Bounded n
       ∧ 0 ≤ n ≤ total_waves m
       ∧ (wave_in_progress m = true →
          n = total_waves m - _current_index m
          ∧ 1 ≤ n ∧ 1 ≤ current_wave_number m ≤ total_waves m)
       ∧ (wave_in_progress m = false →
          n = total_waves m - (_current_index m + 1)
          ∧ current_wave_number m = 0)
       ∧ (is_finished m = true ↔ n = 0).
Proof using Type*.
  intros Hreach.
  assert (Hloop : _loop_waves m = false).
  { clear -Hreach. induction Hreach as [|m _ IH|m dt w _ IH|m _ IH|m m' _ IH _ IH'];
      simpl; try done.
    - unfold start_next_wave, start_at.
      destruct (_state m); [done|]. simpl.
      destruct (_ <=? _); [rewrite IH; simpl; done|].
      by destruct (getitem _ _).
    - unfold update. destruct (_state m); [|done].
      by destruct (fire_due _ _ _ _).
    - unfold load_progress. by destruct (_ || _). }
  apply reachable_invariant in Hreach as (Hw & Hi & Hst).
  unfold remaining_waves, is_finished, current_wave_number, wave_in_progress.
  rewrite Hloop. simpl.
  destruct (_state m) as [st|] eqn:Hm.
  - destruct (Hst st eq_refl) as [Hidx _].
    exists (total_waves m - _current_index m).
    split; [f_equal; lia|]. split; [lia|].
    split; [intros _; lia|]. split; [done|].
    rewrite andb_false_r. split; [done|lia].
  - exists (total_waves m - (_current_index m + 1)).
    split; [f_equal; lia|]. split; [lia|].
    split; [done|]. split; [done|].
    rewrite andb_true_r. rewrite Z.leb_le. lia.
Qed.

End Facts.

Section Loading.
Context {F : Type} `{Arith F}.

(** X3.  Whatever the snapshot holds, a [load_progress] that returns
    leaves the index within [-1 .. total_waves - 1] and an active wave only
    at an index [>= 0]: a snapshot flagged in progress at index -1 is
    loaded as idle.  Missing keys take their defaults, so loading the empty
    dict is [reset()]. *)
Theorem load_progress_keeps_index_in_range (m : WaveManager) (data : Snapshot) :
  let m' := snd (load_progress m data) in
  (fst (load_progress m data) = Returned () →
   -1 ≤ _current_index m' < total_waves m'
   ∧ (wave_in_progress m' = true → 0 ≤ _current_index m')
   ∧ _waves m' = _waves m ∧ _loop_waves m' = _loop_waves m)
  ∧ load_progress m (mkSnapshot None None None None) = (Returned (), reset m)
  ∧ (∀ queue now,
       snd (load_progress m (mkSnapshot (Some (-1)) (Some true) queue now)) = reset m).
Proof.
  cbv zeta. unfold load_progress, reset, wave_in_progress, total_waves. simpl.
  assert (Hlen : 0 ≤ Z.of_nat (length (_waves m))) by lia.
  split; [|split].
  - destruct (Z.ltb_spec (default (-1) (current_index data)) (-1)); [done|].
    destruct (Z.leb_spec (Z.of_nat (length (_waves m)))
                (default (-1) (current_index data))); [done|]. simpl.
    intros _. split; [lia|]. split; [|done].
    destruct (default false (snap_wave_in_progress data)); [|done]. simpl.
    destruct (Z.leb_spec 0 (default (-1) (current_index data))); [|done].
    by intros _.
  - by destruct (Z.leb_spec (Z.of_nat (length (_waves m))) (-1)); [lia|].
  - intros queue now.
    by destruct (Z.leb_spec (Z.of_nat (length (_waves m))) (-1)); [lia|].
Qed.

End Loading.
End WavesMore.

(** * economy/player_stats.py *)

Module Economy.

Record PlayerStats : Type := mkPlayerStats {
  money : Z;
  lives : Z;
  current_wave : Z;
}.

Definition gain_money (amount : Z) (s : PlayerStats) : outcome () * PlayerStats :=
  if amount <? 0 then (Raised ValueError, s)
  else (Returned (), mkPlayerStats (money s + amount) (lives s) (current_wave s)).

Definition can_afford (cost : Z) (s : PlayerStats) : bool := cost <=? money s.

Definition spend_money (cost : Z) (s : PlayerStats) : outcome bool * PlayerStats :=
  if cost <? 0 then (Raised ValueError, s)
  else if money s <? cost then (Returned false, s)
  else (Returned true, mkPlayerStats (money s - cost) (lives s) (current_wave s)).

(** [lose_life(amount=1)]. *)
Definition lose_life (amount : Z) (s : PlayerStats) : outcome () * PlayerStats :=
  if amount <? 0 then (Raised ValueError, s)
  else (Returned (),
        mkPlayerStats (money s) (Z.max 0 (lives s - amount)) (current_wave s)).

Definition is_alive (s : PlayerStats) : bool := 0 <? lives s.

Definition register_enemy_kill (reward : Z) (s : PlayerStats)
  : outcome () * PlayerStats := gain_money reward s.

Definition register_purchase (cost : Z) (s : PlayerStats)
  : outcome bool * PlayerStats := spend_money cost s.

Definition start_wave (wave_number : Z) (s : PlayerStats) : PlayerStats :=
  mkPlayerStats (money s) (lives s) wave_number.

(** A call of one of the mutating methods. *)
Inductive call : Set :=
  | GainMoney (amount : Z)
  | SpendMoney (cost : Z)
  | LoseLife (amount : Z)
  | RegisterEnemyKill (reward : Z)
  | RegisterPurchase (cost : Z)
  | StartWave (wave_number : Z).

(** The exception a call raises, if any, and the stats after it. *)
Definition perform (c : call) (s : PlayerStats) : option exn * PlayerStats :=
  let raised {A} (r : outcome A) : option exn :=
    match r with Returned _ => None | Raised e => Some e end in
  match c with
  | GainMoney amount => let '(r, s') := gain_money amount s in (raised r, s')
  | SpendMoney cost => let '(r, s') := spend_money cost s in (raised r, s')
  | LoseLife amount => let '(r, s') := lose_life amount s in (raised r, s')
  | RegisterEnemyKill reward =>
      let '(r, s') := register_enemy_kill reward s in (raised r, s')
  | RegisterPurchase cost => let '(r, s') := register_purchase cost s in (raised r, s')
  | StartWave wave_number => (None, start_wave wave_number s)
  end.

(** A caller that goes on after an exception. *)
Definition perform_all (calls : list call) (s : PlayerStats) : PlayerStats :=
  foldl (fun s c => snd (perform c s)) s calls.

End Economy.

Module EconomyFacts.
Import Economy.

Lemma perform_keeps_ledger (c : call) (s : PlayerStats) :
  0 ≤ money s → 0 ≤ lives s →
  0 ≤ money (snd (perform c s)) ∧ 0 ≤ lives (snd (perform c s))
  ∧ (is_Some (fst (perform c s)) → snd (perform c s) = s).
Proof.
  intros Hmoney Hlives.
  destruct c as [a|c|a|r|c|n]; simpl;
    unfold register_enemy_kill, register_purchase, gain_money, spend_money, lose_life;
    repeat match goal with
           | |- context [?x <? ?y] => destruct (Z.ltb_spec x y)
           end; simpl; repeat split; try done; try lia; by intros [? [=]].
Qed.

(** X4.  Starting from non-negative money and lives, no sequence of calls
    to the mutating methods ([gain_money], [spend_money], [lose_life],
    [register_enemy_kill], [register_purchase], [start_wave]), whatever
    their arguments, makes money or lives negative; and a call that raises
    leaves the stats as they were. *)
Theorem ledger_never_negative (calls : list call) (s : PlayerStats) :
  0 ≤ money s → 0 ≤ lives s →
  0 ≤ money (perform_all calls s) ∧ 0 ≤ lives (perform_all calls s)
  ∧ ∀ c s0, is_Some (fst (perform c s0)) → snd (perform c s0) = s0.
Proof.
  intros Hmoney Hlives. split; [|split].
  - revert s Hmoney Hlives. induction calls as [|c calls IH]; intros s ??; [done|].
    simpl. destruct (perform_keeps_ledger c s) as (? & ? & _); [done..|].
    by apply IH.
  - revert s Hmoney Hlives. induction calls as [|c calls IH]; intros s ??; [done|].
    simpl. destruct (perform_keeps_ledger c s) as (? & ? & _); [done..|].
    by apply (IH (snd (perform c s))).
  - intros c s0. destruct c as [a|c|a|r|c|n]; simpl;
      unfold register_enemy_kill, register_purchase, gain_money, spend_money, lose_life;
      repeat match goal with
             | |- context [?x <? ?y] => destruct (Z.ltb_spec x y)
             end; simpl; try done; by intros [? [=]].
Qed.

(** X5.  [spend_money(cost)] raises [ValueError] iff [cost < 0], returns
    [False] iff [cost > money], and otherwise returns [True] having
    deducted exactly [cost]; in the first two cases the stats are
    unchanged.  For [cost >= 0] it returns [True] exactly when
    [can_afford(cost)], and a later [gain_money(cost)] restores the
    stats. *)
Theorem spend_money_outcomes (cost : Z) (s : PlayerStats) :
  (fst (spend_money cost s) = Raised ValueError ↔ cost < 0)
  ∧ (fst (spend_money cost s) = Returned false ↔ money s < cost ∧ 0 ≤ cost)
  ∧ (fst (spend_money cost s) = Returned true ↔ 0 ≤ cost ≤ money s)
  ∧ (fst (spend_money cost s) ≠ Returned true → snd (spend_money cost s) = s)
  ∧ (fst (spend_money cost s) = Returned true →
     money (snd (spend_money cost s)) = money s - cost
     ∧ lives (snd (spend_money cost s)) = lives s
     ∧ gain_money cost (snd (spend_money cost s)) = (Returned (), s))
  ∧ (0 ≤ cost → (fst (spend_money cost s) = Returned true ↔ can_afford cost s = true)).
Proof.
  unfold spend_money, gain_money, can_afford.
  rewrite Z.leb_le.
  destruct (Z.ltb_spec cost 0); [|destruct (Z.ltb_spec (money s) cost)]; simpl.
  - repeat split; intros; try done; try lia.
  - repeat split; intros; try done; try lia.
  - destruct (Z.ltb_spec cost 0); [lia|].
    repeat split; intros; try done; try lia.
    destruct s; simpl. do 2 f_equal. lia.
Qed.

End EconomyFacts.

(** * Further properties of enemies (enemies/base_enemy.py, enemies/__init__.py) *)

Module EnemyKinds.
Section Kinds.
Context {F : Type} `{Arith F}.

(** [FastEnemy(waypoints)] and [TankEnemy(waypoints)]. *)
Definition FastEnemy (waypoints : list Enemies.Vector) : outcome Enemies.BaseEnemy :=
  Enemies.init waypoints (of_int 120) 50 (Some ["fast_1"; "fast_2"; "fast_3"]) (of_int 2).

Definition TankEnemy (waypoints : list Enemies.Vector) : outcome Enemies.BaseEnemy :=
  Enemies.init waypoints (of_int 60) 200 (Some ["tank_1"; "tank_2"]) (of_int 2).

(** The waypoint index designates a waypoint of the path. *)
Definition valid_index (e : Enemies.BaseEnemy (F:=F)) : Prop :=
  0 ≤ Enemies._waypoint_index e < Z.of_nat (length (Enemies._waypoints e)).

(** The frame index designates a frame (vacuous without frames). *)
Definition valid_frame (a : Enemies.AnimationState (F:=F)) : Prop :=
  Enemies.frames a = []
  ∨ 0 ≤ Enemies.current_frame_index a < Z.of_nat (length (Enemies.frames a)).

(** What [update] leaves alone. *)
Definition same_body (e e' : Enemies.BaseEnemy (F:=F)) : Prop :=
  Enemies._waypoints e' = Enemies._waypoints e
  ∧ Enemies.speed e' = Enemies.speed e
  ∧ Enemies.health e' = Enemies.health e
  ∧ Enemies.alive e' = Enemies.alive e
  ∧ Enemies.arrival_tolerance e' = Enemies.arrival_tolerance e.

(** How the movement loop relates the enemy and player before ([e],
    [player]) and after ([e'], [player']): the index stays valid and does
    not decrease, and either the goal flag and the player are untouched, or
    the goal is reached now, on the last waypoint, and the player loses a
    life. *)
Definition advanced (e : Enemies.BaseEnemy (F:=F)) (player : option Enemies.Player)
    (e' : Enemies.BaseEnemy (F:=F)) (player' : option Enemies.Player) : Prop :=
  same_body e e'
  ∧ valid_index e'
  ∧ Enemies._waypoint_index e ≤ Enemies._waypoint_index e'
  ∧ ((Enemies.reached_goal e' = Enemies.reached_goal e ∧ player' = player)
     ∨ (Enemies.reached_goal e = false ∧ Enemies.reached_goal e' = true
        ∧ player' = Enemies.lose_life <$> player
        ∧ Enemies._waypoint_index e' = Z.of_nat (length (Enemies._waypoints e)) - 1
        ∧ Enemies._waypoints e !! Z.to_nat (Enemies._waypoint_index e')
          = Some (Enemies.position e'))).

(** [take_damage] called once per amount, in order. *)
Definition take_damages (amounts : list Z) (e : Enemies.BaseEnemy (F:=F))
  : Enemies.BaseEnemy :=
  foldl (fun e amount => Enemies.take_damage amount e) e amounts.

End Kinds.
End EnemyKinds.

Module EnemiesMore.
Import Enemies EnemyKinds EnemiesFacts.
Section Facts.
Context {F : Type} `{Arith F}.

Lemma advanced_step (e e1 e' : BaseEnemy (F:=F)) (player player' : option Player) :
  same_body e e1 → reached_goal e1 = reached_goal e →
  _waypoint_index e ≤ _waypoint_index e1 →
  advanced e1 player e' player' → advanced e player e' player'.
Proof.
  intros (Hw & Hs & Hh & Ha & Ht) Hg Hi ((Hw' & Hs' & Hh' & Ha' & Ht') & Hv & Hi' & Hc).
  split; [|split; [done|split; [lia|]]].
  - unfold same_body. by rewrite Hw', Hs', Hh', Ha', Ht'.
  - rewrite <-Hg, <-Hw. exact Hc.
Qed.

(** The animation loop: when the clock falls below [frame_time] within
    [n] subtractions, the loop exits with frames and frame time untouched,
    the clock below [frame_time] and a frame index that designates a
    frame. *)
Lemma animation_loop_exits (n : nat) (a : AnimationState) :
  frames a ≠ [] →
  0 ≤ current_frame_index a < Z.of_nat (length (frames a)) →
  leb (frame_time a) (Nat.iter n (fun z => sub z (frame_time a)) (current_time a)) = false →
  ∀ fuel, (n < fuel)%nat →
    ∃ a', animation_loop fuel a = Some a'
          ∧ frames a' = frames a ∧ frame_time a' = frame_time a
          ∧ leb (frame_time a) (current_time a') = false
          ∧ 0 ≤ current_frame_index a' < Z.of_nat (length (frames a)).
Proof.
  intros Hframes. revert a Hframes.
  induction n as [|n IH]; intros a Hframes Hidx Hn fuel Hfuel;
    (destruct fuel as [|fuel]; [lia|]); simpl.
  - simpl in Hn. rewrite Hn. by exists a.
  - destruct (leb (frame_time a) (current_time a)) eqn:Hle; [|by exists a].
    rewrite Nat.iter_succ_r in Hn.
    assert (Hlen : 0 < Z.of_nat (length (frames a))).
    { destruct (frames a); [done|]. simpl. lia. }
    destruct (IH (mkAnimationState (frames a) (frame_time a)
                    (sub (current_time a) (frame_time a))
                    ((current_frame_index a + 1) `mod` Z.of_nat (length (frames a))))
                 Hframes) with (fuel := fuel) as (a' & Ha' & ? & ? & ? & ?);
      simpl; [by apply Z.mod_pos_bound|done|lia|].
    by exists a'.
Qed.

(** X8.  [take_damage] applied with non-negative amounts to a live enemy
    of positive health: the enemy stays alive exactly while the cumulative
    damage is below its health, its health then being the difference; once
    dead its health is [<= 0] and no longer changes, and nothing else of
    the enemy is touched.  A dead enemy ignores any damage. *)
Theorem take_damage_kills_at_zero_health (amounts : list Z) (e : BaseEnemy (F:=F)) :
  alive e = true → 0 < health e → Forall (fun amount => 0 ≤ amount) amounts →
  let e' := take_damages amounts e in
  let total := foldr Z.add 0 amounts in
  (alive e' = true ↔ total < health e)
  ∧ (alive e' = true → health e' = health e - total)
  ∧ (alive e' = false → health e' ≤ 0
       ∧ ∀ more, take_damages more e' = e')
  ∧ position e' = position e ∧ _waypoint_index e' = _waypoint_index e
  ∧ reached_goal e' = reached_goal e
  ∧ _waypoints e' = _waypoints e ∧ speed e' = speed e.
Proof.
  assert (Hstep : ∀ a (d : BaseEnemy (F:=F)), alive d = false → take_damage a d = d).
  { intros a d Hd. unfold take_damage. by rewrite Hd. }
  assert (Hdead : ∀ more (d : BaseEnemy (F:=F)),
            alive d = false → take_damages more d = d).
  { induction more as [|a more IH]; intros d Hd; [done|].
    change (take_damages (a :: more) d) with (take_damages more (take_damage a d)).
    rewrite Hstep by done. by apply IH. }
  intros Halive Hhealth Hamounts. revert e Halive Hhealth.
  induction Hamounts as [|a amounts Ha Hrest IH]; intros e Halive Hhealth; cbv zeta.
  { simpl. split; [by split; [lia|]|]. split; [intros _; lia|].
    split; [by rewrite Halive|]. done. }
  change (take_damages (a :: amounts) e)
    with (take_damages amounts (take_damage a e)).
  change (foldr Z.add 0 (a :: amounts)) with (a + foldr Z.add 0 amounts).
  assert (Hsum : 0 ≤ foldr Z.add 0 amounts).
  { clear -Hrest. induction Hrest; simpl; lia. }
  assert (He1 : take_damage a e =
                mkBaseEnemy (_waypoints e) (_waypoint_index e) (position e) (speed e)
                  (health e - a) (if health e - a <=? 0 then false else true)
                  (arrival_tolerance e) (animation e) (reached_goal e)).
  { unfold take_damage. by rewrite Halive. }
  rewrite He1. clear He1.
  destruct (Z.leb_spec (health e - a) 0) as [Hkill|Hlive].
  - rewrite Hdead by done. simpl.
    split; [split; [done|lia]|]. split; [done|].
    split; [intros _; split; [done|]; intros; by apply Hdead|].
    done.
  - specialize (IH (mkBaseEnemy (_waypoints e) (_waypoint_index e) (position e)
                      (speed e) (health e - a) true (arrival_tolerance e)
                      (animation e) (reached_goal e)) eq_refl Hlive).
    cbv zeta in IH. simpl in IH.
    destruct IH as (Hiff & Hh & Hd & ? & ? & ? & ? & ?).
    split; [rewrite Hiff; lia|]. split; [intros Hl; rewrite Hh by done; lia|].
    split; [done|]. done.
Qed.

(** X9.  [Player(lives)] raises [ValueError] iff [lives <= 0].  After [n]
    calls of [lose_life] a player built by the constructor has
    [max(0, lives - n)] lives, so lives are never negative, and it
    [is_alive] exactly while [n < lives]. *)
Theorem player_lives_floor_at_zero (lives0 : Z) (n : nat) :
  (Player_init lives0 = Raised ValueError ↔ lives0 ≤ 0)
  ∧ ∀ p, Player_init lives0 = Returned p →
      lives p = lives0
      ∧ lives (Nat.iter n lose_life p) = Z.max 0 (lives0 - Z.of_nat n)
      ∧ (is_alive (Nat.iter n lose_life p) = true ↔ Z.of_nat n < lives0).
Proof.
  unfold Player_init. destruct (Z.leb_spec lives0 0) as [Hle|Hgt].
  { split; [done|]. by intros p. }
  split; [split; [done|lia]|]. intros p [= <-]. simpl.
  assert (Hiter : lives (Nat.iter n lose_life (mkPlayer lives0))
                  = Z.max 0 (lives0 - Z.of_nat n)).
  { induction n as [|n IH]; simpl; [lia|].
    unfold lose_life at 1. rewrite IH.
    destruct (Z.ltb_spec 0 (Z.max 0 (lives0 - Z.of_nat n))); simpl; lia. }
  split; [done|]. split; [done|].
  unfold is_alive. rewrite Hiter, Z.ltb_lt. lia.
Qed.

(** X10.  [BaseEnemy(waypoints, ...)] raises [ValueError] iff the path is
    empty.  Otherwise the enemy starts on the first waypoint with
    waypoint index 0, alive, not at the goal, with the given speed, health
    and tolerance, and with a valid frame index; [FastEnemy] and
    [TankEnemy] are such enemies with their own fixed stats. *)
Theorem init_requires_a_waypoint (waypoints : list Vector) (speed0 : F) (health0 : Z)
    (animation_frames : option (list string)) (tolerance : F) :
  (init waypoints speed0 health0 animation_frames tolerance = Raised ValueError
   ↔ waypoints = [])
  ∧ (∀ e, init waypoints speed0 health0 animation_frames tolerance = Returned e →
       head waypoints = Some (position e)
       ∧ _waypoints e = waypoints ∧ _waypoint_index e = 0 ∧ valid_index e
       ∧ alive e = true ∧ reached_goal e = false
       ∧ speed e = speed0 ∧ health e = health0 ∧ arrival_tolerance e = tolerance
       ∧ valid_frame (animation e)
       ∧ target_waypoint e = Returned (position e))
  ∧ (FastEnemy waypoints = Raised ValueError ↔ waypoints = [])
  ∧ (TankEnemy waypoints = Raised ValueError ↔ waypoints = [])
  ∧ (∀ fast tank, FastEnemy waypoints = Returned fast →
       TankEnemy waypoints = Returned tank →
       health fast = 50 ∧ health tank = 200
       ∧ speed fast = of_int 120 ∧ speed tank = of_int 60
       ∧ position fast = position tank).
Proof.
  unfold FastEnemy, TankEnemy, init.
  destruct waypoints as [|first rest]; simpl.
  { repeat split; try done. }
  repeat split; try done; intros; simplify_eq; simpl; try done.
  unfold valid_frame. simpl. destruct animation_frames as [[|f fs]|]; simpl;
    [by left|right; lia|by left].
Qed.

(** X7.  [AnimationState.update(dt)] with a valid frame index, for a
    [dt] from which the clock runs down: it returns, leaves frames and
    frame time alone, keeps the frame index valid, so that [current_frame]
    does not raise, and, when there are frames, leaves the clock below
    [frame_time].  Without frames it does nothing. *)
Theorem animation_update_keeps_frame_valid (dt : F) (a : AnimationState) :
  clock_runs_down dt a →
  valid_frame a →
  ∃ fuel0, ∀ fuel, (fuel0 ≤ fuel)%nat →
    ∃ a', AnimationState_update fuel dt a = Some a'
          ∧ frames a' = frames a ∧ frame_time a' = frame_time a
          ∧ valid_frame a'
          ∧ (frames a = [] → a' = a)
          ∧ (frames a ≠ [] → leb (frame_time a') (current_time a') = false)
          ∧ ∃ frame, current_frame a' = Returned frame
                     ∧ (frame = None ↔ frames a = []).
Proof.
  intros Hclock Hvalid. unfold AnimationState_update, valid_frame, current_frame.
  destruct (frames a) as [|f fs] eqn:Hfr.
  { exists O. intros fuel _. exists a. rewrite Hfr.
    split; [done|]. split; [done|]. split; [done|]. split; [left; reflexivity|].
    split; [done|]. split; [done|]. exists None. by split. }
  destruct Hvalid as [?|Hidx]; [congruence|]. rewrite Hfr in Hidx.
  destruct Hclock as [?|[n Hn]]; [congruence|].
  exists (S n). intros fuel Hfuel.
  destruct (animation_loop_exits n
              (mkAnimationState (f :: fs) (frame_time a)
                 (add (current_time a) dt) (current_frame_index a)))
    with (fuel := fuel) as (a' & -> & Hfr' & Hft' & Hexit & Hidx');
    simpl; [done|done|done|lia|].
  simpl in *. exists a'. rewrite Hfr', Hft'.
  split; [done|]. split; [done|]. split; [done|]. split; [by right|].
  split; [done|]. split; [done|].
  destruct (getitem_in_range (f :: fs) (current_frame_index a') Hidx')
    as (frame & -> & _).
  exists (Some frame). split; [done|]. by split.
Qed.

End Facts.

Section Timed.
Context {F : Type} `{MotionLaws F}.

(** What a call that came back has done: it returned an enemy that
    advanced along the path, or raised what a square raised. *)
Definition advanced_or_overflowed (e : BaseEnemy (F:=F)) (player : option Player)
    (r : outcome (BaseEnemy (F:=F) * option Player)) : Prop :=
  match r with
  | Returned (e', player') => advanced e player e' player'
  | Raised ex => ∃ x : F, pow_int_raises x 2 = Some ex
  end.

(** The movement loop from a valid index: it comes back, the only
    exception being that of a square; when it returns, the index is
    still valid and has not decreased, and the goal is reached at most
    once, on the last waypoint. *)
Lemma move_loop_returns (fuel : nat) (remaining : F) (e : BaseEnemy (F:=F))
    (player : option Player) :
  valid_index e →
  (Z.to_nat (Z.of_nat (length (_waypoints e)) - _waypoint_index e) < fuel)%nat →
  ∃ r, move_loop fuel remaining e player = Some r
       ∧ advanced_or_overflowed e player r.
Proof using Type*.
  revert remaining e.
  induction fuel as [|fuel IH]; intros remaining e Hvalid Hfuel; [lia|].
  assert (Hrefl : advanced e player e player).
  { split; [by unfold same_body|]. split; [done|]. split; [lia|]. by left. }
  simpl.
  destruct (ltb zero remaining && negb (reached_goal e)) eqn:Hgo;
    [|by exists (Returned (e, player))].
  apply andb_prop in Hgo as [_ Hgoal]. apply negb_true_iff in Hgoal.
  unfold target_waypoint.
  destruct (getitem_in_range (_waypoints e) (_waypoint_index e) Hvalid)
    as ([tx ty] & -> & Htarget).
  destruct (position e) as [cx cy] eqn:Hpos.
  assert (Hsnap : ∀ budget,
    ∃ r,
      (if at_last_waypoint (with_position (tx, ty) e)
       then Some (Returned (_on_goal_reached (with_position (tx, ty) e) player))
       else move_loop fuel budget
              (with_waypoint_index (_waypoint_index (with_position (tx, ty) e) + 1)
                 (with_position (tx, ty) e)) player)
      = Some r
      ∧ advanced_or_overflowed e player r).
  { intros budget. unfold at_last_waypoint. simpl.
    unfold valid_index in Hvalid.
    destruct (Z.leb_spec (Z.of_nat (length (_waypoints e))) (_waypoint_index e + 1))
      as [Hlast|Hmore].
    - eexists. split; [done|]. simpl.
      split; [by unfold same_body|]. split; [unfold valid_index; simpl; lia|].
      split; [simpl; lia|]. right. simpl.
      split; [done|]. split; [done|]. split; [done|]. split; [lia|].
      by replace (Z.of_nat (length (_waypoints e)) - 1) with (_waypoint_index e)
        by lia.
    - destruct (IH budget (with_waypoint_index (_waypoint_index e + 1)
                             (with_position (tx, ty) e)))
        as (r & -> & Hr).
      { unfold valid_index. simpl. lia. }
      { simpl. lia. }
      exists r. split; [done|].
      destruct r as [[e' player']|ex]; [|exact Hr]. simpl in *.
      eapply advanced_step; [| | |exact Hr]; simpl; [|done|lia].
      by unfold same_body. }
  unfold distance, float_pow, checked.
  destruct (pow_int_raises (sub tx cx) 2) as [ex|] eqn:Hsquare_x; simpl.
  { exists (Raised ex). split; [done|]. by exists (sub tx cx). }
  destruct (pow_int_raises (sub ty cy) 2) as [ex|] eqn:Hsquare_y; simpl.
  { exists (Raised ex). split; [done|]. by exists (sub ty cy). }
  destruct (leb _ (arrival_tolerance e)); [apply Hsnap|].
  destruct (leb _ remaining); [apply Hsnap|].
  destruct fuel as [|fuel]; [unfold valid_index in Hvalid; lia|].
  simpl. rewrite ltb_irrefl. simpl.
  eexists. split; [done|]. simpl.
  split; [by unfold same_body|]. split; [done|]. split; [simpl; lia|]. by left.
Qed.

(** X6.  [update(dt, player=...)] on an enemy whose waypoint index is
    valid, for a [dt] from which the animation clock runs down: the call
    comes back, and [IndexError] is impossible: the only exception is the
    one a square of the distance computation may raise.  When it returns,
    waypoints, speed, health, liveness and tolerance are untouched; the
    waypoint index stays valid and never decreases; and the player loses a
    life at most once, exactly when the goal is reached in this call, the
    enemy then standing on the last waypoint.  A dead enemy or one that
    has reached the goal is returned as it is. *)
Theorem update_advances_along_path (dt : F) (e : BaseEnemy (F:=F))
    (player : option Player) :
  valid_index e →
  clock_runs_down dt (animation e) →
  ∃ fuel0, ∀ fuel, (fuel0 ≤ fuel)%nat →
    ∃ r,
      update fuel dt e player = Some r
      ∧ advanced_or_overflowed e player r
      ∧ (alive e = false ∨ reached_goal e = true → r = Returned (e, player)).
Proof using Type*.
  intros Hvalid Hclock. unfold update.
  destruct (negb (alive e) || reached_goal e) eqn:Hskip.
  { exists O. intros fuel _. exists (Returned (e, player)).
    split; [done|]. split; [|done]. simpl.
    split; [by unfold same_body|]. split; [done|]. split; [lia|]. by left. }
  apply orb_false_elim in Hskip as [Halive Hgoal].
  apply negb_false_iff in Halive.
  destruct (AnimationState_update_terminates dt (animation e) Hclock)
    as [fuel0 Hanim].
  exists (fuel0 + S (Z.to_nat (Z.of_nat (length (_waypoints e)) - _waypoint_index e)))%nat.
  intros fuel Hfuel. destruct (Hanim fuel) as [a ->]; [lia|].
  destruct (move_loop_returns fuel (mul (speed e) dt) (with_animation a e) player)
    as (r & -> & Hr); [done|simpl; lia|].
  exists r. split; [done|]. split.
  - destruct r as [[e' player']|ex]; [|exact Hr]. simpl in *.
    eapply advanced_step; [| | |exact Hr]; simpl; [by unfold same_body|done|lia].
  - intros [?|?]; congruence.
Qed.

End Timed.
End EnemiesMore.

(** * towers/base_tower.py *)

Module TowerUpgrade.
Record t (F : Type) : Type := mk {
  cost : Z;
  range_bonus : F;
  fire_rate_bonus : F;
  damage_bonus : F;
}.
Arguments mk {F}.
Arguments cost {F}.
Arguments range_bonus {F}.
Arguments fire_rate_bonus {F}.
Arguments damage_bonus {F}.
End TowerUpgrade.

Module TowerBase.
Section BaseTower.
Context {F : Type} `{Arith F} {T : Type} `{Towers.TargetLike F T}.
(** [float("inf")] *)
Context (inf : F).

(** Targets are objects shared between the game, the tower and its
    projectiles: a reference names one, the heap holds their states. *)
Definition ref : Type := nat.
Definition heap : Type := ref → T.

(** The heap after the object at [r] has been mutated into [t]. *)
Definition store (h : heap) (r : ref) (t : T) : heap :=
  λ r', if decide (r' = r) then t else h r'.

Record BaseTower : Type := mkBaseTower {
  position : F * F;
  range : F;
  fire_rate : F;
  damage : F;
  cost : Z;
  projectile_speed : F;
  upgrades : list (TowerUpgrade.t F);
  target : option ref;
  cooldown : F;
  level : Z;
  projectiles : list (Towers.Projectile (F:=F) * ref);
}.

(** The dataclass constructor; [projectile_speed] defaults to [400.0] and
    [upgrades] to the empty list. *)
Definition init (position : F * F) (range fire_rate damage : F) (cost : Z)
    (projectile_speed : F) (upgrades : list (TowerUpgrade.t F)) : BaseTower :=
  mkBaseTower position range fire_rate damage cost projectile_speed upgrades
    None zero 1 [].

Definition distance_to (tower : BaseTower) (t : T) : F :=
  let '(tx, ty) := Towers.target_position t in
  let '(x, y) := position tower in
  pow_half (add (pow_int (sub tx x) 2) (pow_int (sub ty y) 2)).

(** The [for enemy in enemies] loop of [select_target]. *)
Fixpoint select_loop (tower : BaseTower) (h : heap) (enemies : list ref)
    (closest : option ref) (closest_distance : F) : option ref :=
  match enemies with
  | [] => closest
  | enemy :: rest =>
      if negb (Towers.target_is_alive (h enemy))
      then select_loop tower h rest closest closest_distance
      else
        let distance := distance_to tower (h enemy) in
        if leb distance (range tower) && ltb distance closest_distance
        then select_loop tower h rest (Some enemy) distance
        else select_loop tower h rest closest closest_distance
  end.

Definition select_target (tower : BaseTower) (enemies : list ref) (h : heap)
  : option ref :=
  select_loop tower h enemies None inf.

Definition new_projectile (tower : BaseTower) : Towers.Projectile (F:=F) :=
  Towers.mkProjectile (position tower) (projectile_speed tower) (damage tower) false.

Definition shoot (tower : BaseTower) (r : ref) : BaseTower :=
  mkBaseTower (position tower) (range tower) (fire_rate tower) (damage tower)
    (cost tower) (projectile_speed tower) (upgrades tower) (target tower)
    (if ltb zero (fire_rate tower) then div one (fire_rate tower) else zero)
    (level tower)
    (projectiles tower ++ [(new_projectile tower, r)]).

(** The loop of [update_projectiles]: each projectile is advanced against
    the current state of its target, which it may mutate. *)
Fixpoint advance_projectiles (dt : F) (ps : list (Towers.Projectile (F:=F) * ref)) (h : heap)
  : list (Towers.Projectile (F:=F) * ref) * heap :=
  match ps with
  | [] => ([], h)
  | (p, r) :: rest =>
      let '(p', t') := Towers.update dt p (h r) in
      let '(still_active, h') := advance_projectiles dt rest (store h r t') in
      (if Towers.finished p' then still_active else (p', r) :: still_active, h')
  end.

Definition with_projectiles (ps : list (Towers.Projectile (F:=F) * ref)) (tower : BaseTower)
  : BaseTower :=
  mkBaseTower (position tower) (range tower) (fire_rate tower) (damage tower)
    (cost tower) (projectile_speed tower) (upgrades tower) (target tower)
    (cooldown tower) (level tower) ps.

Definition with_cooldown (c : F) (tower : BaseTower) : BaseTower :=
  mkBaseTower (position tower) (range tower) (fire_rate tower) (damage tower)
    (cost tower) (projectile_speed tower) (upgrades tower) (target tower)
    c (level tower) (projectiles tower).

Definition with_target (r : option ref) (tower : BaseTower) : BaseTower :=
  mkBaseTower (position tower) (range tower) (fire_rate tower) (damage tower)
    (cost tower) (projectile_speed tower) (upgrades tower) r
    (cooldown tower) (level tower) (projectiles tower).

Definition update_projectiles (dt : F) (tower : BaseTower) (h : heap)
  : BaseTower * heap :=
  let '(still_active, h') := advance_projectiles dt (projectiles tower) h in
  (with_projectiles still_active tower, h').

(** Python's [max(a, b)]: [b] only when [b > a]. *)
Definition pymax (a b : F) : F := if ltb a b then b else a.

Definition must_reselect (tower : BaseTower) (h : heap) : bool :=
  match target tower with
  | None => true
  | Some r =>
      negb (Towers.target_is_alive (h r))
      || ltb (range tower) (distance_to tower (h r))
  end.

Definition update (dt : F) (tower : BaseTower) (enemies : list ref) (h : heap)
  : BaseTower * heap :=
  let tower :=
    if ltb zero (cooldown tower)
    then with_cooldown (pymax zero (sub (cooldown tower) dt)) tower
    else tower in
  let '(tower, h) := update_projectiles dt tower h in
  let tower :=
    if must_reselect tower h
    then with_target (select_target tower enemies h) tower
    else tower in
  match target tower with
  | Some r => if leb (cooldown tower) zero then (shoot tower r, h) else (tower, h)
  | None => (tower, h)
  end.

Definition can_upgrade (tower : BaseTower) : bool :=
  level tower - 1 <? Z.of_nat (length (upgrades tower)).

Definition upgrade_cost (tower : BaseTower) : outcome (option Z) :=
  if negb (can_upgrade tower) then Returned None
  else u ← getitem (upgrades tower) (level tower - 1);
       Returned (Some (TowerUpgrade.cost u)).

Definition apply_upgrade (tower : BaseTower) : outcome bool * BaseTower :=
  if negb (can_upgrade tower) then (Returned false, tower)
  else
    match getitem (upgrades tower) (level tower - 1) with
    | Raised e => (Raised e, tower)
    | Returned upgrade =>
        (Returned true,
         mkBaseTower (position tower)
           (add (range tower) (TowerUpgrade.range_bonus upgrade))
           (add (fire_rate tower) (TowerUpgrade.fire_rate_bonus upgrade))
           (add (damage tower) (TowerUpgrade.damage_bonus upgrade))
           (cost tower) (projectile_speed tower) (upgrades tower) (target tower)
           (cooldown tower) (level tower + 1) (projectiles tower))
    end.


(** [apply_upgrade] called [n] times, results ignored. *)
Definition apply_upgrades (n : nat) (tower : BaseTower) : BaseTower :=
  Nat.iter n (fun tower => snd (apply_upgrade tower)) tower.

End BaseTower.
End TowerBase.

Module TowerFacts.
Import TowerBase.
Section Selection.
Context {F : Type} `{TimeOrder F} {T : Type} `{!Towers.TargetLike F T}.







End Selection.

Section Ladder.
Context {F : Type} `{Arith F}.

Lemma apply_upgrade_step (tower : BaseTower (F:=F)) :
  1 ≤ level tower →
  match upgrades tower !! Z.to_nat (level tower - 1) with
  | Some upgrade =>
      can_upgrade tower = true
      ∧ upgrade_cost tower = Returned (Some (TowerUpgrade.cost upgrade))
      ∧ apply_upgrade tower =
          (Returned true,
           mkBaseTower (position tower)
             (add (range tower) (TowerUpgrade.range_bonus upgrade))
             (add (fire_rate tower) (TowerUpgrade.fire_rate_bonus upgrade))
             (add (damage tower) (TowerUpgrade.damage_bonus upgrade))
             (cost tower) (projectile_speed tower) (upgrades tower) (target tower)
             (cooldown tower) (level tower + 1) (projectiles tower))
  | None =>
      can_upgrade tower = false
      ∧ upgrade_cost tower = Returned None
      ∧ apply_upgrade tower = (Returned false, tower)
  end.
Proof.
  intros Hlevel. unfold upgrade_cost, apply_upgrade, can_upgrade.
  destruct (upgrades tower !! Z.to_nat (level tower - 1)) as [upgrade|] eqn:Hu.
  - pose proof (lookup_lt_Some _ _ _ Hu) as Hlt.
    destruct (Z.ltb_spec (level tower - 1) (Z.of_nat (length (upgrades tower))));
      [|lia]. simpl.
    destruct (getitem_in_range (upgrades tower) (level tower - 1))
      as (u & -> & Hu'); [lia|].
    assert (u = upgrade) as -> by congruence.
    done.
  - apply lookup_ge_None in Hu.
    by destruct (Z.ltb_spec (level tower - 1) (Z.of_nat (length (upgrades tower))));
      [lia|].
Qed.

(** X12.  The upgrade ladder of a tower at level 1: after [n] calls of
    [apply_upgrade] the level is [1 + min(n, len(upgrades))], range, fire
    rate and damage are the base values with the bonuses of the first [n]
    rungs added in order, and nothing else has changed (the running
    cooldown included).  At that point [can_upgrade] holds iff
    [n < len(upgrades)], [upgrade_cost] is the cost of rung [n] or [None],
    and [apply_upgrade] returns whether a rung was left; none of them
    raises. *)
Theorem upgrade_ladder (tower : BaseTower (F:=F)) (n : nat) :
  level tower = 1 →
  let tower' := apply_upgrades n tower in
  let rungs := take n (upgrades tower) in
  level tower' = 1 + Z.of_nat (n `min` length (upgrades tower))
  ∧ range tower' = foldl add (range tower) (TowerUpgrade.range_bonus <$> rungs)
  ∧ fire_rate tower' = foldl add (fire_rate tower) (TowerUpgrade.fire_rate_bonus <$> rungs)
  ∧ damage tower' = foldl add (damage tower) (TowerUpgrade.damage_bonus <$> rungs)
  ∧ upgrades tower' = upgrades tower
  ∧ position tower' = position tower ∧ cost tower' = cost tower
  ∧ projectile_speed tower' = projectile_speed tower
  ∧ target tower' = target tower ∧ cooldown tower' = cooldown tower
  ∧ projectiles tower' = projectiles tower
  ∧ can_upgrade tower' = bool_decide (n < length (upgrades tower))%nat
  ∧ upgrade_cost tower' = Returned (TowerUpgrade.cost <$> upgrades tower !! n)
  ∧ fst (apply_upgrade tower') = Returned (bool_decide (n < length (upgrades tower))%nat).
Proof.
  intros Hlevel. cbv zeta.
  assert (Hstate :
    level (apply_upgrades n tower) = 1 + Z.of_nat (n `min` length (upgrades tower))
    ∧ range (apply_upgrades n tower)
      = foldl add (range tower) (TowerUpgrade.range_bonus <$> take n (upgrades tower))
    ∧ fire_rate (apply_upgrades n tower)
      = foldl add (fire_rate tower)
          (TowerUpgrade.fire_rate_bonus <$> take n (upgrades tower))
    ∧ damage (apply_upgrades n tower)
      = foldl add (damage tower) (TowerUpgrade.damage_bonus <$> take n (upgrades tower))
    ∧ upgrades (apply_upgrades n tower) = upgrades tower
    ∧ position (apply_upgrades n tower) = position tower
    ∧ cost (apply_upgrades n tower) = cost tower
    ∧ projectile_speed (apply_upgrades n tower) = projectile_speed tower
    ∧ target (apply_upgrades n tower) = target tower
    ∧ cooldown (apply_upgrades n tower) = cooldown tower
    ∧ projectiles (apply_upgrades n tower) = projectiles tower).
  { induction n as [|n IH].
    { simpl. rewrite Hlevel. by repeat split. }
    destruct IH as (Hl & Hr & Hf & Hd & Hu & Hp & Hc & Hs & Ht & Hcd & Hps).
    change (apply_upgrades (S n) tower)
      with (snd (apply_upgrade (apply_upgrades n tower))).
    pose proof (apply_upgrade_step (apply_upgrades n tower)) as Hstep.
    rewrite Hl, Hu in Hstep.
    replace (Z.to_nat (1 + Z.of_nat (n `min` length (upgrades tower)) - 1))
      with (n `min` length (upgrades tower))%nat in Hstep by lia.
    specialize (Hstep ltac:(lia)).
    destruct (decide (n < length (upgrades tower))%nat) as [Hlt|Hge].
    - rewrite Nat.min_l in Hstep by lia.
      destruct (upgrades tower !! n) as [upgrade|] eqn:Hn;
        [|apply lookup_ge_None in Hn; lia].
      destruct Hstep as (_ & _ & ->).
      cbn [snd level range fire_rate damage upgrades position cost
           projectile_speed target cooldown projectiles].
      rewrite (take_S_r _ _ _ Hn), !fmap_app, !foldl_app.
      cbn [fmap list_fmap foldl]. rewrite Hr, Hf, Hd.
      split; [lia|]. by repeat split.
    - rewrite Nat.min_r in Hstep by lia.
      rewrite (lookup_ge_None_2 (upgrades tower) (length (upgrades tower)))
        in Hstep by lia.
      destruct Hstep as (_ & _ & ->).
      cbn [snd]. rewrite !take_ge in * by lia.
      split; [lia|]. by repeat split. }
  destruct Hstate as (Hl & Hr & Hf & Hd & Hu & Hp & Hc & Hs & Ht & Hcd & Hps).
  do 11 (split; [done|]).
  pose proof (apply_upgrade_step (apply_upgrades n tower)) as Hstep.
  rewrite Hl, Hu in Hstep.
  replace (Z.to_nat (1 + Z.of_nat (n `min` length (upgrades tower)) - 1))
    with (n `min` length (upgrades tower))%nat in Hstep by lia.
  specialize (Hstep ltac:(lia)).
  destruct (decide (n < length (upgrades tower))%nat) as [Hlt|Hge].
  - rewrite Nat.min_l in Hstep by lia.
    rewrite bool_decide_eq_true_2 by done.
    destruct (upgrades tower !! n) as [upgrade|] eqn:Hn;
      [|apply lookup_ge_None in Hn; lia].
    destruct Hstep as (-> & -> & ->). done.
  - rewrite Nat.min_r in Hstep by lia.
    rewrite bool_decide_eq_false_2 by done.
    rewrite (lookup_ge_None_2 (upgrades tower) (length (upgrades tower)))
      in Hstep by lia.
    rewrite (lookup_ge_None_2 (upgrades tower) n) by lia.
    destruct Hstep as (-> & -> & ->). done.
Qed.

End Ladder.

Section Combat.
Context {F : Type} `{Arith F} {T : Type} `{!Towers.TargetLike F T}.




End Combat.
End TowerFacts.

(** * Further properties of the build manager (ui/build_manager.py) *)

Module BuildMore.
Import Build BuildFacts.

(** The managers a game reaches from [BuildManager(tile_size, blocked)]
    through [begin_build], [cancel], [update_preview] and
    [confirm_build]. *)
Inductive reachable (tile_size : Z) (blocked : option (list GridPosition))
  : BuildManager → Prop :=
  | reach_init : reachable tile_size blocked (init tile_size blocked)
  | reach_begin_build bm button money :
      reachable tile_size blocked bm →
      reachable tile_size blocked (snd (begin_build bm button money))
  | reach_cancel bm :
      reachable tile_size blocked bm →
      reachable tile_size blocked (cancel bm)
  | reach_update_preview bm mouse occupied money :
      reachable tile_size blocked bm →
      reachable tile_size blocked (snd (update_preview bm mouse occupied money))
  | reach_confirm_build bm occupied money :
      reachable tile_size blocked bm →
      reachable tile_size blocked (snd (fst (confirm_build bm occupied money))).

(** X14.  [update_preview] with a button selected and a positive tile
    size: the previewed cell is the one that contains the mouse position
    (floor division, also for negative coordinates), its pixel position is
    the cell's corner, and [can_build] holds iff the money covers the
    button's cost and the cell is neither blocked nor occupied, the colour
    following [can_build].  Without a selected button the preview is
    cleared and [None] returned; with a tile size of 0 it raises
    [ZeroDivisionError] and changes nothing. *)
Theorem update_preview_snaps_to_grid (bm : BuildManager) (mouse : Z * Z)
    (occupied : gset GridPosition) (money : Z) :
  (∀ button, _selected_button bm = Some button → 0 < tile_size bm →
     ∃ pv,
       update_preview bm mouse occupied money
       = (Returned (Some pv),
          mkBuildManager (tile_size bm) (blocked_tiles bm) (Some button) (Some pv))
       ∧ pixel_position pv
         = (fst (grid_position pv) * tile_size bm, snd (grid_position pv) * tile_size bm)
       ∧ fst (pixel_position pv) ≤ fst mouse < fst (pixel_position pv) + tile_size bm
       ∧ snd (pixel_position pv) ≤ snd mouse < snd (pixel_position pv) + tile_size bm
       ∧ (can_build pv = true
          ↔ (cost button ≤ money
             ∧ (grid_position pv ∉ blocked_tiles bm)
             ∧ (grid_position pv ∉ occupied)))
       ∧ color pv = (if can_build pv then PREVIEW_OK_COLOR else PREVIEW_FORBIDDEN_COLOR))
  ∧ (_selected_button bm = None →
     update_preview bm mouse occupied money
     = (Returned None, mkBuildManager (tile_size bm) (blocked_tiles bm) None None))
  ∧ (is_Some (_selected_button bm) → tile_size bm = 0 →
     update_preview bm mouse occupied money = (Raised ZeroDivisionError, bm)).
Proof.
  unfold update_preview, _snap_to_grid, floordiv, _can_place.
  split; [|split].
  - intros button Hbutton Hsize. rewrite Hbutton.
    destruct (Z.eqb_spec (tile_size bm) 0) as [?|_]; [lia|]. simpl.
    eexists. split; [done|]. simpl.
    pose proof (Z.mod_pos_bound (fst mouse) (tile_size bm) Hsize).
    pose proof (Z.mod_pos_bound (snd mouse) (tile_size bm) Hsize).
    pose proof (Z.div_mod (fst mouse) (tile_size bm)).
    pose proof (Z.div_mod (snd mouse) (tile_size bm)).
    split; [done|]. split; [lia|]. split; [lia|]. split; [|done].
    destruct (Z.ltb_spec money (cost button)).
    { split; [done|]. lia. }
    case_bool_decide as Hblocked.
    { split; [done|]. by intros (_ & ? & _). }
    case_bool_decide as Hocc; simpl.
    { split; [done|]. by intros (_ & _ & ?). }
    split; [|done]. intros _. split; [lia|]. done.
  - by intros ->.
  - intros [button Hbutton] Hsize. rewrite Hbutton, Hsize. done.
Qed.

(** What every reachable manager satisfies: tile size and blocked tiles
    are those of the constructor, a preview exists only while a button is
    selected, and a preview flagged [can_build] is not on a blocked
    tile. *)
Lemma reachable_preview (tile_size0 : Z) (blocked : option (list GridPosition))
    (bm : BuildManager) :
  reachable tile_size0 blocked bm →
  tile_size bm = tile_size0
  ∧ blocked_tiles bm = blocked_tiles (init tile_size0 blocked)
  ∧ ∀ pv, preview bm = Some pv →
      is_Some (_selected_button bm)
      ∧ (can_build pv = true → grid_position pv ∉ blocked_tiles bm).
Proof.
  induction 1 as [|bm button money _ IH|bm _ IH|bm mouse occupied money _ IH
                  |bm occupied money _ IH].
  - by repeat split.
  - destruct IH as (Hts & Hbl & Hpv). unfold begin_build.
    destruct (money <? cost button); simpl; [done|]. by repeat split.
  - destruct IH as (Hts & Hbl & Hpv). by repeat split.
  - destruct IH as (Hts & Hbl & Hpv). unfold update_preview.
    destruct (_selected_button bm) as [button|] eqn:Hbutton; simpl;
      [|by repeat split].
    destruct (_snap_to_grid bm mouse) as [cell|e]; simpl;
      [|by rewrite Hbutton].
    split; [done|]. split; [done|]. intros pv [= <-]. simpl.
    split; [done|]. unfold _can_place. rewrite Hbutton.
    destruct (money <? cost button); [done|].
    by case_bool_decide.
  - destruct IH as (Hts & Hbl & Hpv).
    assert (Hsame : snd (fst (confirm_build bm occupied money)) = bm
                    ∨ snd (fst (confirm_build bm occupied money)) = cancel bm).
    { unfold confirm_build.
      destruct (preview bm) as [pv|]; [|by left].
      destruct (_selected_button bm) as [button|]; [|by left].
      destruct (negb (can_build pv)); [by left|].
      destruct (money <? cost button); [by left|by right]. }
    destruct Hsame as [-> | ->]; [done|by repeat split].
Qed.

(** X15.  In a game that uses the manager through its methods,
    [confirm_build] never places a tower on a blocked tile: whenever it
    returns a button, the cell it inserts is the previewed one and is not
    among the manager's blocked tiles (the default path tiles when the
    constructor got none). *)
Theorem confirm_build_avoids_blocked_tiles (tile_size0 : Z)
    (blocked : option (list GridPosition)) (bm : BuildManager)
    (occupied : gset GridPosition) (money : Z) (button : TowerButton) :
  reachable tile_size0 blocked bm →
  fst (fst (confirm_build bm occupied money)) = Some button →
  ∃ pv, preview bm = Some pv
        ∧ snd (confirm_build bm occupied money) = {[ grid_position pv ]} ∪ occupied
        ∧ (grid_position pv ∉ blocked_tiles bm)
        ∧ (blocked = None ∨ blocked = Some [] →
           grid_position pv ∉ BLOCKED_TILES).
Proof.
  intros Hreach Hbutton.
  destruct (reachable_preview _ _ _ Hreach) as (_ & Hbl & Hpv).
  unfold confirm_build in *.
  destruct (preview bm) as [pv|]; [|done].
  destruct (_selected_button bm) as [b|]; [|done].
  destruct (can_build pv) eqn:Hcan; [|done]. simpl in *.
  destruct (money <? cost b); [done|]. simpl in *.
  destruct (Hpv pv eq_refl) as [_ Hfree]. specialize (Hfree Hcan).
  exists pv. split; [done|]. split; [done|]. split; [done|].
  intros Hdefault Hin. apply Hfree. rewrite Hbl. simpl.
  apply elem_of_list_to_set.
  by destruct Hdefault as [->| ->].
Qed.

(** X16.  No second tower on a cell.  After [begin_build] with enough
    money, a preview that allows building and [confirm_build], the cell is
    occupied; from then on, whichever button is selected and however much
    money there is, a preview of a mouse position in that cell is flagged
    not buildable and [confirm_build] returns [None], leaving the occupied
    set as it is. *)
Theorem no_second_tower_on_a_cell (bm : BuildManager) (button : TowerButton)
    (money : Z) (mouse : Z * Z) (occupied : gset GridPosition) (pv : BuildPreview) :
  cost button ≤ money →
  let selecting := snd (begin_build bm button money) in
  update_preview selecting mouse occupied money
  = (Returned (Some pv), mkBuildManager (tile_size bm) (blocked_tiles bm)
                           (Some button) (Some pv)) →
  can_build pv = true →
  let previewing := snd (update_preview selecting mouse occupied money) in
  let occupied' := snd (confirm_build previewing occupied money) in
  confirm_build previewing occupied money
  = (Some button, cancel bm, {[ grid_position pv ]} ∪ occupied)
  ∧ grid_position pv ∈ occupied'
  ∧ ∀ button' money' mouse' pv',
      fst (update_preview (snd (begin_build (cancel bm) button' money')) mouse'
             occupied' money')
      = Returned (Some pv') →
      grid_position pv' = grid_position pv →
      can_build pv' = false
      ∧ confirm_build
          (snd (update_preview (snd (begin_build (cancel bm) button' money')) mouse'
                  occupied' money'))
          occupied' money'
        = (None,
           snd (update_preview (snd (begin_build (cancel bm) button' money')) mouse'
                  occupied' money'),
           occupied').
Proof.
  intros Hmoney selecting Hpreview Hcan previewing occupied'.
  assert (Hconfirm : confirm_build previewing occupied money
                     = (Some button, cancel bm, {[ grid_position pv ]} ∪ occupied)).
  { subst previewing. rewrite Hpreview. simpl.
    rewrite (confirm_build_success _ occupied money button pv); done. }
  split; [done|]. subst occupied'. rewrite Hconfirm. simpl.
  split; [set_solver|].
  intros button' money' mouse' pv' Hpv' Hcell.
  unfold begin_build in *.
  destruct (Z.ltb_spec money' (cost button')); simpl in *.
  { unfold update_preview in Hpv'. simpl in Hpv'. done. }
  unfold update_preview in *. simpl in *.
  destruct (_snap_to_grid _ mouse') as [cell|e] eqn:Hsnap; simpl in *; [|done].
  injection Hpv' as <-. simpl in *. subst cell.
  assert (Hno : _can_place
                  (mkBuildManager (tile_size bm) (blocked_tiles bm) (Some button') None)
                  (grid_position pv) ({[ grid_position pv ]} ∪ occupied) money'
                = false).
  { unfold _can_place. simpl. destruct (money' <? cost button'); [done|].
    case_bool_decide; [done|]. rewrite bool_decide_eq_true_2; [done|set_solver]. }
  split; [done|]. unfold confirm_build. simpl. by rewrite Hno.
Qed.

End BuildMore.

(** * Further properties of the difficulty scaler (tds/game.py) *)

Module ScalerMore.
Import Scaler ScalerFacts.
Section Facts.
Context {F : Type} `{Arith F} `{FloatErrors F}.

Lemma insert_by_wave_sorted (x : WaveBlueprint.t F) (l : list (WaveBlueprint.t F)) :
  Sorted Z.le (map WaveBlueprint.wave l) →
  Sorted Z.le (map WaveBlueprint.wave (insert_by_wave x l)).
Proof.
  induction l as [|y l IH]; simpl; intros Hsorted.
  - repeat constructor.
  - apply Sorted_inv in Hsorted as [Htail Hhead].
    destruct (Z.ltb_spec (WaveBlueprint.wave y) (WaveBlueprint.wave x)); simpl.
    + constructor; [by apply IH|].
      destruct l as [|z l]; simpl.
      * constructor. lia.
      * destruct (WaveBlueprint.wave z <? WaveBlueprint.wave x); simpl.
        -- constructor. by apply HdRel_inv in Hhead.
        -- constructor. lia.
    + constructor; [by constructor|]. by constructor.
Qed.

Lemma sorted_by_wave_sorted (l : list (WaveBlueprint.t F)) :
  Sorted Z.le (map WaveBlueprint.wave (sorted_by_wave l)).
Proof.
  induction l as [|x l IH]; simpl; [constructor|]. by apply insert_by_wave_sorted.
Qed.

Lemma scale_all_raises (curve : DifficultyCurve F) (l : list (WaveBlueprint.t F))
    (bp : WaveBlueprint.t F) (e : exn) :
  bp ∈ l → scale_blueprint curve bp = Raised e →
  ∃ e', scale_all curve l = Raised e'.
Proof.
  intros Hin Hbp. induction l as [|x l IH]; [by apply elem_of_nil in Hin|].
  simpl. destruct (scale_blueprint curve x) as [cfg|e0] eqn:Hx; simpl; [|eauto].
  apply elem_of_cons in Hin as [->|Hin]; [congruence|].
  destruct (IH Hin) as [e' ->]. simpl. eauto.
Qed.

(** X17.  The shape of a campaign.  When [apply_difficulty] returns, it
    returns one configuration per blueprint, in ascending wave order
    whatever the order of the blueprints; the waves and enemy types are
    those of the blueprints sorted stably by wave, and every
    configuration spawns at least one enemy, also from a blueprint with a
    count of zero or less. *)
Theorem apply_difficulty_shape (blueprints : list (WaveBlueprint.t F))
    (curve : option (DifficultyCurve F)) (waves : list (WaveConfig.t F)) :
  apply_difficulty blueprints curve = Returned waves →
  length waves = length blueprints
  ∧ Sorted Z.le (map WaveConfig.wave waves)
  ∧ map WaveConfig.wave waves ≡ₚ map WaveBlueprint.wave blueprints
  ∧ map (λ cfg, (WaveConfig.wave cfg, WaveConfig.enemy_type cfg)) waves
    = map (λ bp, (WaveBlueprint.wave bp, WaveBlueprint.enemy_type bp))
        (sorted_by_wave blueprints)
  ∧ Forall (λ cfg, 1 ≤ WaveConfig.count cfg) waves.
Proof.
  unfold apply_difficulty. intros Hall%scale_all_returns.
  assert (Hkeys : map (λ cfg, (WaveConfig.wave cfg, WaveConfig.enemy_type cfg)) waves
                  = map (λ bp, (WaveBlueprint.wave bp, WaveBlueprint.enemy_type bp))
                      (sorted_by_wave blueprints)).
  { induction Hall as [|bp cfg l cfgs Hbp _ IH]; simpl; [done|].
    rewrite IH. f_equal.
    apply scale_blueprint_inv in Hbp as (tags & _ & -> & -> & _). done. }
  assert (Hwaves : map WaveConfig.wave waves
                   = map WaveBlueprint.wave (sorted_by_wave blueprints)).
  { apply (f_equal (map fst)) in Hkeys. by rewrite !map_map in Hkeys. }
  split.
  { apply Forall2_length in Hall. rewrite <-Hall.
    apply Permutation_length, sorted_by_wave_perm. }
  split; [rewrite Hwaves; apply sorted_by_wave_sorted|].
  split; [rewrite Hwaves; apply Permutation_map, sorted_by_wave_perm|].
  split; [done|].
  clear Hkeys Hwaves.
  induction Hall as [|bp cfg l cfgs Hbp _ IH]; constructor; [|done].
  apply scale_blueprint_inv in Hbp as (tags & Hstats & _).
  apply scale_stats_inv in Hstats as (hm & sm & cm & _ & _ & _ & _ & _ & -> & _).
  lia.
Qed.

(** X18.  A blueprint with an explicit (non-empty) special keeps it.
    The loop body fails only where its arithmetic fails, with the same
    exception: cadence and list of extra specials are not looked at, so
    a cadence of 0 or an empty list does no harm.  When the arithmetic
    returns, the configuration carries the blueprint's special and its
    last tag announces it. *)
Theorem explicit_special_is_kept (curve : DifficultyCurve F)
    (bp : WaveBlueprint.t F) (s : string) :
  WaveBlueprint.special bp = Some s → s ≠ "" →
  (∀ e, scale_stats curve bp = Raised e → scale_blueprint curve bp = Raised e)
  ∧ (∀ scaled_health scaled_speed scaled_count tags,
       scale_stats curve bp
       = Returned (scaled_health, scaled_speed, scaled_count, tags) →
       scale_blueprint curve bp
       = Returned
           (WaveConfig.mk (WaveBlueprint.wave bp) (WaveBlueprint.enemy_type bp)
              scaled_count scaled_health scaled_speed (Some s)
              (tags ++ [special_tag s]))).
Proof.
  intros Hspecial Hs. unfold scale_blueprint.
  assert (Htruthy : truthy (WaveBlueprint.special bp) = true).
  { rewrite Hspecial. simpl. by destruct (String.eqb_spec s ""). }
  split.
  - by intros e ->.
  - intros h sp n tags ->. simpl. rewrite Htruthy. simpl. by rewrite Hspecial.
Qed.

(** X19.  Where the cadence divides by zero.  For a blueprint without a
    special whose arithmetic has returned: a cadence of 0 raises
    [ZeroDivisionError] at every wave from 0 on; with a positive cadence
    and an empty list of specials exactly the waves on the cadence raise
    [ZeroDivisionError], the others being returned without a special; and
    an exception of one blueprint makes [apply_difficulty] raise, wherever
    the blueprint stands in the list. *)
Theorem special_cadence_division_by_zero (curve : DifficultyCurve F)
    (bp : WaveBlueprint.t F) (scaled_health scaled_speed : F) (scaled_count : Z)
    (tags : list string) :
  truthy (WaveBlueprint.special bp) = false →
  scale_stats curve bp = Returned (scaled_health, scaled_speed, scaled_count, tags) →
  (special_frequency curve = 0 → 0 ≤ WaveBlueprint.wave bp →
   scale_blueprint curve bp = Raised ZeroDivisionError)
  ∧ (0 < special_frequency curve → extra_specials curve = [] →
     scale_blueprint curve bp
     = if special_due curve (WaveBlueprint.wave bp)
       then Raised ZeroDivisionError
       else Returned
              (WaveConfig.mk (WaveBlueprint.wave bp) (WaveBlueprint.enemy_type bp)
                 scaled_count scaled_health scaled_speed (WaveBlueprint.special bp)
                 tags))
  ∧ (∀ e blueprints, scale_blueprint curve bp = Raised e → bp ∈ blueprints →
     ∃ e', apply_difficulty blueprints (Some curve) = Raised e').
Proof.
  intros Htruthy Hstats. split; [|split].
  - intros Hfreq Hwave. unfold scale_blueprint, pymod.
    rewrite Hstats. simpl. rewrite Htruthy, Hfreq. simpl.
    destruct (Z.leb_spec 0 (WaveBlueprint.wave bp)); [done|lia].
  - intros Hfreq Hextra. unfold scale_blueprint, special_due, pymod, pick_special,
      floordiv.
    rewrite Hstats. simpl. rewrite Htruthy, Hextra. simpl.
    destruct (Z.eqb_spec (special_frequency curve) 0) as [?|_]; [lia|].
    destruct (Z.leb_spec (special_frequency curve) (WaveBlueprint.wave bp)); simpl;
      [|done].
    by destruct (Z.eqb_spec (WaveBlueprint.wave bp `mod` special_frequency curve) 0).
  - intros e blueprints Hbp Hin. unfold apply_difficulty. simpl.
    apply (scale_all_raises curve _ bp e); [|done].
    by rewrite sorted_by_wave_perm.
Qed.

(** X20.  With the default curve ([curve] omitted) [apply_difficulty]
    fails only in the arithmetic: it returns exactly when the arithmetic
    of every blueprint returns.  The default cadence is 3 and the default
    list of specials is not empty, so neither the modulus nor
    [pick_special] can fail. *)
Theorem default_curve_fails_only_in_arithmetic
    (blueprints : list (WaveBlueprint.t F)) :
  (∃ waves, apply_difficulty blueprints None = Returned waves)
  ↔ Forall (λ bp, ∃ stats, scale_stats default_curve bp = Returned stats) blueprints.
Proof.
  unfold apply_difficulty. simpl.
  assert (Hsorted :
    Forall (λ bp, ∃ stats, scale_stats default_curve bp = Returned stats) blueprints
    ↔ Forall (λ bp, ∃ stats, scale_stats default_curve bp = Returned stats)
        (sorted_by_wave blueprints)) by (by rewrite sorted_by_wave_perm).
  rewrite Hsorted. clear Hsorted.
  generalize (sorted_by_wave blueprints). intros l. split.
  - intros [waves Hall%scale_all_returns].
    induction Hall as [|bp cfg l cfgs Hbp _ IH]; constructor; [|done].
    apply scale_blueprint_inv in Hbp as (tags & Hstats & _). eauto.
  - intros Hstats.
    induction Hstats as [|bp l [[[[h s] n] tags] Hbp] _ [rest IH]]; simpl;
      [by eexists|].
    destruct (scale_blueprint_returns default_curve bp h s n tags) as (cfg & -> & _);
      [done|done|done|].
    simpl. rewrite IH. simpl. by eexists.
Qed.

End Facts.
End ScalerMore.

(** * Waypoint helpers (maps/waypoint.py) *)

Module Waypoint.
Section Path.
Context {F : Type} `{Arith F}.

(** [math.hypot], kept abstract: nothing below depends on its value. *)
Variable hypot : F → F → F.

Definition Point : Type := (F * F)%type.

Definition get_next_waypoint (path : list Point) (current_index : Z)
  : outcome (option Point) :=
  let next_index := current_index + 1 in
  if (0 <=? next_index) && (next_index <? Z.of_nat (length path))
  then p ← getitem path next_index; Returned (Some p)
  else Returned None.

Definition get_next_waypoint_index (path : list Point) (current_index : Z)
  : option Z :=
  let next_index := current_index + 1 in
  if next_index <? Z.of_nat (length path) then Some next_index else None.

Definition direction_between (start finish : Point) : Point :=
  let dx := sub (fst finish) (fst start) in
  let dy := sub (snd finish) (snd start) in
  let length := hypot dx dy in
  if eqb length zero then (zero, zero) else (div dx length, div dy length).

(** Python's [min(a, b)]: [b] only when [b < a]. *)
Definition pymin (a b : F) : F := if ltb b a then b else a.

(** The [while True] loop of [advance_along_path], one iteration per unit
    of fuel. *)
Fixpoint advance_loop (fuel : nat) (path : list Point) (arrival_threshold : F)
    (x y : F) (index : Z) (remaining_distance : F)
  : option (outcome (Point * Z)) :=
  match fuel with
  | O => None
  | S fuel =>
      match get_next_waypoint_index path index with
      | None => Some (Returned ((x, y), index))
      | Some next_index =>
          match getitem path next_index with
          | Raised e => Some (Raised e)
          | Returned target =>
              let dx := sub (fst target) x in
              let dy := sub (snd target) y in
              let distance := hypot dx dy in
              if leb distance arrival_threshold
              then advance_loop fuel path arrival_threshold
                     (fst target) (snd target) next_index remaining_distance
              else if leb remaining_distance zero
              then Some (Returned ((x, y), index))
              else
                let step := pymin remaining_distance distance in
                let '(x, y) :=
                  if negb (eqb distance zero)
                  then let ratio := div step distance in
                       (add x (mul dx ratio), add y (mul dy ratio))
                  else (x, y) in
                let remaining_distance := sub remaining_distance step in
                if ltb step distance
                then Some (Returned ((x, y), index))
                else advance_loop fuel path arrival_threshold x y next_index
                       remaining_distance
          end
      end
  end.

Definition advance_along_path (fuel : nat) (position : Point) (path : list Point)
    (current_index : Z) (speed dt arrival_threshold : F)
  : option (outcome (Point * Z)) :=
  advance_loop fuel path arrival_threshold (fst position) (snd position)
    current_index (mul speed dt).

End Path.
End Waypoint.

Module WaypointFacts.
Import Waypoint.
Section Facts.
Context {F : Type} `{Arith F}.
Variable hypot : F → F → F.

(** The loop from an index of at least -1: it returns once the fuel
    exceeds the number of waypoints left, the index never decreases and
    stays on the path, a finished path changes nothing, and without a
    movement budget the position only ever snaps to a waypoint. *)
Lemma advance_loop_spec (fuel : nat) (path : list Point) (threshold x y : F)
    (index : Z) (remaining : F) :
  -1 ≤ index →
  (Z.to_nat (Z.of_nat (length path) - index) < fuel)%nat →
  ∃ pos index',
    advance_loop hypot fuel path threshold x y index remaining
    = Some (Returned (pos, index'))
    ∧ index ≤ index' ∧ index' ≤ Z.max index (Z.of_nat (length path) - 1)
    ∧ (Z.of_nat (length path) ≤ index + 1 → pos = (x, y) ∧ index' = index)
    ∧ (leb remaining zero = true →
       (pos = (x, y) ∧ index' = index)
       ∨ (index < index' ∧ path !! Z.to_nat index' = Some pos)).
Proof.
  revert x y index remaining.
  induction fuel as [|fuel IH]; intros x y index remaining Hindex Hfuel; [lia|].
  simpl. unfold get_next_waypoint_index.
  destruct (Z.ltb_spec (index + 1) (Z.of_nat (length path))) as [Hnext|Hdone].
  2: { exists (x, y), index. repeat split; try lia; auto. }
  destruct (getitem_in_range path (index + 1)) as (target & -> & Htarget); [lia|].
  assert (Hsnap : ∀ x' y' remaining',
            ∃ pos index',
              advance_loop hypot fuel path threshold x' y' (index + 1) remaining'
              = Some (Returned (pos, index'))
              ∧ index + 1 ≤ index' ∧ index' ≤ Z.of_nat (length path) - 1
              ∧ (leb remaining' zero = true →
                 (pos = (x', y') ∧ index' = index + 1)
                 ∨ (index + 1 < index' ∧ path !! Z.to_nat index' = Some pos))).
  { intros x' y' remaining'.
    destruct (IH x' y' (index + 1) remaining') as (pos & index' & Hrun & ? & ? & _ & ?);
      [lia|lia|].
    exists pos, index'. repeat split; try done. lia. }
  destruct (leb (hypot _ _) threshold).
  { destruct (Hsnap (fst target) (snd target) remaining)
      as (pos & index' & -> & ? & ? & Hbudget).
    exists pos, index'. split; [done|]. split; [lia|]. split; [lia|].
    split; [lia|]. intros Hzero. right.
    destruct (Hbudget Hzero) as [[-> ->]|[? ?]].
    - split; [lia|]. rewrite Htarget. by destruct target.
    - split; [lia|done]. }
  destruct (leb remaining zero) eqn:Hzero.
  { exists (x, y), index. repeat split; try lia. by left. }
  destruct (if negb _ then _ else _) as [x' y'].
  destruct (ltb _ _).
  { exists (x', y'), index. repeat split; try lia; done. }
  destruct (Hsnap x' y' (sub remaining (pymin remaining (hypot (sub (fst target) x)
                                                            (sub (snd target) y)))))
    as (pos & index' & -> & ? & ? & _).
  exists pos, index'. repeat split; try lia; done.
Qed.

(** X21.  [advance_along_path] from an index of at least -1 returns
    after at most one iteration per waypoint left, without raising; the
    index it returns is not below the one it was given and is at most that
    of the last waypoint; and once the path is finished
    ([current_index + 1 >= len(path)]) position and index come back
    unchanged, whatever speed and time step are. *)
Theorem advance_along_path_returns (fuel : nat) (position : Point (F:=F))
    (path : list Point) (current_index : Z) (speed dt arrival_threshold : F) :
  -1 ≤ current_index →
  (Z.to_nat (Z.of_nat (length path) - current_index) < fuel)%nat →
  ∃ pos index,
    advance_along_path hypot fuel position path current_index speed dt
      arrival_threshold
    = Some (Returned (pos, index))
    ∧ current_index ≤ index
    ∧ index ≤ Z.max current_index (Z.of_nat (length path) - 1)
    ∧ (Z.of_nat (length path) ≤ current_index + 1 →
       pos = position ∧ index = current_index).
Proof.
  intros Hindex Hfuel. unfold advance_along_path.
  destruct (advance_loop_spec fuel path arrival_threshold (fst position)
              (snd position) current_index (mul speed dt) Hindex Hfuel)
    as (pos & index & Hrun & ? & ? & Hdone & _).
  exists pos, index. repeat split; try done.
  - destruct (Hdone ltac:(done)) as [-> _]. by destruct position.
  - by destruct (Hdone ltac:(done)).
Qed.

(** X22.  Without a movement budget ([speed * dt <= 0]) the entity does
    not travel: [advance_along_path] returns either the position and index
    it was given, or a later index together with exactly the waypoint at
    that index (waypoints within the arrival threshold are snapped to at
    no cost). *)
Theorem advance_without_budget_only_snaps (fuel : nat) (position : Point (F:=F))
    (path : list Point) (current_index : Z) (speed dt arrival_threshold : F) :
  -1 ≤ current_index →
  (Z.to_nat (Z.of_nat (length path) - current_index) < fuel)%nat →
  leb (mul speed dt) zero = true →
  ∃ pos index,
    advance_along_path hypot fuel position path current_index speed dt
      arrival_threshold
    = Some (Returned (pos, index))
    ∧ ((pos = position ∧ index = current_index)
       ∨ (current_index < index ∧ path !! Z.to_nat index = Some pos)).
Proof.
  intros Hindex Hfuel Hzero. unfold advance_along_path.
  destruct (advance_loop_spec fuel path arrival_threshold (fst position)
              (snd position) current_index (mul speed dt) Hindex Hfuel)
    as (pos & index & Hrun & _ & _ & _ & Hbudget).
  exists pos, index. split; [done|].
  destruct (Hbudget Hzero) as [[-> ->]|?]; [left|by right].
  by destruct position.
Qed.

(** X23.  The two lookups of the next waypoint differ below index -1.
    [get_next_waypoint] guards both ends and never raises: it returns the
    waypoint at [current_index + 1] when that index is on the path and
    [None] otherwise.  [get_next_waypoint_index] guards the upper end
    only, so [advance_along_path], which indexes the path with its result,
    raises [IndexError] when [current_index + 1 < -len(path)]. *)
Theorem next_waypoint_guards (path : list (Point (F:=F))) (current_index : Z) :
  get_next_waypoint path current_index
  = Returned (if bool_decide (0 ≤ current_index + 1)
              then path !! Z.to_nat (current_index + 1) else None)
  ∧ (current_index + 1 < - Z.of_nat (length path) →
     get_next_waypoint_index path current_index = Some (current_index + 1)
     ∧ ∀ fuel position speed dt arrival_threshold,
         advance_along_path hypot (S fuel) position path current_index speed dt
           arrival_threshold
         = Some (Raised IndexError)).
Proof.
  split.
  - unfold get_next_waypoint.
    destruct (Z.leb_spec 0 (current_index + 1)) as [Hlow|Hlow]; simpl.
    + rewrite bool_decide_eq_true_2 by done.
      destruct (Z.ltb_spec (current_index + 1) (Z.of_nat (length path))) as [Hup|Hup].
      * by destruct (getitem_in_range path (current_index + 1)) as (p & -> & ->).
      * simpl. symmetry. f_equal. apply lookup_ge_None. lia.
    + by rewrite bool_decide_eq_false_2 by lia.
  - intros Hlow.
    assert (Hnext : get_next_waypoint_index path current_index
                    = Some (current_index + 1)).
    { unfold get_next_waypoint_index.
      destruct (Z.ltb_spec (current_index + 1) (Z.of_nat (length path))); [done|lia]. }
    split; [done|]. intros fuel position speed dt arrival_threshold.
    unfold advance_along_path. simpl. rewrite Hnext.
    unfold getitem.
    destruct (Z.ltb_spec (current_index + 1) 0); [|lia].
    destruct (Z.ltb_spec (current_index + 1 + Z.of_nat (length path)) 0); [done|lia].
Qed.

End Facts.
End WaypointFacts.

(** * The demo loop (main.py) *)

Module Main.
Import Economy.
Section Game.
Context {F : Type} `{Arith F}.

Definition WIDTH : Z := 960.
Definition HEIGHT : Z := 540.
Definition ENEMY_RADIUS : Z := 16.

Record Enemy : Type := mkEnemy {
  enemy_type : string;
  color : Z * Z * Z;
  speed : F;
  reward : Z;
  x : F;
  y : Z;
}.

Definition Enemy_update (delta : F) (enemy : Enemy) : Enemy :=
  mkEnemy (enemy_type enemy) (color enemy) (speed enemy) (reward enemy)
    (add (x enemy) (mul (speed enemy) delta)) (y enemy).

Definition is_out_of_bounds (enemy : Enemy) : bool :=
  ltb (of_int WIDTH) (sub (x enemy) (of_int ENEMY_RADIUS)).

(** [Game.update_enemies]: the loop runs over a copy of [self.enemies];
    the result is the list left in [self.enemies] and the stats.  An
    exception of [lose_life] would leave the enemies not yet visited as
    they are. *)
Fixpoint update_enemies (delta : F) (enemies : list Enemy) (stats : PlayerStats)
  : outcome () * (list Enemy * PlayerStats) :=
  match enemies with
  | [] => (Returned (), ([], stats))
  | enemy :: rest =>
      let enemy := Enemy_update delta enemy in
      if is_out_of_bounds enemy then
        match lose_life 1 stats with
        | (Raised e, stats) => (Raised e, (rest, stats))
        | (Returned _, stats) => update_enemies delta rest stats
        end
      else
        let '(r, (rest, stats)) := update_enemies delta rest stats in
        (r, (enemy :: rest, stats))
  end.

(** The branch of [Game.run] taken when the HUD asks for the next wave:
    [if self.wave_manager.start_next_wave():
         self.stats.start_wave(self.wave_manager.current_wave_number)]. *)
Definition start_wave_requested (manager : Waves.WaveManager (F:=F))
    (stats : PlayerStats) : outcome () * (Waves.WaveManager (F:=F) * PlayerStats) :=
  match Waves.start_next_wave manager with
  | (Raised e, manager) => (Raised e, (manager, stats))
  | (Returned true, manager) =>
      (Returned (), (manager, start_wave (Waves.current_wave_number manager) stats))
  | (Returned false, manager) => (Returned (), (manager, stats))
  end.

End Game.
End Main.

Module MainFacts.
Import Economy Main.
Section Facts.
Context {F : Type} `{Arith F}.

(** X24.  One tick of [Game.update_enemies] never raises.  Every enemy
    has moved by [speed * delta]; exactly those now beyond the right edge
    are gone, the others keep their order; money and wave number are
    untouched; and with [k] enemies gone the lives are
    [max(0, lives - k)] (unchanged when [k = 0]). *)
Theorem update_enemies_charges_one_life_per_escape (delta : F)
    (enemies : list (Enemy (F:=F))) (stats : PlayerStats) :
  let moved := map (Enemy_update delta) enemies in
  let escaped := Z.of_nat (length (filter (λ e, is_out_of_bounds e = true) moved)) in
  ∃ stats',
    update_enemies delta enemies stats
    = (Returned (), (filter (λ e, is_out_of_bounds e = false) moved, stats'))
    ∧ money stats' = money stats
    ∧ current_wave stats' = current_wave stats
    ∧ lives stats' = (if escaped =? 0 then lives stats
                      else Z.max 0 (lives stats - escaped)).
Proof.
  revert stats. induction enemies as [|enemy rest IH]; intros stats; simpl.
  { by exists stats. }
  rewrite !filter_cons.
  destruct (is_out_of_bounds (Enemy_update delta enemy)) eqn:Hout.
  - destruct (decide (true = false)) as [?|_]; [done|].
    destruct (decide (true = true)) as [_|?]; [|done].
    unfold lose_life. simpl.
    destruct (IH (mkPlayerStats (money stats) (Z.max 0 (lives stats - 1))
                    (current_wave stats)))
      as (stats' & -> & Hmoney & Hwave & Hlives).
    exists stats'. split; [done|]. split; [done|]. split; [done|].
    rewrite Hlives. simpl.
    rewrite Nat2Z.inj_succ.
    destruct (Z.eqb_spec (Z.of_nat (length (filter (λ e, is_out_of_bounds e = true)
                                              (map (Enemy_update delta) rest)))) 0);
      destruct (Z.eqb_spec (Z.succ (Z.of_nat (length (filter
                  (λ e, is_out_of_bounds e = true)
                  (map (Enemy_update delta) rest))))) 0); lia.
  - destruct (decide (false = true)) as [?|_]; [done|].
    destruct (decide (false = false)) as [_|?]; [|done].
    destruct (IH stats) as (stats' & -> & Hmoney & Hwave & Hlives).
    by exists stats'.
Qed.

End Facts.

Section Waves.
Context {F : Type} `{TimeOrder F}.
Context {World : Type} (spawn_callback : string → World → World).

(** X25.  The wave number shown to the player.  On a manager reached
    through its methods the start request never raises; when the wave
    starts, [stats.current_wave] becomes the 1-based number of the wave
    just started, between 1 and [total_waves]; when it does not (a wave is
    running, or the waves are used up) manager and stats are
    unchanged. *)
Theorem start_request_sets_wave_number (waves : list Waves.WaveDefinition)
    (loop_waves : bool) (manager : Waves.WaveManager (F:=F)) (stats : PlayerStats) :
  Waves.reachable spawn_callback waves loop_waves manager →
  ∃ manager' stats',
    start_wave_requested manager stats = (Returned (), (manager', stats'))
    ∧ money stats' = money stats ∧ lives stats' = lives stats
    ∧ ((fst (Waves.start_next_wave manager) = Returned true
        ∧ manager' = snd (Waves.start_next_wave manager)
        ∧ current_wave stats' = Waves.current_wave_index manager' + 1
        ∧ 1 ≤ current_wave stats' ≤ Waves.total_waves manager')
       ∨ (fst (Waves.start_next_wave manager) = Returned false
          ∧ manager' = manager ∧ stats' = stats)).
Proof using Type*.
  intros Hreach.
  apply (WavesFacts.reachable_invariant spawn_callback) in Hreach as (_ & Hi & _).
  assert (Hstart : ∀ i, 0 ≤ i < Waves.total_waves manager →
            ∃ wave, Waves.start_at manager i
                    = (Returned true,
                       Waves.mkWaveManager (Waves._waves manager)
                         (Waves._loop_waves manager) i
                         (Some (Waves.mkWaveState wave zero)))).
  { intros i Hrange. unfold Waves.start_at.
    destruct (getitem_in_range (Waves._waves manager) i) as (wave & -> & _);
      [done|by exists wave]. }
  assert (Hstarted : ∀ i, 0 ≤ i < Waves.total_waves manager →
            Waves.start_next_wave manager = Waves.start_at manager i →
            ∃ manager' stats',
              start_wave_requested manager stats = (Returned (), (manager', stats'))
              ∧ money stats' = money stats ∧ lives stats' = lives stats
              ∧ ((fst (Waves.start_next_wave manager) = Returned true
                  ∧ manager' = snd (Waves.start_next_wave manager)
                  ∧ current_wave stats' = Waves.current_wave_index manager' + 1
                  ∧ 1 ≤ current_wave stats' ≤ Waves.total_waves manager')
                 ∨ (fst (Waves.start_next_wave manager) = Returned false
                    ∧ manager' = manager ∧ stats' = stats))).
  { intros i Hrange Heq. destruct (Hstart i Hrange) as [wave Hat].
    unfold start_wave_requested. rewrite Heq, Hat. simpl.
    eexists _, _. split; [done|]. split; [done|]. split; [done|]. left.
    unfold Waves.current_wave_number, Waves.current_wave_index, Waves.total_waves
      in *. simpl.
    split; [done|]. split; [done|]. split; [done|]. lia. }
  assert (Hrefused : Waves.start_next_wave manager = (Returned false, manager) →
            ∃ manager' stats',
              start_wave_requested manager stats = (Returned (), (manager', stats'))
              ∧ money stats' = money stats ∧ lives stats' = lives stats
              ∧ ((fst (Waves.start_next_wave manager) = Returned true
                  ∧ manager' = snd (Waves.start_next_wave manager)
                  ∧ current_wave stats' = Waves.current_wave_index manager' + 1
                  ∧ 1 ≤ current_wave stats' ≤ Waves.total_waves manager')
                 ∨ (fst (Waves.start_next_wave manager) = Returned false
                    ∧ manager' = manager ∧ stats' = stats))).
  { intros Heq. unfold start_wave_requested. rewrite Heq. simpl.
    eexists _, _. split; [done|]. split; [done|]. split; [done|]. by right. }
  unfold Waves.start_next_wave in *.
  destruct (Waves._state manager); [by apply Hrefused|].
  destruct (Z.leb_spec (Waves.total_waves manager) (Waves._current_index manager + 1)).
  - destruct (Waves._loop_waves manager); simpl in *; [|by apply Hrefused].
    case_bool_decide as Hnil; simpl in *; [by apply Hrefused|].
    apply (Hstarted 0); [|done].
    unfold Waves.total_waves. destruct (Waves._waves manager); [done|]. simpl. lia.
  - apply (Hstarted (Waves._current_index manager + 1)); [lia|done].
Qed.

End Waves.
End MainFacts.

(** * Tile maps (maps/tilemap.py) *)

Module TileMap.
Section TileMap.
(** The surfaces are opaque. *)
Context {Surface : Type}.

Record TileMap : Type := mkTileMap {
  layout : list (list Z);
  tile_size : Z * Z;
  tiles : list Surface;
  path : list (Z * Z);
}.

Definition width (tm : TileMap) : Z :=
  match layout tm with
  | [] => 0
  | row :: _ => Z.of_nat (length row)
  end.

Definition height (tm : TileMap) : Z := Z.of_nat (length (layout tm)).

Definition pixel_size (tm : TileMap) : Z * Z :=
  (width tm * fst (tile_size tm), height tm * snd (tile_size tm)).

(** The inner loop of [iter_tiles] over [enumerate(row)], from column
    [col_index] on. *)
Fixpoint iter_row (tm : TileMap) (row_index col_index : Z) (row : list Z)
  : outcome (list (Z * Z * Surface)) :=
  match row with
  | [] => Returned []
  | tile_id :: rest =>
      if (tile_id <? 0) || (Z.of_nat (length (tiles tm)) <=? tile_id)
      then iter_row tm row_index (col_index + 1) rest
      else
        tile ← getitem (tiles tm) tile_id;
        more ← iter_row tm row_index (col_index + 1) rest;
        Returned ((col_index, row_index, tile) :: more)
  end.

(** The outer loop over [enumerate(self.layout)], from row [row_index]
    on. *)
Fixpoint iter_rows (tm : TileMap) (row_index : Z) (rows : list (list Z))
  : outcome (list (Z * Z * Surface)) :=
  match rows with
  | [] => Returned []
  | row :: rest =>
      here ← iter_row tm row_index 0 row;
      below ← iter_rows tm (row_index + 1) rest;
      Returned (here ++ below)
  end.

(** Everything the generator [iter_tiles] yields, in order. *)
Definition iter_tiles (tm : TileMap) : outcome (list (Z * Z * Surface)) :=
  iter_rows tm 0 (layout tm).

(** The cell [(x, y)] of the layout holds a valid tile id whose surface
    is [tile]. *)
Definition shows (tm : TileMap) (x y : Z) (tile : Surface) : Prop :=
  ∃ row tile_id,
    0 ≤ y ∧ layout tm !! Z.to_nat y = Some row
    ∧ 0 ≤ x ∧ row !! Z.to_nat x = Some tile_id
    ∧ 0 ≤ tile_id ∧ tiles tm !! Z.to_nat tile_id = Some tile.

End TileMap.
End TileMap.

Module TileMapFacts.
Import TileMap.
Section Facts.
Context {Surface : Type}.

Lemma iter_row_spec (tm : TileMap (Surface:=Surface)) (row_index col_index : Z)
    (row : list Z) :
  0 ≤ col_index →
  ∃ out, iter_row tm row_index col_index row = Returned out
    ∧ ∀ x y tile,
        (x, y, tile) ∈ out
        ↔ y = row_index
          ∧ ∃ tile_id, col_index ≤ x
              ∧ row !! Z.to_nat (x - col_index) = Some tile_id
              ∧ 0 ≤ tile_id ∧ tiles tm !! Z.to_nat tile_id = Some tile.
Proof.
  revert col_index. induction row as [|tile_id rest IH]; intros col_index Hcol; simpl.
  { exists []. split; [done|]. intros x y tile. split.
    - by intros ?%elem_of_nil.
    - by intros (_ & ? & _ & ? & _). }
  destruct (IH (col_index + 1)) as (more & Hmore & Hspec); [lia|].
  assert (Hshift : ∀ x, col_index + 1 ≤ x →
            Z.to_nat (x - col_index) = S (Z.to_nat (x - (col_index + 1)))) by lia.
  destruct (Z.ltb_spec tile_id 0) as [Hneg|Hpos]; simpl.
  { exists more. split; [done|]. intros x y tile. rewrite Hspec.
    split; intros (-> & id & Hx & Hid & Hid0 & Htile); (split; [done|]); exists id.
    - rewrite Hshift by done. repeat split; try done; lia.
    - destruct (decide (x = col_index)) as [->|].
      + rewrite Z.sub_diag in Hid. simpl in Hid. injection Hid as ->. lia.
      + rewrite Hshift in Hid by lia. repeat split; try done; lia. }
  destruct (Z.leb_spec (Z.of_nat (length (tiles tm))) tile_id) as [Hbig|Hin]; simpl.
  { exists more. split; [done|]. intros x y tile. rewrite Hspec.
    split; intros (-> & id & Hx & Hid & Hid0 & Htile); (split; [done|]); exists id.
    - rewrite Hshift by done. repeat split; try done; lia.
    - destruct (decide (x = col_index)) as [->|].
      + rewrite Z.sub_diag in Hid. simpl in Hid. injection Hid as ->.
        apply lookup_lt_Some in Htile. lia.
      + rewrite Hshift in Hid by lia. repeat split; try done; lia. }
  destruct (getitem_in_range (tiles tm) tile_id) as (t & -> & Ht); [lia|]. simpl.
  rewrite Hmore. simpl. eexists. split; [done|].
  intros x y tile. rewrite elem_of_cons, Hspec. split.
  - intros [[= -> -> ->]|(-> & id & Hx & Hid & Hid0 & Htile)]; (split; [done|]).
    + exists tile_id. rewrite Z.sub_diag. repeat split; try done; lia.
    + exists id. rewrite Hshift by done. repeat split; try done; lia.
  - intros (-> & id & Hx & Hid & Hid0 & Htile).
    destruct (decide (x = col_index)) as [->|].
    + left. rewrite Z.sub_diag in Hid. simpl in Hid. injection Hid as ->.
      congruence.
    + right. split; [done|]. exists id. rewrite Hshift in Hid by lia.
      repeat split; try done; lia.
Qed.

Lemma iter_rows_spec (tm : TileMap (Surface:=Surface)) (row_index : Z)
    (rows : list (list Z)) :
  0 ≤ row_index →
  ∃ out, iter_rows tm row_index rows = Returned out
    ∧ ∀ x y tile,
        (x, y, tile) ∈ out
        ↔ ∃ row tile_id,
            row_index ≤ y ∧ rows !! Z.to_nat (y - row_index) = Some row
            ∧ 0 ≤ x ∧ row !! Z.to_nat x = Some tile_id
            ∧ 0 ≤ tile_id ∧ tiles tm !! Z.to_nat tile_id = Some tile.
Proof.
  revert row_index. induction rows as [|row rest IH]; intros row_index Hrow; simpl.
  { exists []. split; [done|]. intros x y tile. split.
    - by intros ?%elem_of_nil.
    - by intros (? & ? & _ & ? & _). }
  destruct (iter_row_spec tm row_index 0 row) as (here & -> & Hhere); [done|].
  destruct (IH (row_index + 1)) as (below & -> & Hbelow); [lia|]. simpl.
  assert (Hshift : ∀ y, row_index + 1 ≤ y →
            Z.to_nat (y - row_index) = S (Z.to_nat (y - (row_index + 1)))) by lia.
  eexists. split; [done|].
  intros x y tile. rewrite elem_of_app, Hhere, Hbelow. split.
  - intros [(-> & id & Hx & Hid & Hid0 & Htile)
           |(r & id & Hy & Hr & Hx & Hid & Hid0 & Htile)].
    + exists row, id. rewrite Z.sub_diag. rewrite Z.sub_0_r in Hid.
      repeat split; try done; lia.
    + exists r, id. rewrite Hshift by done. repeat split; try done; lia.
  - intros (r & id & Hy & Hr & Hx & Hid & Hid0 & Htile).
    destruct (decide (y = row_index)) as [->|].
    + left. rewrite Z.sub_diag in Hr. simpl in Hr. injection Hr as ->.
      split; [done|]. exists id. rewrite Z.sub_0_r. done.
    + right. exists r, id. rewrite Hshift in Hr by lia.
      repeat split; try done; lia.
Qed.

(** X26.  [iter_tiles] never raises, whatever ids the layout holds, and
    yields exactly the cells with a valid tile id, each with the surface
    of that id: a negative id (the usual mark of an empty cell) or one
    past the tile list is skipped, not looked up from the end of the list
    and not an [IndexError]. *)
Theorem iter_tiles_yields_valid_cells (tm : TileMap (Surface:=Surface)) :
  ∃ out, iter_tiles tm = Returned out
         ∧ ∀ x y tile, (x, y, tile) ∈ out ↔ shows tm x y tile.
Proof.
  destruct (iter_rows_spec tm 0 (layout tm)) as (out & Hout & Hspec); [done|].
  exists out. split; [done|]. intros x y tile. rewrite Hspec. unfold shows.
  split; intros (row & id & Hy & Hrow & Hrest); exists row, id.
  - rewrite Z.sub_0_r in Hrow. done.
  - rewrite Z.sub_0_r. done.
Qed.

End Facts.
End TileMapFacts.

(** * Further properties of projectiles (towers/projectile.py) *)

Module ProjectileMore.
Import Towers.
Section Facts.
Context {F : Type} `{Arith F} {T : Type} `{TargetLike F T}.

(** [update] called once per time step, in order, on the same target
    object. *)
Definition updates (dts : list F) (p : Projectile (F:=F)) (target : T)
  : Projectile * T :=
  foldl (λ state dt, update dt (fst state) (snd state)) (p, target) dts.

Lemma update_once (dt : F) (p : Projectile) (target : T) :
  damage (fst (update dt p target)) = damage p
  ∧ speed (fst (update dt p target)) = speed p
  ∧ (finished p = true → update dt p target = (p, target))
  ∧ (finished (fst (update dt p target)) = false → finished p = false)
  ∧ (snd (update dt p target) = target
     ∨ (target_is_alive target = true ∧ finished p = false
        ∧ snd (update dt p target) = target_take_damage (damage p) target
        ∧ finished (fst (update dt p target)) = true)).
Proof.
  unfold update, _hit_target.
  destruct (finished p) eqn:Hfinished; simpl.
  { split; [done|]. split; [done|]. split; [done|]. split; [congruence|]. by left. }
  destruct (target_is_alive target) eqn:Halive; simpl.
  2: { split; [done|]. split; [done|]. split; [done|]. split; [done|]. by left. }
  destruct (target_position target) as [tx ty], (position p) as [x y].
  destruct (eqb _ zero); simpl.
  { split; [done|]. split; [done|]. split; [done|]. split; [done|]. by right. }
  destruct (leb _ (mul (speed p) dt)); simpl.
  - split; [done|]. split; [done|]. split; [done|]. split; [done|]. by right.
  - split; [done|]. split; [done|]. split; [done|]. split; [done|]. by left.
Qed.

Lemma updates_finished (dts : list F) (p : Projectile) (target : T) :
  finished p = true → updates dts p target = (p, target).
Proof.
  intros Hfinished. unfold updates.
  induction dts as [|dt dts IH]; simpl; [done|].
  destruct (update_once dt p target) as (_ & _ & -> & _); done.
Qed.

(** X27.  A projectile hits at most once.  Over any sequence of
    [update] calls on a target nothing else touches, the target ends
    either untouched or, having been alive, with [take_damage(damage)]
    applied exactly once, the projectile then being finished for good;
    the projectile's damage and speed never change, and a finished
    projectile stays as it is. *)
Theorem projectile_hits_at_most_once (dts : list F) (p : Projectile (F:=F))
    (target : T) :
  let p' := fst (updates dts p target) in
  let target' := snd (updates dts p target) in
  damage p' = damage p ∧ speed p' = speed p
  ∧ (finished p = true → p' = p ∧ target' = target)
  ∧ (finished p' = false → finished p = false ∧ target' = target)
  ∧ (target' = target
     ∨ (target_is_alive target = true ∧ finished p = false
        ∧ target' = target_take_damage (damage p) target
        ∧ finished p' = true)).
Proof.
  revert p target. induction dts as [|dt dts IH]; intros p target; simpl.
  { repeat split; auto. }
  unfold updates in *. simpl.
  destruct (update_once dt p target) as (Hdamage & Hspeed & Hnoop & Hback & Hhit).
  destruct (update dt p target) as [p1 target1] eqn:Hstep. simpl in *.
  specialize (IH p1 target1).
  destruct IH as (Hdamage' & Hspeed' & Hnoop' & Hback' & Hhit').
  split; [congruence|]. split; [congruence|].
  split.
  { intros Hfinished. specialize (Hnoop Hfinished). injection Hnoop as -> ->.
    by apply Hnoop'. }
  split.
  { intros Hrunning. destruct (Hback' Hrunning) as [Hrunning1 ->].
    split; [by apply Hback|].
    destruct Hhit as [->|(_ & _ & _ & Hdone)]; [done|congruence]. }
  destruct Hhit as [->|(Halive & Hrunning & -> & Hdone)].
  - destruct Hhit' as [->|(Halive & Hrunning1 & -> & Hdone)]; [by left|].
    right. rewrite Hdamage. repeat split; try done. by apply Hback.
  - right. destruct (Hnoop' Hdone) as [-> ->]. by repeat split.
Qed.

End Facts.
End ProjectileMore.

(** * The further properties on concrete inputs *)

Module MoreWitnesses.
Import Exact ExactFacts.

(** Two waypoints on a 3-4-5 triangle, ten health points, no frames. *)
Definition demo_enemy : Enemies.BaseEnemy (F:=Qc) :=
  Enemies.mkBaseEnemy [(of_int 0, of_int 0); (of_int 3, of_int 4)] 0
    (of_int 0, of_int 0) (of_int 5) 10 true one
    (Enemies.mkAnimationState [] (lit 1 10) zero 0) false.

Definition demo_animation : Enemies.AnimationState (F:=Qc) :=
  Enemies.mkAnimationState ["walk0"; "walk1"] (lit 1 10) zero 0.


(** A tower at the origin with a ladder of three upgrades. *)
Definition demo_tower : TowerBase.BaseTower (F:=Qc) :=
  TowerBase.init (of_int 0, of_int 0) (of_int 10) one (of_int 7) 50 (of_int 20)
    [TowerUpgrade.mk 30 (of_int 1) zero (of_int 2);
     TowerUpgrade.mk 60 (of_int 2) one (of_int 3);
     TowerUpgrade.mk 90 zero one (of_int 5)].

(** [math.hypot] on exact rationals. *)
Definition demo_hypot (dx dy : Qc) : Qc := pow_half (add (mul dx dx) (mul dy dy)).

Definition demo_path : list (Waypoint.Point (F:=Qc)) :=
  [(of_int 0, of_int 0); (of_int 3, of_int 4); (of_int 3, of_int 10)].

Definition demo_stats : Economy.PlayerStats := Economy.mkPlayerStats 250 20 0.

Lemma start_next_wave_starts_next_witness :
  Waves.reachable record_spawn demo_waves false (Waves.init demo_waves false)
  ∧ fst (Waves.start_next_wave (Waves.init demo_waves false)) = Returned true
  ∧ Waves._current_index (snd (Waves.start_next_wave (Waves.init demo_waves false)))
    = 0.
Proof.
  split; [apply Waves.reach_init|].
  pose proof (WavesMore.start_next_wave_starts_next record_spawn demo_waves false
                (Waves.init demo_waves false)
                (Waves.reach_init record_spawn demo_waves false)) as Hstart.
  cbv zeta in Hstart. destruct Hstart as [Hyes _].
  destruct Hyes as (wave & _ & -> & _).
  { split; [reflexivity|]. left. reflexivity. }
  split; reflexivity.
Defined.

Lemma remaining_waves_counts_down_witness :
  Waves.reachable record_spawn demo_waves false demo_manager
  ∧ Waves.remaining_waves demo_manager = Waves.Bounded 1.
Proof.
  split; [exact Witnesses.demo_manager_reachable|].
  destruct (WavesMore.remaining_waves_counts_down record_spawn demo_waves demo_manager
              Witnesses.demo_manager_reachable) as (n & -> & _ & Hrun & _).
  destruct (Hrun eq_refl) as (-> & _). reflexivity.
Defined.

Lemma ledger_never_negative_witness :
  let calls := [Economy.SpendMoney 300; Economy.LoseLife 25; Economy.GainMoney (-5);
                Economy.RegisterPurchase 100] in
  0 ≤ Economy.money demo_stats ∧ 0 ≤ Economy.lives demo_stats
  ∧ 0 ≤ Economy.money (Economy.perform_all calls demo_stats)
  ∧ 0 ≤ Economy.lives (Economy.perform_all calls demo_stats).
Proof.
  intros calls.
  assert (Hmoney : 0 ≤ Economy.money demo_stats) by (by vm_compute).
  assert (Hlives : 0 ≤ Economy.lives demo_stats) by (by vm_compute).
  destruct (EconomyFacts.ledger_never_negative calls demo_stats Hmoney Hlives)
    as (? & ? & _).
  done.
Defined.

Lemma update_advances_along_path_witness :
  EnemyKinds.valid_index demo_enemy
  ∧ Enemies.clock_runs_down one (Enemies.animation demo_enemy)
  ∧ ∃ fuel0, ∀ fuel, (fuel0 ≤ fuel)%nat →
      ∃ r, Enemies.update fuel one demo_enemy None = Some r
           ∧ EnemiesMore.advanced_or_overflowed demo_enemy None r.
Proof.
  assert (Hvalid : EnemyKinds.valid_index demo_enemy) by (split; by vm_compute).
  assert (Hclock : Enemies.clock_runs_down one (Enemies.animation demo_enemy))
    by (by left).
  split; [exact Hvalid|]. split; [exact Hclock|].
  destruct (EnemiesMore.update_advances_along_path one demo_enemy None Hvalid Hclock)
    as [fuel0 Hfuel].
  exists fuel0. intros fuel Hle.
  destruct (Hfuel fuel Hle) as (r & Hupdate & Hadvanced & _).
  exists r. split; [exact Hupdate|exact Hadvanced].
Defined.

Lemma animation_update_keeps_frame_valid_witness :
  Enemies.clock_runs_down (lit 1 4) demo_animation
  ∧ EnemyKinds.valid_frame demo_animation
  ∧ ∃ fuel0, ∀ fuel, (fuel0 ≤ fuel)%nat →
      ∃ a', Enemies.AnimationState_update fuel (lit 1 4) demo_animation = Some a'
            ∧ EnemyKinds.valid_frame a'.
Proof.
  assert (Hvalid : EnemyKinds.valid_frame demo_animation)
    by (right; split; by vm_compute).
  assert (Hclock : Enemies.clock_runs_down (lit 1 4) demo_animation).
  { right. exists 2%nat. by vm_compute. }
  split; [exact Hclock|]. split; [exact Hvalid|].
  destruct (EnemiesMore.animation_update_keeps_frame_valid (lit 1 4) demo_animation
              Hclock Hvalid) as [fuel0 Hfuel].
  exists fuel0. intros fuel Hle.
  destruct (Hfuel fuel Hle) as (a' & Hupdate & _ & _ & Hvalid' & _).
  exists a'. split; [exact Hupdate|exact Hvalid'].
Defined.

Lemma take_damage_kills_at_zero_health_witness :
  Enemies.alive demo_enemy = true
  ∧ 0 < Enemies.health demo_enemy
  ∧ Forall (fun amount => 0 ≤ amount) [4; 0; 6; 3]
  ∧ Enemies.alive (EnemyKinds.take_damages [4; 0; 6; 3] demo_enemy) = false.
Proof.
  assert (Hhealth : 0 < Enemies.health demo_enemy) by reflexivity.
  assert (Hamounts : Forall (fun amount => 0 ≤ amount) [4; 0; 6; 3]).
  { repeat (constructor; [by vm_compute|]). constructor. }
  split; [reflexivity|]. split; [exact Hhealth|]. split; [exact Hamounts|].
  pose proof (EnemiesMore.take_damage_kills_at_zero_health [4; 0; 6; 3] demo_enemy
                eq_refl Hhealth Hamounts) as Hdamage.
  cbv zeta in Hdamage. destruct Hdamage as (Halive & _).
  apply not_true_is_false. intros Hstill. apply Halive in Hstill.
  by vm_compute in Hstill.
Defined.


Lemma upgrade_ladder_witness :
  TowerBase.level demo_tower = 1
  ∧ TowerBase.level (TowerBase.apply_upgrades 2 demo_tower) = 3
  ∧ TowerBase.level (TowerBase.apply_upgrades 5 demo_tower) = 4.
Proof.
  split; [reflexivity|].
  pose proof (TowerFacts.upgrade_ladder demo_tower 2 eq_refl) as Htwo.
  pose proof (TowerFacts.upgrade_ladder demo_tower 5 eq_refl) as Hfive.
  cbv zeta in Htwo, Hfive.
  destruct Htwo as (-> & _). destruct Hfive as (-> & _). by split.
Defined.

Lemma confirm_build_avoids_blocked_tiles_witness :
  BuildMore.reachable 32 None demo_build
  ∧ fst (fst (Build.confirm_build demo_build ∅ 80)) = Some demo_button
  ∧ ∃ pv, Build.preview demo_build = Some pv
          ∧ Build.grid_position pv ∉ Build.BLOCKED_TILES.
Proof.
  assert (Hreach : BuildMore.reachable 32 None demo_build).
  { unfold demo_build.
    apply BuildMore.reach_update_preview, BuildMore.reach_begin_build,
      BuildMore.reach_init. }
  assert (Hbutton : fst (fst (Build.confirm_build demo_build ∅ 80)) = Some demo_button)
    by (by vm_compute).
  split; [exact Hreach|]. split; [exact Hbutton|].
  destruct (BuildMore.confirm_build_avoids_blocked_tiles 32 None demo_build ∅ 80
              demo_button Hreach Hbutton) as (pv & Hpv & _ & _ & Hdefault).
  exists pv. split; [exact Hpv|]. apply Hdefault. by left.
Defined.

Lemma no_second_tower_on_a_cell_witness :
  let bm := Build.init 32 None in
  let pv := Build.mkBuildPreview (2, 3) (64, 96) Build.PREVIEW_OK_COLOR true in
  Build.cost demo_button ≤ 80
  ∧ Build.update_preview (snd (Build.begin_build bm demo_button 80)) (70, 100) ∅ 80
    = (Returned (Some pv),
       Build.mkBuildManager (Build.tile_size bm) (Build.blocked_tiles bm)
         (Some demo_button) (Some pv))
  ∧ Build.can_build pv = true
  ∧ Build.grid_position pv ∈ snd (Build.confirm_build demo_build ∅ 80).
Proof.
  intros bm pv.
  assert (Hcost : Build.cost demo_button ≤ 80) by (by vm_compute).
  assert (Hpreview :
            Build.update_preview (snd (Build.begin_build bm demo_button 80)) (70, 100)
              ∅ 80
            = (Returned (Some pv),
               Build.mkBuildManager (Build.tile_size bm) (Build.blocked_tiles bm)
                 (Some demo_button) (Some pv))) by (by vm_compute).
  split; [exact Hcost|]. split; [exact Hpreview|]. split; [reflexivity|].
  pose proof (BuildMore.no_second_tower_on_a_cell bm demo_button 80 (70, 100) ∅ pv
                Hcost Hpreview eq_refl) as Hcell.
  cbv zeta in Hcell. destruct Hcell as (_ & Hin & _). exact Hin.
Defined.

Lemma apply_difficulty_shape_witness :
  ∃ waves,
    Scaler.apply_difficulty [demo_blueprint 4; demo_blueprint 1] None = Returned waves
    ∧ length waves = 2%nat
    ∧ Sorted Z.le (map WaveConfig.wave waves)
    ∧ Forall (λ cfg, 1 ≤ WaveConfig.count cfg) waves.
Proof.
  destruct (Scaler.apply_difficulty [demo_blueprint 4; demo_blueprint 1] None)
    as [waves|e] eqn:Hwaves; [|by vm_compute in Hwaves].
  exists waves. split; [reflexivity|].
  destruct (ScalerMore.apply_difficulty_shape [demo_blueprint 4; demo_blueprint 1]
              None waves Hwaves) as (Hlength & Hsorted & _ & _ & Hcount).
  by repeat split.
Defined.

Lemma explicit_special_is_kept_witness :
  let curve := Scaler.mkDifficultyCurve (lit 1 64) (zero : Qc) zero 0 [] in
  let bp := WaveBlueprint.mk 6 "grunt" 5 (of_int 100 : Qc) (of_int 60) (Some "jefe") in
  WaveBlueprint.special bp = Some "jefe" ∧ "jefe" ≠ ""
  ∧ ∃ cfg, Scaler.scale_blueprint curve bp = Returned cfg
           ∧ WaveConfig.special cfg = Some "jefe"
           ∧ last (WaveConfig.difficulty_tags cfg) = Some "especial jefe".
Proof.
  intros curve bp.
  assert (Hname : "jefe" ≠ "") by discriminate.
  split; [reflexivity|]. split; [exact Hname|].
  destruct (ScalerMore.explicit_special_is_kept curve bp "jefe" eq_refl Hname)
    as [_ Hkept].
  destruct (Scaler.scale_stats curve bp) as [[[[h s] n] tags]|ex] eqn:Hstats;
    [|by vm_compute in Hstats].
  eexists. split; [exact (Hkept h s n tags eq_refl)|]. simpl.
  split; [reflexivity|]. by rewrite last_snoc.
Defined.

Lemma special_cadence_division_by_zero_witness :
  let curve := Scaler.mkDifficultyCurve (lit 1 64) (zero : Qc) zero 0 ["jefe"] in
  Scaler.truthy (WaveBlueprint.special (demo_blueprint 2)) = false
  ∧ (∃ stats, Scaler.scale_stats curve (demo_blueprint 2) = Returned stats)
  ∧ Scaler.scale_blueprint curve (demo_blueprint 2) = Raised ZeroDivisionError
  ∧ ∃ e, Scaler.apply_difficulty [demo_blueprint 1; demo_blueprint 2] (Some curve)
         = Raised e.
Proof.
  intros curve. split; [reflexivity|].
  destruct (Scaler.scale_stats curve (demo_blueprint 2)) as [[[[h s] n] tags]|ex]
    eqn:Hstats; [|by vm_compute in Hstats].
  split; [by eexists|].
  destruct (ScalerMore.special_cadence_division_by_zero curve (demo_blueprint 2)
              h s n tags eq_refl Hstats) as (Hzero & _ & Hspread).
  assert (Hraise : Scaler.scale_blueprint curve (demo_blueprint 2)
                   = Raised ZeroDivisionError).
  { apply Hzero; [reflexivity|by vm_compute]. }
  split; [exact Hraise|].
  apply (Hspread ZeroDivisionError _ Hraise).
  apply elem_of_cons. right. apply elem_of_cons. by left.
Defined.

Lemma advance_along_path_returns_witness :
  -1 ≤ 0
  ∧ (Z.to_nat (Z.of_nat (length demo_path) - 0) < 4)%nat
  ∧ ∃ pos index,
      Waypoint.advance_along_path demo_hypot 4 (of_int 0, of_int 0) demo_path 0
        (of_int 5) one (lit 1 2)
      = Some (Returned (pos, index))
      ∧ 0 ≤ index ∧ index ≤ 2.
Proof.
  assert (Hindex : -1 ≤ 0) by (by vm_compute).
  assert (Hfuel : (Z.to_nat (Z.of_nat (length demo_path) - 0) < 4)%nat)
    by (vm_compute; lia).
  split; [exact Hindex|]. split; [exact Hfuel|].
  destruct (WaypointFacts.advance_along_path_returns demo_hypot 4
              (of_int 0, of_int 0) demo_path 0 (of_int 5) one (lit 1 2) Hindex Hfuel)
    as (pos & index & Hrun & Hlow & Hhigh & _).
  exists pos, index. split; [exact Hrun|]. split; [exact Hlow|exact Hhigh].
Defined.

Lemma advance_without_budget_only_snaps_witness :
  let start : Waypoint.Point (F:=Qc) := (of_int 3, lit 7 2) in
  -1 ≤ 0
  ∧ (Z.to_nat (Z.of_nat (length demo_path) - 0) < 4)%nat
  ∧ leb (mul (zero : Qc) one) zero = true
  ∧ ∃ pos index,
      Waypoint.advance_along_path demo_hypot 4 start demo_path 0 zero one one
      = Some (Returned (pos, index))
      ∧ ((pos = start ∧ index = 0)
         ∨ (0 < index ∧ demo_path !! Z.to_nat index = Some pos)).
Proof.
  intros start.
  assert (Hindex : -1 ≤ 0) by (by vm_compute).
  assert (Hfuel : (Z.to_nat (Z.of_nat (length demo_path) - 0) < 4)%nat)
    by (vm_compute; lia).
  split; [exact Hindex|]. split; [exact Hfuel|]. split; [reflexivity|].
  exact (WaypointFacts.advance_without_budget_only_snaps demo_hypot 4 start demo_path
           0 zero one one Hindex Hfuel eq_refl).
Defined.

Lemma start_request_sets_wave_number_witness :
  Waves.reachable record_spawn demo_waves false (Waves.init demo_waves false)
  ∧ ∃ manager' stats',
      Main.start_wave_requested (Waves.init demo_waves false) demo_stats
      = (Returned (), (manager', stats'))
      ∧ Economy.money stats' = 250 ∧ Economy.lives stats' = 20.
Proof.
  split; [apply Waves.reach_init|].
  destruct (MainFacts.start_request_sets_wave_number record_spawn demo_waves false
              (Waves.init demo_waves false) demo_stats
              (Waves.reach_init record_spawn demo_waves false))
    as (manager' & stats' & Hrun & Hmoney & Hlives & _).
  by exists manager', stats'.
Defined.

End MoreWitnesses.
